(** * zk-ultralight: a shallow embedding of lib/ultralight.js

    The development follows the source file: the JavaScript primitives it
    relies on (string methods, the default array sort, the helpers of
    underscore and async), the replies of the native ZooKeeper binding,
    then [ZkCxn] with its connection gate, its lock table and its watch
    table, and the process-wide table [cxns] with [getCxn] and [shutdown].
    The properties come after the definitions, one module per concern.

    Conventions of the embedding:
    - JavaScript strings are Stdlib strings, one character per UTF-16
      code unit (store paths and node names are ASCII);
    - the objects used as dictionaries are plain objects: a read finds
      the own property of that name and otherwise the member inherited
      from [Object.prototype], if there is one ([Js.read]). The own
      properties of [_locks] and [_watching] are a finite map, those of
      [cxns], which [shutdown] enumerates, a list in creation order. The
      watch table is read and written under paths of store nodes only,
      which begin with the separator, and the lock table is written under
      such paths only;
    - asynchronous code is written in the order in which its callbacks
      run: a store call takes the reply of the store as given by a
      function of the calls made so far, and what a method leaves pending
      (a gate of [onConnection], a continuation in the watch table) is
      part of its result;
    - function values are named: the functions of the caller by a number,
      the closures of the library by a constructor that holds what they
      close over. *)

From Stdlib Require Import ZArith NArith Lia List Ascii String Sorted Permutation Bool.
From stdpp Require Import gmap strings list pretty.

(* ===================================================================== *)
(** ** JavaScript primitives *)
(* ===================================================================== *)

Module Js.

(** [s.slice(n)] for [0 <= n]: the string without its first [n] code
    units (the empty string when [n] exceeds the length). *)
Fixpoint slice_from (n : nat) (s : string) : string :=
  match n, s with
  | O, _ => s
  | S _, EmptyString => EmptyString
  | S n', String _ s' => slice_from n' s'
  end.

(** [s.slice(0, n)] for [0 <= n]: the first [n] code units. *)
Fixpoint slice_to (n : nat) (s : string) : string :=
  match n, s with
  | O, _ => EmptyString
  | S _, EmptyString => EmptyString
  | S n', String c s' => String c (slice_to n' s')
  end.

(** [s.slice(0, -1)]: everything but the last code unit. *)
Definition slice_drop_last (s : string) : string :=
  slice_to (String.length s - 1) s.

(** [s.slice(-1)]: the last code unit, as a string. *)
Definition slice_last (s : string) : string :=
  slice_from (String.length s - 1) s.

(** Does [p] start [s]? *)
Fixpoint starts_with (p s : string) : bool :=
  match p, s with
  | EmptyString, _ => true
  | String _ _, EmptyString => false
  | String a p', String b s' => if Ascii.eqb a b then starts_with p' s' else false
  end.

(** [s.indexOf(p)]: the first index at which [p] occurs in [s], or [-1]. *)
Fixpoint indexOf_from (i : Z) (p s : string) : Z :=
  if starts_with p s then i
  else match s with
       | EmptyString => (-1)%Z
       | String _ s' => indexOf_from (i + 1) p s'
       end.

Definition indexOf (p s : string) : Z := indexOf_from 0 p s.

(** [s.lastIndexOf(c)] for a one-character needle, or [-1]. *)
Fixpoint lastIndexOf_from (i : Z) (c : ascii) (s : string) : Z :=
  match s with
  | EmptyString => (-1)%Z
  | String a s' =>
      let later := lastIndexOf_from (i + 1) c s' in
      if (later =? -1)%Z then (if Ascii.eqb a c then i else (-1)%Z) else later
  end.

Definition lastIndexOf (c : ascii) (s : string) : Z := lastIndexOf_from 0 c s.

(** [s.split(c)] for a one-character separator. *)
Fixpoint split (c : ascii) (s : string) : list string :=
  match s with
  | EmptyString => [EmptyString]
  | String a s' =>
      if Ascii.eqb a c then EmptyString :: split c s'
      else match split c s' with
           | [] => [String a EmptyString]
           | w :: ws => String a w :: ws
           end
  end.

(** [parts.join(sep)]. *)
Fixpoint join (sep : string) (parts : list string) : string :=
  match parts with
  | [] => EmptyString
  | [w] => w
  | w :: ws => w +:+ sep +:+ join sep ws
  end.

(** Truthiness of a string value: every string but the empty one. *)
Definition truthy (s : string) : bool :=
  match s with EmptyString => false | String _ _ => true end.

(** The comparison of [Array.prototype.sort] without a comparator:
    elements are compared as strings, code unit by code unit. *)
Definition sort_le (a b : string) : bool := String.leb a b.

Fixpoint sort_insert (x : string) (l : list string) : list string :=
  match l with
  | [] => [x]
  | y :: l' => if sort_le x y then x :: y :: l' else y :: sort_insert x l'
  end.

(** [arr.sort()]. The language leaves the algorithm open; as the order is
    total and antisymmetric on strings the result does not depend on it
    (see [sort_unique]), and insertion is used here. *)
Fixpoint sort (l : list string) : list string :=
  match l with
  | [] => []
  | x :: l' => sort_insert x (sort l')
  end.

(** [arr[i]] for an integer index: [undefined] ([None]) outside
    [0 .. length-1], in particular at every negative index. *)
Definition array_get {A} (l : list A) (i : Z) : option A :=
  if (i <? 0)%Z then None else l !! Z.to_nat i.

(** *** Plain objects used as dictionaries *)

(** The property names a plain object inherits from [Object.prototype].
    Each of them names a function, and [__proto__] the prototype object
    itself: all of them are truthy values, none of them a string. *)
Definition Object_prototype : list string :=
  ["constructor"; "toString"; "toLocaleString"; "valueOf"; "hasOwnProperty";
   "isPrototypeOf"; "propertyIsEnumerable"; "__defineGetter__"; "__defineSetter__";
   "__lookupGetter__"; "__lookupSetter__"; "__proto__"].

Definition inherited (key : string) : bool := bool_decide (key ∈ Object_prototype).

(** What [obj[key]] reads. *)
Inductive property (V : Type) : Type :=
| Own (v : V)                  (* the own property *)
| Inherited (member : string)  (* the member of [Object.prototype] of that name *)
| Undefined.

Arguments Own {V} v.
Arguments Inherited {V} member.
Arguments Undefined {V}.

(** [obj[key]], given the own property of that name, if any: own
    properties shadow the inherited ones. *)
Definition read {V} (own : option V) (key : string) : property V :=
  match own with
  | Some v => Own v
  | None => if inherited key then Inherited key else Undefined
  end.

(** How the engine prints an inherited member in the message of a
    [TypeError]. *)
Definition show_inherited (member : string) : string :=
  if String.eqb member "__proto__" then "#<Object>"
  else "function " +:+ (if String.eqb member "constructor" then "Object" else member)
       +:+ "() { [native code] }".

(** The own enumerable properties of an object, in the order of their
    creation. *)
Abbreviation object V := (list (string * V)).

(** The own property [key]. *)
Fixpoint own_get {V} (o : object V) (key : string) : option V :=
  match o with
  | [] => None
  | (k, v) :: o' => if String.eqb k key then Some v else own_get o' key
  end.

(** [obj[key] = v] for a [key] other than [__proto__]: an own property of
    that name keeps its place, a new one comes last. *)
Fixpoint put {V} (key : string) (v : V) (o : object V) : object V :=
  match o with
  | [] => [(key, v)]
  | (k, v0) :: o' => if String.eqb k key then (k, v) :: o' else (k, v0) :: put key v o'
  end.

(** The value of a string of decimal digits, with the digits read so far
    in [acc]. *)
Fixpoint decimal (acc : N) (s : string) : option N :=
  match s with
  | EmptyString => Some acc
  | String c s' =>
      let d := N_of_ascii c in
      if (48 <=? d)%N && (d <=? 57)%N then decimal (acc * 10 + (d - 48)) s' else None
  end.

(** A property name that is an array index: the canonical decimal form
    (no leading zero) of an integer below [2^32 - 1]. *)
Definition array_index (key : string) : option N :=
  match key with
  | EmptyString => None
  | String "0" EmptyString => Some 0%N
  | String "0" _ => None
  | _ => match decimal 0 key with
         | Some n => if (n <? 4294967295)%N then Some n else None
         | None => None
         end
  end.

Fixpoint insert_by_index {V} (n : N) (kv : string * V) (l : list (N * (string * V)))
    : list (N * (string * V)) :=
  match l with
  | [] => [(n, kv)]
  | (m, kv') :: l' =>
      if (n <? m)%N then (n, kv) :: l else (m, kv') :: insert_by_index n kv l'
  end.

(** The order in which [for (key in obj)] and [Object.keys(obj)] visit the
    own properties: the array indices in ascending numeric order, then
    the other names in the order of their creation. *)
Definition enumerate {V} (o : object V) : list (string * V) :=
  (fold_right (fun kv acc => match array_index (fst kv) with
                             | Some n => insert_by_index n kv acc
                             | None => acc
                             end) [] o).*2
  ++ filter (fun kv => array_index (fst kv) = None) o.

End Js.

Definition slash : ascii := "/"%char.


(* ===================================================================== *)
(** ** underscore *)
(* ===================================================================== *)

Module Underscore.

(** The loop of [_.sortedIndex(array, obj)]:
    [while (low < high) { mid = (low + high) >>> 1;
       array[mid] < value ? low = mid + 1 : high = mid; }].
    [high - low] shrinks at every turn, so [high - low] turns are enough
    (see [sortedIndex_loop_fuel]). *)
Fixpoint sortedIndex_loop (fuel : nat) (array : list string) (value : string)
    (low high : nat) : nat :=
  match fuel with
  | O => low
  | S fuel' =>
      if (low <? high)%nat then
        let mid := ((low + high) / 2)%nat in
        if String.ltb (nth mid array EmptyString) value
        then sortedIndex_loop fuel' array value (mid + 1) high
        else sortedIndex_loop fuel' array value low mid
      else low
  end.

Definition sortedIndex (array : list string) (value : string) : nat :=
  sortedIndex_loop (length array) array value 0 (length array).

(** [_.indexOf(array, item, true)]: with [isSorted] set the index is looked
    up by binary search, [i = _.sortedIndex(array, item);
    return array[i] === item ? i : -1]. *)
Definition indexOf_sorted (array : list string) (item : string) : Z :=
  let i := sortedIndex array item in
  match array !! i with
  | Some x => if String.eqb x item then Z.of_nat i else (-1)%Z
  | None => (-1)%Z
  end.

(** [_.values(obj)]: the values of the own properties, in the order in
    which the engine enumerates them. *)
Definition values {A} (obj : Js.object A) : list A :=
  (Js.enumerate obj).*2.

End Underscore.

(* ===================================================================== *)
(** ** Errors and the replies of the native binding *)
(* ===================================================================== *)

(** Values that travel in the [err] position of a callback. The [error]
    argument the binding hands over with a return code other than [ZOK] is
    its description of the code, a non-empty string; like the two error
    objects it is a truthy value, which is all [if (err)] looks at. *)
Inductive jserror : Type :=
| StoreError (error : string)            (* the binding's [error] argument *)
| JsError (message : string)             (* [new Error(message)] *)
| ZkError (rc : Z) (message : string).   (* [new ZkError(rc, error)] *)

(** An exception that leaves a callback run by the binding or a timer. *)
Inductive exception : Type :=
| TypeError (message : string).

Definition ZOK : Z := 0.
Definition ZNONODE : Z := -101.
Definition ZNODEEXISTS : Z := -110.
Definition ZOO_EPHEMERAL : Z := 1.
Definition ZOO_SEQUENCE : Z := 2.

(** Calls on the native handle [this._zk]. *)
Inductive call : Type :=
| a_create (path value : string) (flags : Z)
| a_delete_ (path : string) (version : Z)
| a_delete_member (member : string) (version : Z)
    (* a_delete_ handed [Object.prototype[member]], not a string, as its path *)
| a_exists (path : string) (watch : bool)
| a_get_children (path : string) (watch : bool).

(** What the binding passes to the callback of a call: [(rc, error, x)]
    where [x] is the created path for [a_create] (the source names it
    [stat]), and the child names for [a_get_children]. The fields a call
    does not use are ignored. *)
Record reply : Type := Reply {
  rc : Z;
  error : string;
  stat : string;
  children : list string
}.

(** The store as seen through the handle: the reply to the newest call
    given every call issued so far (newest first). Any sequence of replies
    is the behaviour of some such function. *)
Definition store : Type := list call -> reply.

Definition issue (zk : store) (c : call) (calls : list call) : reply * list call :=
  (zk (c :: calls), c :: calls).

(** The double quote, for the message of [_create]. *)
Definition dquote : string := String (Ascii.ascii_of_nat 34) EmptyString.

(* ===================================================================== *)
(** ** async *)
(* ===================================================================== *)

Module Async.

(** [async.forEachSeries(arr, iterator, callback)] for an iterator that
    always calls back: the next element is started from the callback of the
    previous one; the first truthy [err] goes to [callback] and nothing
    further is started; [callback()] after the last element, or at once
    when [arr] is empty. The state [S] is threaded through the iterator. *)
Fixpoint forEachSeries {A S : Type} (iterator : A -> S -> option jserror * S)
    (arr : list A) (s : S) : option jserror * S :=
  match arr with
  | [] => (None, s)
  | x :: arr' =>
      match iterator x s with
      | (Some err, s') => (Some err, s')
      | (None, s') => forEachSeries iterator arr' s'
      end
  end.

(** [async.forEach(arr, iterator, callback)]: the iterator is started on
    every element in turn, whatever the earlier ones report. Each callback
    either passes an error, which goes to [callback] the first time that
    happens ([callback] is then replaced by a no-op), or counts as
    completed, and [callback(null)] is called when the count reaches
    [arr.length]. The record holds the variables of the closure. *)
Record forEach_state : Type := ForEachState {
  fe_length : nat;                        (* arr.length *)
  fe_completed : nat;                     (* completed *)
  fe_live : bool;                         (* callback not yet replaced *)
  fe_reported : list (option jserror)     (* calls of the real callback *)
}.

Definition forEach_start (n : nat) : forEach_state :=
  match n with
  | O => ForEachState 0 0 false [None]    (* if (!arr.length) return callback(); *)
  | _ => ForEachState n 0 true []
  end.

(** One iterator calls back with [err]. *)
Definition forEach_done (err : option jserror) (st : forEach_state) : forEach_state :=
  match err with
  | Some e =>
      if fe_live st
      then ForEachState (fe_length st) (fe_completed st) false (fe_reported st ++ [Some e])
      else st
  | None =>
      let completed := S (fe_completed st) in
      if (completed =? fe_length st)%nat && fe_live st
      then ForEachState (fe_length st) completed (fe_live st) (fe_reported st ++ [None])
      else ForEachState (fe_length st) completed (fe_live st) (fe_reported st)
  end.

End Async.

(* ===================================================================== *)
(** ** ZkCxn: state, connection gate, state changes *)
(* ===================================================================== *)

(** [ZkCxn.prototype.cxnStates]. *)
Inductive cxnStates : Type := ERROR | CLOSED | CONNECTING | CONNECTED.

Definition cxnStates_eqb (a b : cxnStates) : bool :=
  match a, b with
  | ERROR, ERROR | CLOSED, CLOSED | CONNECTING, CONNECTING | CONNECTED, CONNECTED => true
  | _, _ => false
  end.

(** Function values: those the caller of the library supplies, named by a
    number (functions are compared by identity), and the closures the
    library builds around them. *)
Inductive fn : Type :=
| Caller (id : nat)
| Noop                                               (* function() {} *)
| OnceOf (callback : fn)                             (* _.once(callback) in _connect *)
| LockGate (name txnId : string) (callback : fn)     (* function(err) {...} of lock *)
| UnlockGate (name : string) (callback : fn)         (* function(err) {...} of unlock *)
| CloseBound (callback : fn)                         (* this._close.bind(this, callback) *)
| UntilNext (name node : string) (callback : fn)     (* callback of the iterator of async.until in negotiateLock *)
| ForEachCb (i : nat).                               (* callback async.forEach gives its iterator for element i *)

(** The variables one call of [onConnection] closes over once it has
    decided to wait: [originalCallback], the flag of [_.once], and whether
    [timerId] is still pending. *)
Record gate : Type := Gate {
  originalCallback : fn;
  ran : bool;
  timer : bool
}.

(** One invocation of a function value: through the one-shot wrapper of
    gate [g] ([via = Some g]) or directly. *)
Record invocation : Type := Invocation {
  via : option nat;
  callee : fn;
  arg : option jserror
}.

(** The fields of [ZkCxn], followed by what the model keeps for the
    closures and for the trace of callback invocations. [_zk] holds the
    identity of the native handle; [_stateEmitter] the registrations
    [on(event, listener)] in order, a listener being the wrapper of a gate. *)
Record ZkCxn : Type := MkZkCxn {
  _urls : string;
  _zk : option nat;
  _stateEmitter : option (list (cxnStates * nat));
  _cxnState : cxnStates;
  _locks : gmap string string;
  _watching : gmap string (list fn);
  _timeout : Z;
  _sessionId : option Z;
  gates : list gate;
  invoked : list invocation
}.

(** [new ZkCxn(urls, timeout)]. *)
Definition new_ZkCxn (urls : string) (timeout : Z) : ZkCxn :=
  MkZkCxn urls None None CLOSED ∅ ∅ timeout None [] [].

Definition set_zk (v : option nat) (s : ZkCxn) : ZkCxn :=
  MkZkCxn (_urls s) v (_stateEmitter s) (_cxnState s) (_locks s) (_watching s)
          (_timeout s) (_sessionId s) (gates s) (invoked s).

Definition set_stateEmitter (v : option (list (cxnStates * nat))) (s : ZkCxn) : ZkCxn :=
  MkZkCxn (_urls s) (_zk s) v (_cxnState s) (_locks s) (_watching s)
          (_timeout s) (_sessionId s) (gates s) (invoked s).

Definition set_cxnState (v : cxnStates) (s : ZkCxn) : ZkCxn :=
  MkZkCxn (_urls s) (_zk s) (_stateEmitter s) v (_locks s) (_watching s)
          (_timeout s) (_sessionId s) (gates s) (invoked s).

Definition set_locks (v : gmap string string) (s : ZkCxn) : ZkCxn :=
  MkZkCxn (_urls s) (_zk s) (_stateEmitter s) (_cxnState s) v (_watching s)
          (_timeout s) (_sessionId s) (gates s) (invoked s).

Definition set_watching (v : gmap string (list fn)) (s : ZkCxn) : ZkCxn :=
  MkZkCxn (_urls s) (_zk s) (_stateEmitter s) (_cxnState s) (_locks s) v
          (_timeout s) (_sessionId s) (gates s) (invoked s).

Definition set_sessionId (v : option Z) (s : ZkCxn) : ZkCxn :=
  MkZkCxn (_urls s) (_zk s) (_stateEmitter s) (_cxnState s) (_locks s) (_watching s)
          (_timeout s) v (gates s) (invoked s).

Definition set_gates (v : list gate) (s : ZkCxn) : ZkCxn :=
  MkZkCxn (_urls s) (_zk s) (_stateEmitter s) (_cxnState s) (_locks s) (_watching s)
          (_timeout s) (_sessionId s) v (invoked s).

(** A function value is called with [err]. *)
Definition record_call (g : option nat) (f : fn) (err : option jserror) (s : ZkCxn) : ZkCxn :=
  MkZkCxn (_urls s) (_zk s) (_stateEmitter s) (_cxnState s) (_locks s) (_watching s)
          (_timeout s) (_sessionId s) (gates s) (invoked s ++ [Invocation g f err]).

(** The wrapper [_.once(function() { clearTimeout(timerId);
    originalCallback.apply(null, arguments); })] of gate [g] is called with
    [err]: nothing after its first run; on the first run the flag is set,
    the timer is cleared and [originalCallback] is called. *)
Definition call_once (g : nat) (err : option jserror) (s : ZkCxn) : ZkCxn :=
  match gates s !! g with
  | None => s
  | Some gt =>
      if ran gt then s
      else record_call (Some g) (originalCallback gt) err
             (set_gates (<[g := Gate (originalCallback gt) true false]> (gates s)) s)
  end.

(** [this._stateEmitter.emit(to, data)]: the listeners registered for [to]
    are called in the order of registration. *)
Definition emit (to : cxnStates) (data : option jserror)
    (listeners : list (cxnStates * nat)) (s : ZkCxn) : ZkCxn :=
  fold_left (fun s l => if cxnStates_eqb (fst l) to then call_once (snd l) data s else s)
            listeners s.

(** [ZkCxn.prototype._changeState]. *)
Definition _changeState (to : cxnStates) (data : option jserror) (s : ZkCxn) : ZkCxn :=
  let s := set_cxnState to s in
  match _stateEmitter s with
  | Some listeners => emit to data listeners s
  | None => s
  end.

(** ["Timed out after " + self._timeout]. *)
Definition timed_out_message (timeout : Z) : string :=
  "Timed out after " +:+ pretty timeout.

(** The timer of gate [g] expires: a cleared or spent timer does nothing,
    a pending one runs [callback(new Error(...))], where [callback] is by
    then the one-shot wrapper the variable was reassigned to. *)
Definition timer_expires (g : nat) (s : ZkCxn) : ZkCxn :=
  match gates s !! g with
  | None => s
  | Some gt =>
      if timer gt
      then call_once g (Some (JsError (timed_out_message (_timeout s))))
             (set_gates (<[g := Gate (originalCallback gt) (ran gt) false]> (gates s)) s)
      else s
  end.

(** [ZkCxn.prototype.onConnection]. *)
Definition onConnection (callback : fn) (s : ZkCxn) : ZkCxn :=
  match _cxnState s with
  | ERROR =>
      let err := JsError "ZooKeeper connection is in ERROR" in
      _changeState ERROR (Some err) (record_call None callback (Some err) s)
  | CONNECTED => record_call None callback None s
  | _ =>
      let g := length (gates s) in
      let s := set_gates (gates s ++ [Gate callback false true]) s in
      let listeners := default [] (_stateEmitter s) in
      set_stateEmitter (Some (listeners ++ [(CONNECTED, g); (ERROR, g)])) s
  end.

(** [ZkCxn.prototype._connect], including the [new ZK()] whose identity is
    [fresh]. The handlers it installs on the handle are [on_connected],
    [on_connecting], [on_closed] and [on_event_deleted] below. Calls of
    the wrapper [_.once(callback)] are recorded as such; the file only
    ever passes [function() {}] as [callback]. *)
Definition _connect (fresh : nat) (callback : fn) (s : ZkCxn) : ZkCxn :=
  let callback := OnceOf callback in
  match _cxnState s with
  | CONNECTING => onConnection callback s
  | CONNECTED => record_call None callback None s
  | _ =>
      match _zk s with
      | Some _ =>
          let err := JsError "Connection is closed!" in
          _changeState ERROR (Some err) (record_call None callback (Some err) s)
      | None =>
          let s := _changeState CONNECTING None s in
          let s := set_zk (Some fresh) s in
          match _stateEmitter s with
          | None => set_stateEmitter (Some []) s
          | Some _ => s
          end
      end
  end.

(** The handler of [ZK.on_connected], closing over the [callback] of the
    [_connect] that made the handle. *)
Definition on_connected (callback : fn) (client_id : Z) (s : ZkCxn) : ZkCxn :=
  let s := set_sessionId (Some client_id) s in
  let s := _changeState CONNECTED None s in
  record_call None (OnceOf callback) None s.

(** The handler of [ZK.on_connecting]. *)
Definition on_connecting (s : ZkCxn) : ZkCxn :=
  _changeState CONNECTING None s.

(** The handler of [ZK.on_closed]. *)
Definition on_closed (fresh : nat) (s : ZkCxn) : ZkCxn :=
  let s := set_zk None s in
  let s := set_stateEmitter None s in
  match _cxnState s with
  | CLOSED => s
  | _ =>
      let s := _changeState ERROR (Some (JsError "Reconnecting")) s in
      _connect fresh Noop s
  end.

(** [ZkCxn.prototype._close]: [this._zk.close()] on a missing handle is a
    [TypeError], raised after the state change and before the callback. *)
Definition _close (callback : fn) (s : ZkCxn) : option exception * ZkCxn :=
  let s := _changeState CLOSED None s in
  match _zk s with
  | None => (Some (TypeError "Cannot call method 'close' of null"), s)
  | Some _ => (None, record_call None callback None s)
  end.

(** [ZkCxn.prototype.close]. *)
Definition close (callback : fn) (s : ZkCxn) : option exception * ZkCxn :=
  match _cxnState s with
  | CLOSED => (None, onConnection (CloseBound callback) s)
  | _ => _close callback s
  end.

(* ===================================================================== *)
(** ** Store operations of ZkCxn *)
(* ===================================================================== *)

(** These run behind the connection gate, on the handle [this._zk]; [calls]
    is the list of calls issued on the handle so far. *)

(** ['A zookeeper path must begin with "/" !']. *)
Definition must_begin_with_slash : string :=
  "A zookeeper path must begin with " +:+ dquote +:+ "/" +:+ dquote +:+ " !".

(** [ZkCxn.prototype._create]: what [callback] receives, [(err, stat)]. *)
Definition _create (zk : store) (path value : string) (flags : Z) (calls : list call)
    : (option jserror * option string) * list call :=
  match path with
  | String "/" _ =>
      let '(r, calls) := issue zk (a_create path value flags) calls in
      if negb (rc r =? ZOK)%Z && negb (rc r =? ZNODEEXISTS)%Z
      then ((Some (StoreError (error r)), None), calls)
      else ((None, Some (stat r)), calls)
  | _ => ((Some (JsError must_begin_with_slash), None), calls)
  end.

(** The array [paths] built by [_createPath]: ['/' + parts.slice(0, i).join('/')]
    for [i = 1 .. parts.length]. *)
Definition ancestor_paths (parts : list string) : list string :=
  map (fun i => "/" +:+ Js.join "/" (take i parts)) (seq 1 (length parts)).

(** [ZkCxn.prototype._createPath]: what [callback] receives. *)
Definition _createPath (zk : store) (path value : string) (flags : Z) (calls : list call)
    : option jserror * list call :=
  let path := if (Js.indexOf "/" path =? 0)%Z then Js.slice_from 1 path else path in
  if (String.length path =? 0)%nat then (None, calls)
  else
    let parts := filter (fun i => Js.truthy i = true) (Js.split slash path) in
    let paths := ancestor_paths parts in
    Async.forEachSeries (fun path calls => let '(res, calls) := _create zk path value flags calls in
                                           (fst res, calls))
                        paths calls.

(** [ZkCxn.prototype._getChildren]: what [callback] receives,
    [(err, children)], with [children] undefined on an error. *)
Definition _getChildren (zk : store) (path : string) (watch : bool) (calls : list call)
    : (option jserror * option (list string)) * list call :=
  let path := if (1 <? String.length path)%nat && String.eqb (Js.slice_last path) "/"
              then Js.slice_drop_last path else path in
  let '(r, calls) := issue zk (a_get_children path watch) calls in
  if negb (rc r =? ZOK)%Z
  then ((Some (StoreError (error r)), None), calls)
  else ((None, Some (children r)), calls).

(** [ZkCxn.prototype._exists]: what [callback] receives, [(err, exists)]. *)
Definition _exists (zk : store) (path : string) (watch : bool) (calls : list call)
    : (option jserror * option bool) * list call :=
  let '(r, calls) := issue zk (a_exists path watch) calls in
  if (rc r =? ZNONODE)%Z then ((None, Some false), calls)
  else if (rc r =? ZOK)%Z then ((None, Some true), calls)
  else ((Some (ZkError (rc r) (error r)), None), calls).

(** The two statements at the end of [_watch]:
    [self._watching[path] = self._watching[path] || [];
     self._watching[path].push(callback)]. *)
Definition watching_push (path : string) (callback : fn)
    (watching : gmap string (list fn)) : gmap string (list fn) :=
  <[path := default [] (watching !! path) ++ [callback]]> watching.

(** [ZkCxn.prototype._watch]: [Some err] when [callback(err)] was called,
    [None] when [callback] was queued for [path]. *)
Definition _watch (zk : store) (path : string) (callback : fn)
    (w : ZkCxn * list call) : option jserror * (ZkCxn * list call) :=
  let '(s, calls) := w in
  let '(res, calls) := _exists zk path true calls in
  match fst res with
  | Some err => (Some err, (s, calls))
  | None => (None, (set_watching (watching_push path callback (_watching s)) s, calls))
  end.

(** The handler of [ZK.on_event_deleted] for the path [lock]. The
    functions in the table are called with no argument; [body f] lists the
    registrations [(path, callback)] reaching the end of [_watch] while [f]
    runs. Returns the functions called, in order. *)
Definition on_event_deleted (body : fn -> list (string * fn)) (lock : string)
    (watching : gmap string (list fn)) : list fn * gmap string (list fn) :=
  match watching !! lock with
  | Some callbacks =>
      let watching := delete lock watching in
      fold_left (fun acc callback =>
                   (fst acc ++ [callback],
                    fold_left (fun w reg => watching_push (fst reg) (snd reg) w)
                              (body callback) (snd acc)))
                callbacks ([], watching)
  | None => ([], watching)
  end.

(* ===================================================================== *)
(** ** lock and unlock *)
(* ===================================================================== *)

(** Where an operation stands once everything that can run has run. *)
Inductive outcome : Type :=
| Called (err : option jserror) (result : option string)
                                   (* its callback was called with (err, result) *)
| AtGate (g : nat)                 (* waiting in gate [g] of onConnection *)
| Parked (path : string)           (* its continuation is queued in _watching[path] *)
| Silent                           (* the last callback returned and nothing is queued:
                                      its callback will never be called *)
| Threw (e : exception)            (* an exception left a callback of the binding *)
| OutOfFuel.                       (* the model stopped unrolling async.until *)

(** [lockname] and [lockpath] of [lock]: the parts of [name] after and up
    to the last ['/']. *)
Definition lockname_of (name : string) : string :=
  Js.slice_from (Z.to_nat (Js.lastIndexOf slash name + 1)) name.

Definition lockpath_of (name : string) : string :=
  Js.slice_to (Z.to_nat (Js.lastIndexOf slash name + 1)) name.

(** The part of the iterator of [negotiateLock] between the listing and
    the store calls that follow: what the sorted sequence numbers say. *)
Inductive ranking : Type :=
| Lowest                            (* position === sequenceNumbers[0] *)
| After (nextLowest : string)       (* if (nextLowest): the node path to watch *)
| Neither.                          (* neither branch is taken *)

Definition sequenceNumbers_of (lockname : string) (children : list string) : list string :=
  let matchingChildren :=
    filter (fun n => Js.indexOf lockname n ≠ (-1)%Z) children in
  Js.sort (map (fun n => Js.slice_from (String.length lockname) n) matchingChildren).

Definition rank (lockpath lockname node : string) (children : list string) : ranking :=
  let position := Js.slice_from (String.length lockpath + String.length lockname) node in
  let sequenceNumbers := sequenceNumbers_of lockname children in
  if bool_decide (Some position = head sequenceNumbers) then Lowest
  else
    match Js.array_get sequenceNumbers
            (Underscore.indexOf_sorted sequenceNumbers position - 1) with
    | Some nextLowest =>
        if Js.truthy nextLowest then After (lockpath +:+ lockname +:+ nextLowest)
        else Neither
    | None => Neither
    end.

(** What one run of the iterator of [async.until] leads to. *)
Inductive iteration : Type :=
| Callback (err : option jserror) (gotLock : bool)   (* callback(err) was called *)
| Queued (path : string)                             (* callback was handed to _watching[path] *)
| Returned                                           (* neither called nor queued *)
| Raised (e : exception).

(** The iterator [function(callback) { self._getChildren(lockpath, false,
    function(err, children) {...}) }] of [negotiateLock]. The inner
    function never reads [err]; [children.filter] on an undefined
    [children] raises. *)
Definition negotiate_iterator (zk : store) (name node : string) (callback : fn)
    (w : ZkCxn * list call) : iteration * (ZkCxn * list call) :=
  let lockname := lockname_of name in
  let lockpath := lockpath_of name in
  let '(s, calls) := w in
  let '(res, calls) := _getChildren zk lockpath false calls in
  match snd res with
  | None => (Raised (TypeError "Cannot call method 'filter' of undefined"), (s, calls))
  | Some children =>
      match rank lockpath lockname node children with
      | Lowest => (Callback None true, (set_locks (<[name := node]> (_locks s)) s, calls))
      | After nextLowest =>
          let '(res, calls) := _exists zk nextLowest true calls in
          match snd res with
          | Some true =>
              match _watch zk nextLowest (UntilNext name node callback) (s, calls) with
              | (Some err, w) => (Callback (Some err) false, w)
              | (None, w) => (Queued nextLowest, w)
              end
          | _ => (Callback None false, (s, calls))        (* if (!exists) *)
          end
      | Neither => (Returned, (s, calls))
      end
  end.

(** [async.until(test, iterator, callback)] with [test] reading [gotLock],
    unrolled at most [fuel] times. *)
Fixpoint negotiateLock (fuel : nat) (zk : store) (name node : string) (callback : fn)
    (w : ZkCxn * list call) : outcome * (ZkCxn * list call) :=
  match fuel with
  | O => (OutOfFuel, w)
  | S fuel' =>
      match negotiate_iterator zk name node callback w with
      | (Callback (Some err) _, w) => (Called (Some err) None, w)
      | (Callback None true, w) => (Called None None, w)
      | (Callback None false, w) => negotiateLock fuel' zk name node callback w
      | (Queued path, w) => (Parked path, w)
      | (Returned, w) => (Silent, w)
      | (Raised e, w) => (Threw e, w)
      end
  end.

(** The function [lock] hands to [onConnection], called with [err]: the
    three tasks of [async.auto] run one after the other, and the first
    error ends the chain. *)
Definition lock_gated (fuel : nat) (zk : store) (name txnId : string) (callback : fn)
    (err : option jserror) (w : ZkCxn * list call) : outcome * (ZkCxn * list call) :=
  match err with
  | Some e => (Called (Some e) None, w)
  | None =>
      let '(s, calls) := w in
      match _createPath zk (lockpath_of name) txnId 0 calls with
      | (Some e, calls) => (Called (Some e) None, (s, calls))
      | (None, calls) =>
          match _create zk name txnId (Z.lor ZOO_SEQUENCE ZOO_EPHEMERAL) calls with
          | ((Some e, _), calls) => (Called (Some e) None, (s, calls))
          | ((None, node), calls) =>
              negotiateLock fuel zk name (default "" node) callback (s, calls)
          end
      end
  end.

(** The function [unlock] hands to [onConnection], called with [err].
    [self._locks[name]] reads a plain object: for a name without an own
    entry that names a member of [Object.prototype] the value read is that
    member, which is truthy, and it is handed to [a_delete_] as the path;
    [delete self._locks[name]] removes an own property only. *)
Definition unlock_gated (zk : store) (name : string) (err : option jserror)
    (w : ZkCxn * list call) : outcome * (ZkCxn * list call) :=
  let '(s, calls) := w in
  let not_held := JsError ("Don't have lock " +:+ name +:+ "!") in
  match err with
  | Some e => (Called (Some e) None, w)
  | None =>
      let deleting (c : call) :=
        let '(r, calls) := issue zk c calls in
        if negb (rc r =? ZOK)%Z
        then (Called (Some (StoreError (error r))) None, (s, calls))
        else (Called None (Some name), (set_locks (delete name (_locks s)) s, calls)) in
      match Js.read (_locks s !! name) name with
      | Js.Own node =>
          if Js.truthy node then deleting (a_delete_ node 0)
          else (Called (Some not_held) None, w)
      | Js.Inherited member => deleting (a_delete_member member 0)
      | Js.Undefined => (Called (Some not_held) None, w)
      end
  end.

(** [ZkCxn.prototype.lock]. *)
Definition lock (fuel : nat) (zk : store) (name txnId : string) (callback : fn)
    (w : ZkCxn * list call) : outcome * (ZkCxn * list call) :=
  let '(s, calls) := w in
  let s' := onConnection (LockGate name txnId callback) s in
  match _cxnState s with
  | CONNECTED => lock_gated fuel zk name txnId callback None (s', calls)
  | ERROR =>
      lock_gated fuel zk name txnId callback
        (Some (JsError "ZooKeeper connection is in ERROR")) (s', calls)
  | _ => (AtGate (length (gates s)), (s', calls))
  end.

(** [ZkCxn.prototype.unlock]. *)
Definition unlock (zk : store) (name : string) (callback : fn)
    (w : ZkCxn * list call) : outcome * (ZkCxn * list call) :=
  let '(s, calls) := w in
  let s' := onConnection (UnlockGate name callback) s in
  match _cxnState s with
  | CONNECTED => unlock_gated zk name None (s', calls)
  | ERROR =>
      unlock_gated zk name (Some (JsError "ZooKeeper connection is in ERROR")) (s', calls)
  | _ => (AtGate (length (gates s)), (s', calls))
  end.

(** What a function the library handed to [onConnection] does once it is
    called, by [onConnection] itself, by an event or by a timer. *)
Definition run_gated (fuel : nat) (zk : store) (i : invocation)
    (w : ZkCxn * list call) : option (outcome * (ZkCxn * list call)) :=
  match callee i with
  | LockGate name txnId callback => Some (lock_gated fuel zk name txnId callback (arg i) w)
  | UnlockGate name callback => Some (unlock_gated zk name (arg i) w)
  | _ => None
  end.

(* ===================================================================== *)
(** ** The process-wide table [cxns], getCxn and shutdown *)
(* ===================================================================== *)

Definition DEFAULT_ZK_CXN_TIMEOUT : Z := 8000.

(** The module state: the variable [cxns] (urls to a [ZkCxn] object), a
    plain object; the objects made by [new ZkCxn] so far, an object being
    named by its position; and the number of native handles made so far. *)
Record process : Type := Process {
  cxns : Js.object nat;
  objects : list ZkCxn;
  handles : nat
}.

(** [exports.getCxn]; [cxnTimeout] is [None] when the argument is left
    out. Returns the object handed back, or the exception raised.
    [cxns[urls] || new ZkCxn(urls, timeout)] reads a plain object: when
    [urls] names a member of [Object.prototype] and no own property, the
    value read is that member, it is truthy, no session is constructed,
    and [cxn._connect] is not a function: the call raises before the
    table is written. *)
Definition getCxn (zkUrls : list string) (cxnTimeout : option Z) (p : process)
    : (exception + nat) * process :=
  let urls := Js.join "," zkUrls in
  let timeout := match cxnTimeout with
                 | Some t => if (t =? 0)%Z then DEFAULT_ZK_CXN_TIMEOUT else t
                 | None => DEFAULT_ZK_CXN_TIMEOUT
                 end in
  let connect (cxn : nat) (objs : list ZkCxn) :=
    let objs := alter (_connect (handles p) Noop) cxn objs in
    (inr cxn, Process (Js.put urls cxn (cxns p)) objs (S (handles p))) in
  match Js.read (Js.own_get (cxns p) urls) urls with
  | Js.Own cxn => connect cxn (objects p)
  | Js.Inherited member =>
      (inl (TypeError ("Object " +:+ Js.show_inherited member
                       +:+ " has no method '_connect'")), p)
  | Js.Undefined =>
      connect (length (objects p)) (objects p ++ [new_ZkCxn urls timeout])
  end.

(** What [shutdown] has done when it returns: the objects [close] was
    called on, in order; the state of [async.forEach]; and the exception
    that cut the loop short, if any. *)
Record shutdown_report : Type := ShutdownReport {
  closed : list nat;
  forEach : Async.forEach_state;
  raised : option exception
}.

(** The loop of [async.forEach] in [shutdown]: [cxn.close(callback)] on
    each element. A session that is not CLOSED calls back before [close]
    returns; a CLOSED one keeps the callback in a gate. *)
Fixpoint shutdown_each (i : nat) (toClose : list nat) (objs : list ZkCxn)
    (rep : shutdown_report) : shutdown_report * list ZkCxn :=
  match toClose with
  | [] => (rep, objs)
  | cxn :: toClose' =>
      match objs !! cxn with
      | None => (rep, objs)
      | Some s =>
          match close (ForEachCb i) s with
          | (Some e, s') =>
              (ShutdownReport (closed rep ++ [cxn]) (forEach rep) (Some e),
               <[cxn := s']> objs)
          | (None, s') =>
              let fe := match _cxnState s with
                        | CLOSED => forEach rep
                        | _ => Async.forEach_done None (forEach rep)
                        end in
              shutdown_each (S i) toClose' (<[cxn := s']> objs)
                            (ShutdownReport (closed rep ++ [cxn]) fe None)
          end
      end
  end.

(** [exports.shutdown]. *)
Definition shutdown (p : process) : shutdown_report * process :=
  let toClose := Underscore.values (cxns p) in
  let '(rep, objs) :=
    shutdown_each 0 toClose (objects p)
      (ShutdownReport [] (Async.forEach_start (length toClose)) None) in
  (rep, Process [] objs (handles p)).

(* ===================================================================== *)
(** ** Vocabulary of the specification *)
(* ===================================================================== *)

(** Sequence numbers: the value of a string of decimal digits. *)
Definition is_digit (c : ascii) : bool :=
  (48 <=? N_of_ascii c)%N && (N_of_ascii c <=? 57)%N.

Fixpoint is_digits (s : string) : bool :=
  match s with
  | EmptyString => true
  | String c s' => is_digit c && is_digits s'
  end.

Fixpoint seqnum (s : string) : N :=
  match s with
  | EmptyString => 0%N
  | String c s' => ((N_of_ascii c - 48) * 10 ^ N.of_nat (String.length s') + seqnum s')%N
  end.

(** A list of suffixes in ascending order of their sequence numbers. *)
Definition numeric_ascending (l : list string) : Prop :=
  StronglySorted N.le (map seqnum l).

(** The suffixes the loop extracts from a listing, before sorting. *)
Definition suffixes_of (lockname : string) (children : list string) : list string :=
  map (fun n => Js.slice_from (String.length lockname) n)
      (filter (fun n => Js.indexOf lockname n ≠ (-1)%Z) children).

(** A suffix of [width] decimal digits. *)
Definition fixed_width (width : nat) (s : string) : Prop :=
  is_digits s = true ∧ String.length s = width.

(* ===================================================================== *)
(** ** Traces *)
(* ===================================================================== *)

(** Everything in the file that calls [_changeState], reads or replaces
    [_stateEmitter], or touches the gates: the handlers of the native
    handle, the expiry of a timer, and the methods themselves. *)
Inductive event : Type :=
| TimerExpires (g : nat)
| OnConnected (callback : fn) (client_id : Z)
| OnConnecting
| OnClosed (fresh : nat)
| CallOnConnection (callback : fn)
| CallConnect (fresh : nat) (callback : fn)
| CallClose (callback : fn).

Definition step (s : ZkCxn) (e : event) : ZkCxn :=
  match e with
  | TimerExpires g => timer_expires g s
  | OnConnected callback client_id => on_connected callback client_id s
  | OnConnecting => on_connecting s
  | OnClosed fresh => on_closed fresh s
  | CallOnConnection callback => onConnection callback s
  | CallConnect fresh callback => _connect fresh callback s
  | CallClose callback => snd (close callback s)
  end.

Definition run (evs : list event) (s : ZkCxn) : ZkCxn := fold_left step evs s.

(** The calls of [originalCallback] made through the wrapper of gate [g]. *)
Definition calls_via (g : nat) (s : ZkCxn) : list invocation :=
  filter (λ i, via i = Some g) (invoked s).

(** The watch table after the registrations [regs], oldest first. *)
Definition register_all (regs : list (string * fn))
    (watching : gmap string (list fn)) : gmap string (list fn) :=
  fold_left (λ w reg, watching_push (fst reg) (snd reg) w) regs watching.

(** The callbacks registered for [path] among [regs], oldest first. *)
Definition registered_for (path : string) (regs : list (string * fn)) : list fn :=
  (filter (λ reg, fst reg = path) regs).*2.

(** A sequence of [getCxn] calls; returns what each of them handed back
    or raised. *)
Fixpoint getCxns (reqs : list (list string * option Z)) (p : process)
    : list (exception + nat) * process :=
  match reqs with
  | [] => ([], p)
  | req :: reqs' =>
      let '(cxn, p) := getCxn (fst req) (snd req) p in
      let '(cxns, p) := getCxns reqs' p in
      (cxn :: cxns, p)
  end.

(** The call log after the first [j] of [paths] have been created. *)
Definition created_log (paths : list string) (value : string) (flags : Z)
    (calls : list call) (j : nat) : list call :=
  rev (map (λ p, a_create p value flags) (take j paths)) ++ calls.

(** A creation result that [_create] passes as success. *)
Definition create_ok (r : reply) : bool :=
  (rc r =? ZOK)%Z || (rc r =? ZNODEEXISTS)%Z.

(** A path that begins with the separator. *)
Definition rooted (path : string) : Prop :=
  match path with String "/" _ => True | _ => False end.

(** The non-empty segments of a path. *)
Definition segments (path : string) : list string :=
  filter (λ i, Js.truthy i = true) (Js.split slash path).

(** The listing call the iterator of [negotiateLock] issues for [name]. *)
Definition listing_call (name : string) : call :=
  let lockpath := lockpath_of name in
  a_get_children
    (if (1 <? String.length lockpath)%nat && String.eqb (Js.slice_last lockpath) "/"
     then Js.slice_drop_last lockpath else lockpath) false.

(* ===================================================================== *)
(** ** Stores and sessions used in examples *)
(* ===================================================================== *)

(** A store that creates what it is asked to, numbering sequential nodes
    [0000000002], and lists [listing] under every parent. *)
Definition listing_store (listing : list string) : store :=
  λ calls,
    match calls with
    | a_create path _ flags :: _ =>
        Reply ZOK "" (if (flags =? 3)%Z then path +:+ "0000000002" else path) []
    | a_get_children _ _ :: _ => Reply ZOK "" "" listing
    | _ => Reply ZOK "" "" []
    end.

(** A store whose listing call fails with connection loss. *)
Definition failing_listing_store : store :=
  λ calls,
    match calls with
    | a_create path _ flags :: _ =>
        Reply ZOK "" (if (flags =? 3)%Z then path +:+ "0000000002" else path) []
    | a_get_children _ _ :: _ => Reply (-4) "connection loss" "" []
    | _ => Reply ZOK "" "" []
    end.

(** A store in which [/a] exists already and creating [/a/b] is refused. *)
Definition refusing_store : store :=
  λ calls,
    match calls with
    | a_create "/a" _ _ :: _ => Reply ZNODEEXISTS "node exists" "" []
    | a_create "/a/b" _ _ :: _ => Reply (-102) "no auth" "" []
    | a_delete_ _ _ :: _ => Reply (-4) "connection loss" "" []
    | _ => Reply ZOK "" "" []
    end.

(** A store in which [tree0000000001] is held by another session until
    the first listing has been answered: the first listing shows both
    nodes, later ones only [tree0000000002]. *)
Definition released_store : store :=
  λ calls,
    match calls with
    | a_create path _ flags :: _ =>
        Reply ZOK "" (if (flags =? 3)%Z then path +:+ "0000000002" else path) []
    | a_get_children _ _ :: earlier =>
        if existsb (λ c, match c with a_get_children _ _ => true | _ => false end) earlier
        then Reply ZOK "" "" ["tree0000000002"]
        else Reply ZOK "" "" ["tree0000000002"; "tree0000000001"]
    | _ => Reply ZOK "" "" []
    end.

(** A session as [getCxn] leaves it, and the same once connected. *)
Definition connecting_cxn : ZkCxn :=
  _connect 0 Noop (new_ZkCxn "127.0.0.1:2181" 8000).

Definition connected_cxn : ZkCxn :=
  on_connected Noop 7 connecting_cxn.

(** A connected session holding the lock [/plumber/wrench]. *)
Definition holding_cxn : ZkCxn :=
  set_locks {[ "/plumber/wrench" := "/plumber/wrench0000000002" ]} connected_cxn.

(** The first error in a sequence of callback arguments. *)
Definition first_error (errs : list (option jserror)) : option jserror :=
  head (omap id errs).

(** [async.forEach] after the callbacks [errs] have arrived, in order. *)
Definition forEach_after (errs : list (option jserror)) (st : Async.forEach_state)
    : Async.forEach_state :=
  fold_left (λ st err, Async.forEach_done err st) errs st.

(** A session that is either CLOSED or owns a native handle, as every
    session is between two handlers: [_connect] makes the handle when it
    leaves CLOSED, and [on_closed] reconnects unless the state is CLOSED. *)
Definition has_handle_unless_closed (s : ZkCxn) : Prop :=
  _cxnState s = CLOSED ∨ is_Some (_zk s).

(** Is the object [c] of [objs] a session in state CLOSED? *)
Definition is_closed (objs : list ZkCxn) (c : nat) : bool :=
  match objs !! c with
  | Some s => cxnStates_eqb (_cxnState s) CLOSED
  | None => false
  end.

(** A process whose table names existing objects, each of them CLOSED or
    with a handle. *)
Definition registry_ok (p : process) : Prop :=
  (∀ urls c, Js.own_get (cxns p) urls = Some c → c < length (objects p)) ∧
  Forall has_handle_unless_closed (objects p).

(** A process after two [getCxn] calls for different endpoint sets. *)
Definition two_cxns : process :=
  snd (getCxn ["10.0.0.1:2181"; "10.0.0.2:2181"] (Some 500%Z)
         (snd (getCxn ["127.0.0.1:2181"] None (Process [] [] 0)))).

(** A process whose one registered session was connected, then closed by
    its user with [cxn.close], and whose handle has since reported
    closed: the session is CLOSED and has no handle. *)
Definition closed_registered : process :=
  let p := snd (getCxn ["127.0.0.1:2181"] None (Process [] [] 0)) in
  Process (cxns p)
          (alter (run [OnConnected Noop 7; CallClose (Caller 1); OnClosed 1]) 0 (objects p))
          (handles p).

(** Every call made through a wrapper names a gate that exists. *)
Definition log_wf (s : ZkCxn) : Prop :=
  Forall (λ i, ∀ g, via i = Some g → g < length (gates s)) (invoked s).

(** Gate [g] holds [callback], which has not been called through it, and
    its timer is pending. *)
Definition gate_pending (g : nat) (callback : fn) (s : ZkCxn) : Prop :=
  gates s !! g = Some (Gate callback false true) ∧ calls_via g s = [].

(** Gate [g] holds [callback], which has been called through it exactly
    once, and its timer is cleared or spent. *)
Definition gate_resolved (g : nat) (callback : fn) (s : ZkCxn) : Prop :=
  gates s !! g = Some (Gate callback true false) ∧
  ∃ err, calls_via g s = [Invocation (Some g) callback err].

(** The trace of invocations only grows. *)
Definition grows (s s' : ZkCxn) : Prop := invoked s `prefix_of` invoked s'.

(** The invariant of a session, with or without a gate singled out. *)
Definition tracked (og : option (nat * fn)) (s : ZkCxn) : Prop :=
  match og with
  | None => True
  | Some (g, callback) => gate_pending g callback s ∨ gate_resolved g callback s
  end.

Definition good (og : option (nat * fn)) (s : ZkCxn) : Prop :=
  log_wf s ∧ tracked og s.

(* ===================================================================== *)
(** ** Vocabulary of the further properties *)
(* ===================================================================== *)

(** [calls'] is [calls] with further calls issued, none of them a
    deletion. *)
Definition adds_no_delete (calls calls' : list call) : Prop :=
  ∃ new, calls' = new ++ calls ∧
         Forall (λ c, match c with
                      | a_delete_ _ _ | a_delete_member _ _ => False
                      | _ => True
                      end) new.

(** A string without the separator. *)
Definition slash_free (s : string) : Prop := Js.lastIndexOf slash s = (-1)%Z.

(** The fields of a session that no connection event writes. *)
Definition same_tables (s s' : ZkCxn) : Prop :=
  _urls s' = _urls s ∧ _timeout s' = _timeout s ∧
  _locks s' = _locks s ∧ _watching s' = _watching s.

(** The wrapper of gate [g] is not registered on the emitter. *)
Definition off_emitter (g : nat) (s : ZkCxn) : Prop :=
  ∀ listeners, _stateEmitter s = Some listeners → g ∉ listeners.*2.

(** Gate [g] waits with its wrapper off the emitter. *)
Definition orphaned (g : nat) (callback : fn) (s : ZkCxn) : Prop :=
  gate_pending g callback s ∧ off_emitter g s.

(** Every registration on the emitter is for CONNECTED or for ERROR. *)
Definition listeners_ok (s : ZkCxn) : Prop :=
  ∀ listeners, _stateEmitter s = Some listeners →
    Forall (λ l, fst l = CONNECTED ∨ fst l = ERROR) listeners.

(* ===================================================================== *)
(** * Properties *)
(* ===================================================================== *)

(** ** The default sort *)

Module SortFacts.

Lemma compare_refl s : String.compare s s = Eq.
Proof.
  induction s as [|c s IH]; simpl; [done|].
  unfold Ascii.compare. by rewrite N.compare_refl.
Qed.

Lemma compare_lt_trans s1 : ∀ s2 s3,
  String.compare s1 s2 = Lt → String.compare s2 s3 = Lt → String.compare s1 s3 = Lt.
Proof.
  induction s1 as [|a s1 IH]; intros [|b s2] [|c s3]; simpl; try done.
  unfold Ascii.compare.
  destruct (N.compare_spec (N_of_ascii a) (N_of_ascii b)) as [Hab|Hab|Hab]; try done;
    destruct (N.compare_spec (N_of_ascii b) (N_of_ascii c)) as [Hbc|Hbc|Hbc]; try done;
    intros H1 H2.
  - rewrite Hab, Hbc, N.compare_refl. eauto.
  - rewrite Hab. by apply N.compare_lt_iff in Hbc as ->.
  - rewrite <- Hbc. by apply N.compare_lt_iff in Hab as ->.
  - assert (N_of_ascii a < N_of_ascii c)%N as Hac by lia.
    by apply N.compare_lt_iff in Hac as ->.
Qed.

Lemma sort_le_trans a b c :
  Js.sort_le a b = true → Js.sort_le b c = true → Js.sort_le a c = true.
Proof.
  unfold Js.sort_le, String.leb.
  destruct (String.compare a b) eqn:Hab; try done;
    destruct (String.compare b c) eqn:Hbc; try done; intros _ _.
  - apply String.compare_eq_iff in Hab as ->. by rewrite Hbc.
  - apply String.compare_eq_iff in Hab as ->. by rewrite Hbc.
  - apply String.compare_eq_iff in Hbc as <-. by rewrite Hab.
  - by rewrite (compare_lt_trans _ _ _ Hab Hbc).
Qed.

Lemma sort_le_total a b : Js.sort_le a b = false → Js.sort_le b a = true.
Proof.
  intros H. destruct (String.leb_total a b) as [H'|H']; [|done].
  unfold Js.sort_le in H. congruence.
Qed.

Lemma sort_insert_perm x l : Permutation (x :: l) (Js.sort_insert x l).
Proof.
  induction l as [|y l IH]; simpl; [done|].
  destruct (Js.sort_le x y); [done|].
  rewrite perm_swap. by constructor.
Qed.

Lemma sort_perm l : Permutation l (Js.sort l).
Proof.
  induction l as [|x l IH]; simpl; [done|].
  rewrite <- sort_insert_perm. by constructor.
Qed.

Lemma sort_insert_sorted x l :
  StronglySorted (λ a b, Js.sort_le a b = true) l →
  StronglySorted (λ a b, Js.sort_le a b = true) (Js.sort_insert x l).
Proof.
  induction 1 as [|y l Hl IH Hy]; simpl.
  - repeat constructor.
  - destruct (Js.sort_le x y) eqn:Hxy.
    + constructor; [by constructor|].
      constructor; [done|].
      eapply Forall_impl; [exact Hy|]. intros z Hz. by eapply sort_le_trans.
    + constructor; [done|].
      rewrite <- sort_insert_perm. constructor; [|done].
      by apply sort_le_total.
Qed.

Lemma sort_sorted l : StronglySorted (λ a b, Js.sort_le a b = true) (Js.sort l).
Proof.
  induction l as [|x l IH]; simpl; [constructor|]. by apply sort_insert_sorted.
Qed.

(** Two sorted arrangements of the same elements are equal: the result of
    [sort] does not depend on the algorithm. *)
Lemma sorted_perm_eq l1 : ∀ l2,
  StronglySorted (λ a b, Js.sort_le a b = true) l1 →
  StronglySorted (λ a b, Js.sort_le a b = true) l2 →
  Permutation l1 l2 → l1 = l2.
Proof.
  induction l1 as [|x l1 IH]; intros l2 H1 H2 Hp.
  - by apply Permutation_nil in Hp.
  - destruct l2 as [|y l2]; [by apply Permutation_sym, Permutation_nil in Hp|].
    apply StronglySorted_inv in H1 as [H1 Hx], H2 as [H2 Hy].
    assert (x = y) as ->.
    { assert (x ∈ y :: l2) as Hxin by (rewrite <- Hp; left).
      assert (y ∈ x :: l1) as Hyin by (rewrite Hp; left).
      apply elem_of_cons in Hxin as [->|Hxin]; [done|].
      apply elem_of_cons in Hyin as [->|Hyin]; [done|].
      rewrite Forall_forall in Hx, Hy.
      apply String.leb_antisym; [apply Hx|apply Hy]; done. }
    f_equal. apply IH; [done..|]. by apply Permutation_cons_inv in Hp.
Qed.

Lemma sort_unique l l' :
  Permutation l l' → StronglySorted (λ a b, Js.sort_le a b = true) l' → Js.sort l = l'.
Proof.
  intros Hp Hs. apply sorted_perm_eq; [apply sort_sorted|done|].
  by rewrite <- sort_perm.
Qed.

End SortFacts.

(** ** Binary search of underscore *)

Module UnderscoreFacts.

Lemma mid_bounds low high : low < high → low ≤ (low + high) / 2 < high.
Proof.
  intros H. split.
  - apply Nat.div_le_lower_bound; lia.
  - apply Nat.Div0.div_lt_upper_bound; lia.
Qed.

(** The loop of [_.sortedIndex] ends within [high - low] turns: more fuel
    does not change its result. *)
Lemma sortedIndex_loop_fuel array value : ∀ fuel1 fuel2 low high,
  high - low ≤ fuel1 → high - low ≤ fuel2 →
  Underscore.sortedIndex_loop fuel1 array value low high
  = Underscore.sortedIndex_loop fuel2 array value low high.
Proof.
  induction fuel1 as [|fuel1 IH]; intros fuel2 low high H1 H2.
  - destruct fuel2 as [|fuel2]; [done|]. cbn [Underscore.sortedIndex_loop].
    destruct (Nat.ltb_spec low high); [lia|done].
  - cbn [Underscore.sortedIndex_loop].
    destruct (Nat.ltb_spec low high) as [Hlt|Hge].
    + destruct fuel2 as [|fuel2]; [lia|]. cbn [Underscore.sortedIndex_loop].
      destruct (Nat.ltb_spec low high); [|lia].
      pose proof (mid_bounds low high Hlt).
      destruct (String.ltb _ value); apply IH; lia.
    + destruct fuel2 as [|fuel2]; [done|]. cbn [Underscore.sortedIndex_loop].
      destruct (Nat.ltb_spec low high); [lia|done].
Qed.

Lemma leb_ltb_trans a b c :
  Js.sort_le a b = true → String.ltb b c = true → String.ltb a c = true.
Proof.
  unfold Js.sort_le, String.leb, String.ltb.
  destruct (String.compare a b) eqn:Hab; [|  |done]; intros _;
    destruct (String.compare b c) eqn:Hbc; try done; intros _.
  - apply String.compare_eq_iff in Hab as ->. by rewrite Hbc.
  - by rewrite (SortFacts.compare_lt_trans _ _ _ Hab Hbc).
Qed.

Lemma sorted_nth array :
  StronglySorted (λ a b, Js.sort_le a b = true) array →
  ∀ i j, i ≤ j → j < length array →
         Js.sort_le (nth i array EmptyString) (nth j array EmptyString) = true.
Proof.
  induction 1 as [|x l Hl IH Hx]; intros i j Hij Hj; [simpl in Hj; lia|].
  destruct i as [|i], j as [|j]; cbn [nth]; simpl in Hj.
  - unfold Js.sort_le, String.leb. by rewrite SortFacts.compare_refl.
  - rewrite Forall_forall in Hx. apply Hx. apply list_elem_of_In, nth_In. lia.
  - lia.
  - apply IH; lia.
Qed.

(** On a sorted array the loop returns the first index whose element is
    not below [value]. *)
Lemma sortedIndex_loop_spec array value :
  StronglySorted (λ a b, Js.sort_le a b = true) array →
  ∀ fuel low high,
  high - low ≤ fuel → low ≤ high → high ≤ length array →
  (∀ i, i < low → String.ltb (nth i array EmptyString) value = true) →
  (∀ i, high ≤ i → i < length array → String.ltb (nth i array EmptyString) value = false) →
  let r := Underscore.sortedIndex_loop fuel array value low high in
  r ≤ length array ∧
  (∀ i, i < r → String.ltb (nth i array EmptyString) value = true) ∧
  (∀ i, r ≤ i → i < length array → String.ltb (nth i array EmptyString) value = false).
Proof.
  intros Hsorted.
  induction fuel as [|fuel IH]; intros low high Hf Hle Hlen Hlow Hhigh; cbn zeta.
  - cbn [Underscore.sortedIndex_loop]. assert (low = high) as -> by lia. eauto.
  - cbn [Underscore.sortedIndex_loop].
    destruct (Nat.ltb_spec low high) as [Hlt|Hge].
    2: { assert (low = high) as -> by lia. eauto. }
    pose proof (mid_bounds low high Hlt) as Hmid.
    destruct (String.ltb (nth ((low + high) / 2) array EmptyString) value) eqn:Hcmp.
    + apply IH; try lia; [|done].
      intros i Hi. eapply leb_ltb_trans; [|exact Hcmp].
      apply sorted_nth; [done|lia|lia].
    + apply IH; try lia; [done|].
      intros i Hi Hilen.
      destruct (String.ltb (nth i array EmptyString) value) eqn:Hi'; [|done].
      rewrite <- Hcmp. symmetry. eapply leb_ltb_trans; [|exact Hi'].
      apply sorted_nth; [done|lia|lia].
Qed.

(** [_.indexOf(array, item, true)] on a sorted array that holds [item]:
    the index of its first occurrence, every element before it being
    strictly below [item]. *)
Lemma indexOf_sorted_present array item :
  StronglySorted (λ a b, Js.sort_le a b = true) array → item ∈ array →
  ∃ i, Underscore.indexOf_sorted array item = Z.of_nat i ∧
       array !! i = Some item ∧
       ∀ j, j < i → String.ltb (nth j array EmptyString) item = true.
Proof.
  intros Hsorted Hin.
  destruct (sortedIndex_loop_spec array item Hsorted (length array) 0 (length array))
    as (Hr & Hbelow & Habove); [lia|lia|lia|intros; lia|intros; lia|].
  fold (Underscore.sortedIndex array item) in *.
  set (r := Underscore.sortedIndex array item) in *.
  apply list_elem_of_lookup in Hin as [j Hj].
  pose proof (lookup_lt_Some _ _ _ Hj) as Hjlen.
  assert (nth j array EmptyString = item) as Hnj.
  { apply nth_lookup_Some with (d := EmptyString) in Hj. done. }
  assert (String.ltb item item = false) as Hirr.
  { unfold String.ltb. by rewrite SortFacts.compare_refl. }
  assert (r ≤ j) as Hrj.
  { destruct (decide (r ≤ j)); [done|]. specialize (Hbelow j ltac:(lia)). congruence. }
  assert (nth r array EmptyString = item) as Hnr.
  { apply String.leb_antisym.
    - pose proof (sorted_nth array Hsorted r j Hrj Hjlen) as Hle.
      rewrite Hnj in Hle. exact Hle.
    - specialize (Habove r ltac:(lia) ltac:(lia)).
      unfold String.ltb in Habove. unfold String.leb.
      rewrite String.compare_antisym.
      by destruct (String.compare (nth r array EmptyString) item). }
  assert (array !! r = Some item) as Hlr.
  { destruct (nth_lookup_or_length array r EmptyString) as [Hl|Hl]; [|lia].
    by rewrite Hl, Hnr. }
  exists r. unfold Underscore.indexOf_sorted. fold r. rewrite Hlr.
  by rewrite String.eqb_refl.
Qed.

End UnderscoreFacts.

(** ** Rank computation of the negotiation loop *)

Module RankFacts.

Lemma is_digit_value c : is_digit c = true → (N_of_ascii c - 48 ≤ 9)%N ∧ (48 ≤ N_of_ascii c)%N.
Proof.
  unfold is_digit. rewrite andb_true_iff, !N.leb_le. lia.
Qed.

Lemma seqnum_bound s :
  is_digits s = true → (seqnum s < 10 ^ N.of_nat (String.length s))%N.
Proof.
  induction s as [|c s IH]; simpl is_digits; [intros _; simpl; lia|].
  rewrite andb_true_iff. intros [Hc Hs].
  apply is_digit_value in Hc as [Hc _]. specialize (IH Hs).
  cbn [seqnum String.length]. rewrite Nat2N.inj_succ, N.pow_succ_r'.
  nia.
Qed.

(** On digit strings of one width the order of the code units is the
    order of the numbers. *)
Lemma compare_seqnum a : ∀ b,
  is_digits a = true → is_digits b = true → String.length a = String.length b →
  String.compare a b = N.compare (seqnum a) (seqnum b).
Proof.
  induction a as [|c a IH]; intros [|d b]; simpl is_digits; simpl String.length; try done.
  rewrite !andb_true_iff. intros [Hc Ha] [Hd Hb] Hlen.
  injection Hlen as Hlen.
  pose proof (seqnum_bound a Ha) as Hba. pose proof (seqnum_bound b Hb) as Hbb.
  apply is_digit_value in Hc as [Hc Hc'], Hd as [Hd Hd'].
  cbn [String.compare seqnum]. unfold Ascii.compare.
  rewrite <- Hlen in *.
  set (k := (10 ^ N.of_nat (String.length a))%N) in *.
  destruct (N.compare_spec (N_of_ascii c) (N_of_ascii d)) as [Heq|Hlt|Hgt].
  - rewrite (IH b Ha Hb Hlen), Heq.
    destruct (N.compare_spec (seqnum a) (seqnum b)); symmetry.
    + apply N.compare_eq_iff. lia.
    + apply N.compare_lt_iff. lia.
    + apply N.compare_gt_iff. lia.
  - symmetry. apply N.compare_lt_iff. nia.
  - symmetry. apply N.compare_gt_iff. nia.
Qed.

Lemma sort_le_seqnum width a b :
  fixed_width width a → fixed_width width b →
  Js.sort_le a b = true → (seqnum a ≤ seqnum b)%N.
Proof.
  intros [Ha Hla] [Hb Hlb]. unfold Js.sort_le, String.leb.
  rewrite (compare_seqnum a b Ha Hb) by congruence.
  destruct (N.compare_spec (seqnum a) (seqnum b)); [lia|lia|done].
Qed.

Lemma seqnum_inj width a b :
  fixed_width width a → fixed_width width b → seqnum a = seqnum b → a = b.
Proof.
  intros [Ha Hla] [Hb Hlb] Heq. apply String.compare_eq_iff.
  rewrite (compare_seqnum a b Ha Hb) by congruence.
  by apply N.compare_eq_iff.
Qed.

Lemma sorted_numeric width l :
  Forall (fixed_width width) l →
  StronglySorted (λ a b, Js.sort_le a b = true) l → numeric_ascending l.
Proof.
  unfold numeric_ascending. intros Hw Hs.
  induction Hs as [|x l Hs IH Hx]; simpl; constructor.
  - apply IH. by apply Forall_inv_tail in Hw.
  - apply Forall_cons in Hw as [Hwx Hwl].
    rewrite Forall_forall in Hx, Hwl. apply List.Forall_forall.
    intros n Hn. apply in_map_iff in Hn as (y & <- & Hy).
    apply list_elem_of_In in Hy. eapply sort_le_seqnum; eauto.
Qed.

Lemma sequenceNumbers_sort lockname children :
  sequenceNumbers_of lockname children = Js.sort (suffixes_of lockname children).
Proof. reflexivity. Qed.

(** C1 (as the code has it). When the suffixes of the siblings are decimal
    digit strings of one common width, as the store produces them, the
    sorted list [sequenceNumbers] of the negotiation loop is a
    rearrangement of the suffixes that ascends in numeric value, and a
    node whose suffix is among them is ranked lowest exactly when its
    sequence number is the smallest. *)
Theorem sequenceNumbers_fixed_width_numeric lockpath lockname node children width :
  Forall (fixed_width width) (suffixes_of lockname children) →
  let position := Js.slice_from (String.length lockpath + String.length lockname) node in
  position ∈ suffixes_of lockname children →
  Permutation (suffixes_of lockname children) (sequenceNumbers_of lockname children) ∧
  numeric_ascending (sequenceNumbers_of lockname children) ∧
  (rank lockpath lockname node children = Lowest ↔
   ∀ s, s ∈ suffixes_of lockname children → (seqnum position ≤ seqnum s)%N).
Proof.
  intros Hw position Hpos. rewrite sequenceNumbers_sort.
  pose proof (SortFacts.sort_perm (suffixes_of lockname children)) as Hperm.
  pose proof (SortFacts.sort_sorted (suffixes_of lockname children)) as Hsorted.
  assert (Forall (fixed_width width) (Js.sort (suffixes_of lockname children))) as Hw'
    by (by rewrite <- Hperm).
  split; [done|]. split; [by eapply sorted_numeric|].
  unfold rank. fold position. rewrite sequenceNumbers_sort.
  destruct (Js.sort (suffixes_of lockname children)) as [|h t] eqn:Hsort.
  { apply Permutation_sym, Permutation_nil in Hperm. rewrite Hperm in Hpos.
    by apply elem_of_nil in Hpos. }
  cbn [head]. apply StronglySorted_inv in Hsorted as [_ Hh].
  apply Forall_cons in Hw' as [Hwh Hwt].
  assert (∀ s, s ∈ suffixes_of lockname children → (seqnum h ≤ seqnum s)%N) as Hmin.
  { intros s Hs. rewrite Hperm in Hs. apply elem_of_cons in Hs as [->|Hs]; [lia|].
    rewrite Forall_forall in Hh, Hwt. eapply sort_le_seqnum; eauto. }
  case_bool_decide as Heq.
  - split; [|done]. intros _ s Hs. injection Heq as ->. by apply Hmin.
  - split.
    + intros Hl. exfalso. destruct (Js.array_get _ _) as [n|]; [|done].
      by destruct (Js.truthy n).
    + intros Hle. exfalso. apply Heq. f_equal.
      rewrite Forall_forall in Hw.
      apply (seqnum_inj width); [by apply Hw|done|].
      assert (h ∈ suffixes_of lockname children) as Hhin by (rewrite Hperm; left).
      specialize (Hle h Hhin). specialize (Hmin position Hpos). lia.
Qed.

Lemma sequenceNumbers_fixed_width_numeric_witness :
  let children := ["wrench0000000012"; "pliers0000000003"; "wrench0000000007"] in
  Permutation (suffixes_of "wrench" children) (sequenceNumbers_of "wrench" children) ∧
  numeric_ascending (sequenceNumbers_of "wrench" children) ∧
  (rank "/plumber/" "wrench" "/plumber/wrench0000000007" children = Lowest ↔
   ∀ s, s ∈ suffixes_of "wrench" children → (seqnum "0000000007" ≤ seqnum s)%N).
Proof.
  intros children.
  apply (sequenceNumbers_fixed_width_numeric "/plumber/" "wrench"
           "/plumber/wrench0000000007" children 10).
  - repeat constructor.
  - right. left.
Defined.

(** A node whose suffix is listed and is not the lowest waits for the node
    whose suffix stands just before the first occurrence of its own in the
    sorted list, a suffix strictly below its own. *)
Lemma rank_present lockpath lockname node children :
  let position := Js.slice_from (String.length lockpath + String.length lockname) node in
  let sequenceNumbers := sequenceNumbers_of lockname children in
  position ∈ sequenceNumbers → head sequenceNumbers ≠ Some position →
  ∃ i nextLowest,
    sequenceNumbers !! S i = Some position ∧
    sequenceNumbers !! i = Some nextLowest ∧
    String.ltb nextLowest position = true ∧
    rank lockpath lockname node children
    = if Js.truthy nextLowest then After (lockpath +:+ lockname +:+ nextLowest) else Neither.
Proof.
  intros position sequenceNumbers Hin Hhead.
  destruct (UnderscoreFacts.indexOf_sorted_present sequenceNumbers position
              (SortFacts.sort_sorted _) Hin) as (i & Hidx & Hi & Hbelow).
  destruct i as [|i].
  { exfalso. apply Hhead. by destruct sequenceNumbers. }
  pose proof (lookup_lt_Some _ _ _ Hi) as Hlen.
  destruct (sequenceNumbers !! i) as [nextLowest|] eqn:Hpred.
  2: { apply lookup_ge_None in Hpred. lia. }
  exists i, nextLowest. split; [done|]. split; [done|]. split.
  { rewrite <- (nth_lookup_Some _ _ EmptyString _ Hpred). apply Hbelow. lia. }
  unfold rank. fold position. fold sequenceNumbers.
  rewrite bool_decide_eq_false_2 by congruence.
  rewrite Hidx. unfold Js.array_get.
  destruct (Z.ltb_spec (Z.of_nat (S i) - 1) 0); [lia|].
  replace (Z.to_nat (Z.of_nat (S i) - 1)) with i by lia.
  by rewrite Hpred.
Qed.

(** C1 (as stated) fails. With the suffixes 9 and 10 the loop sorts 10
    before 9: the list does not ascend numerically, and the node holding
    the smaller number is told to wait for the larger one. *)
Lemma sequenceNumbers_mixed_width_misordered :
  let children := ["lock9"; "lock10"] in
  Forall (λ s, is_digits s = true) (suffixes_of "lock" children) ∧
  sequenceNumbers_of "lock" children = ["10"; "9"] ∧
  ¬ numeric_ascending (sequenceNumbers_of "lock" children) ∧
  rank "/locks/" "lock" "/locks/lock9" children = After "/locks/lock10" ∧
  rank "/locks/" "lock" "/locks/lock10" children = Lowest.
Proof.
  split; [repeat constructor|]. split; [reflexivity|].
  split; [|split; reflexivity].
  intros H. change (StronglySorted N.le [10%N; 9%N]) in H.
  apply StronglySorted_inv in H as [_ H]. apply Forall_inv in H. lia.
Qed.

End RankFacts.

(** ** One turn of the negotiation loop *)

Module NegotiateFacts.

Lemma head_elem_of {A} (x : A) l : Some x = head l → x ∈ l.
Proof. destruct l; simpl; [done|]. intros [= <-]. left. Qed.

Lemma indexOf_sorted_absent array item :
  item ∉ array → Underscore.indexOf_sorted array item = (-1)%Z.
Proof.
  intros Hno. unfold Underscore.indexOf_sorted.
  destruct (array !! _) as [x|] eqn:Hnth; [|done].
  destruct (String.eqb_spec x item) as [->|]; [|done].
  exfalso. apply Hno. by eapply list_elem_of_lookup_2.
Qed.

(** When the suffix of the created node is not among the sorted suffixes,
    neither branch of the iterator is taken. *)
Lemma rank_absent lockpath lockname node children :
  (Js.slice_from (String.length lockpath + String.length lockname) node)
    ∉ sequenceNumbers_of lockname children →
  rank lockpath lockname node children = Neither.
Proof.
  intros Hno. unfold rank.
  case_bool_decide as Hhd; [by apply head_elem_of in Hhd|].
  by rewrite (indexOf_sorted_absent _ _ Hno).
Qed.

(** With the own suffix missing from a listing, the iterator returns
    without calling its callback and without queueing it, and the loop
    never takes another turn. *)
Lemma negotiate_absent_suffix_returns fuel zk name node callback s calls :
  let r := zk (listing_call name :: calls) in
  rc r = ZOK →
  (Js.slice_from (String.length (lockpath_of name) + String.length (lockname_of name)) node)
    ∉ sequenceNumbers_of (lockname_of name) (children r) →
  negotiate_iterator zk name node callback (s, calls)
    = (Returned, (s, listing_call name :: calls)) ∧
  negotiateLock (S fuel) zk name node callback (s, calls)
    = (Silent, (s, listing_call name :: calls)).
Proof.
  intros r Hrc Hno.
  assert (negotiate_iterator zk name node callback (s, calls)
          = (Returned, (s, listing_call name :: calls))) as Hit.
  { unfold negotiate_iterator, _getChildren, issue. fold (listing_call name). fold r.
    rewrite Hrc. cbn [negb Z.eqb ZOK snd]. by rewrite (rank_absent _ _ _ _ Hno). }
  split; [done|]. cbn [negotiateLock]. by rewrite Hit.
Qed.

(** C2 at a concrete listing: the session created [lock0000000002], the
    listing shows only [lock0000000001] and [lock0000000003]. The iterator
    returns with the callback neither called nor queued, so [lock] ends
    silent: its callback will never be called and the listing is not run
    again. *)
Theorem negotiate_absent_suffix_goes_silent :
  let zk := listing_store ["lock0000000001"; "lock0000000003"] in
  ("0000000002" ∉ sequenceNumbers_of "lock" ["lock0000000001"; "lock0000000003"]) ∧
  fst (negotiate_iterator zk "/locks/lock" "/locks/lock0000000002" (Caller 0)
         (connected_cxn, [])) = Returned ∧
  fst (lock 5 zk "/locks/lock" "payload" (Caller 0) (connected_cxn, [])) = Silent ∧
  snd (snd (lock 5 zk "/locks/lock" "payload" (Caller 0) (connected_cxn, [])))
    = [a_get_children "/locks" false; a_create "/locks/lock" "payload" 3;
       a_create "/locks" "payload" 0].
Proof.
  split; [|by vm_compute].
  intros H. vm_compute in H.
  apply elem_of_cons in H as [H|H]; [done|].
  apply elem_of_cons in H as [H|H]; [done|].
  by apply elem_of_nil in H.
Qed.

(** A listing that fails leaves [children] undefined, and the function
    handed to [_getChildren] raises on [children.filter] without looking
    at [err]. *)
Lemma negotiate_listing_error_raises fuel zk name node callback s calls :
  rc (zk (listing_call name :: calls)) ≠ ZOK →
  ∃ e, negotiate_iterator zk name node callback (s, calls)
         = (Raised e, (s, listing_call name :: calls)) ∧
       negotiateLock (S fuel) zk name node callback (s, calls)
         = (Threw e, (s, listing_call name :: calls)).
Proof.
  intros Hrc. eexists.
  assert (negotiate_iterator zk name node callback (s, calls)
          = (Raised (TypeError "Cannot call method 'filter' of undefined"),
             (s, listing_call name :: calls))) as Hit.
  { unfold negotiate_iterator, _getChildren, issue. fold (listing_call name).
    apply Z.eqb_neq in Hrc. by rewrite Hrc. }
  split; [exact Hit|]. cbn [negotiateLock]. by rewrite Hit.
Qed.

(** C3 at a concrete store: the listing call answers with a connection
    loss. [lock] ends with a [TypeError] raised inside the callback of the
    binding; the error of the store reaches no callback. *)
Theorem lock_listing_error_throws :
  fst (lock 5 failing_listing_store "/Stumptown/coffee" "the best coffee" (Caller 0)
         (connected_cxn, []))
  = Threw (TypeError "Cannot call method 'filter' of undefined") ∧
  rc (failing_listing_store [a_get_children "/Stumptown" false]) = (-4)%Z.
Proof. by vm_compute. Qed.

(** The loop on its two ordinary paths. Alone in the listing, the session
    is lowest at the first turn and records the node. Behind
    [tree0000000001], it checks that node, queues its continuation for it
    and stops; run again after the node is gone, it is lowest and records
    its own node. *)
Example lock_uncontended :
  let w := lock 5 (listing_store ["tree0000000002"]) "/plum/tree" "plums" (Caller 0)
             (connected_cxn, []) in
  fst w = Called None None ∧
  _locks (fst (snd w)) !! "/plum/tree" = Some "/plum/tree0000000002".
Proof. by vm_compute. Qed.

Example lock_waits_for_predecessor :
  let w := lock 5 released_store "/plum/tree" "birds" (Caller 0) (connected_cxn, []) in
  let w' := negotiateLock 5 released_store "/plum/tree" "/plum/tree0000000002" (Caller 0)
              (snd w) in
  fst w = Parked "/plum/tree0000000001" ∧
  _watching (fst (snd w)) !! "/plum/tree0000000001"
    = Some [UntilNext "/plum/tree" "/plum/tree0000000002" (Caller 0)] ∧
  _locks (fst (snd w)) !! "/plum/tree" = None ∧
  fst w' = Called None None ∧
  _locks (fst (snd w')) !! "/plum/tree" = Some "/plum/tree0000000002".
Proof. by vm_compute. Qed.

End NegotiateFacts.

(** ** lock on a path without a separator *)

Module LockFacts.

Lemma lastIndexOf_from_range c s : ∀ i,
  Js.lastIndexOf_from i c s = (-1)%Z ∨ (i ≤ Js.lastIndexOf_from i c s)%Z.
Proof.
  induction s as [|a s IH]; intros i; simpl; [by left|].
  destruct (IH (i + 1)%Z) as [->|Hle].
  - simpl. destruct (Ascii.eqb a c); [right; lia|by left].
  - destruct (Z.eqb_spec (Js.lastIndexOf_from (i + 1) c s) (-1)) as [Heq|Hne]; [|right; lia].
    destruct (Ascii.eqb a c); [right; lia|by left].
Qed.

Lemma no_separator_not_rooted name :
  Js.lastIndexOf slash name = (-1)%Z →
  match name with String "/" _ => False | _ => True end.
Proof.
  destruct name as [|a name]; [done|].
  destruct (Ascii.eqb_spec a slash) as [->|Hne].
  - unfold Js.lastIndexOf. cbn [Js.lastIndexOf_from]. intros H.
    pose proof (lastIndexOf_from_range slash name (0 + 1)) as Hr.
    destruct (Js.lastIndexOf_from (0 + 1) slash name =? -1)%Z eqn:Hl.
    + rewrite Ascii.eqb_refl in H. lia.
    + apply Z.eqb_neq in Hl. lia.
  - intros _. unfold slash in Hne.
    destruct a as [[] [] [] [] [] [] [] []]; try done.
Qed.

Lemma _create_not_rooted zk path value flags calls :
  match path with String "/" _ => False | _ => True end →
  _create zk path value flags calls
    = ((Some (JsError must_begin_with_slash), None), calls).
Proof.
  intros H. unfold _create. destruct path as [|a path]; [done|].
  destruct a as [[] [] [] [] [] [] [] []]; try done.
Qed.

(** C4 (as the code has it). For a lock path without a separator, [lock]
    starts at the connection gate like every other call. Called by the
    gate without an error, its function ends with the error of [_create],
    'A zookeeper path must begin with "/" !', before any call on the
    store; called with the error of the gate, it passes that error on,
    again without a call on the store. On a CONNECTED session this happens
    before [lock] returns; on a session that is neither CONNECTED nor in
    ERROR, [lock] returns with its function waiting in a new gate and
    nothing reported. *)
Theorem lock_without_separator fuel zk name txnId callback s calls :
  Js.lastIndexOf slash name = (-1)%Z →
  (∀ err, lock_gated fuel zk name txnId callback err (s, calls)
          = (Called (Some (default (JsError must_begin_with_slash) err)) None, (s, calls))) ∧
  (_cxnState s = CONNECTED →
   lock fuel zk name txnId callback (s, calls)
   = (Called (Some (JsError must_begin_with_slash)) None,
      (record_call None (LockGate name txnId callback) None s, calls))) ∧
  (_cxnState s = CLOSED ∨ _cxnState s = CONNECTING →
   ∃ s', lock fuel zk name txnId callback (s, calls) = (AtGate (length (gates s)), (s', calls)) ∧
         invoked s' = invoked s ∧
         gates s' = gates s ++ [Gate (LockGate name txnId callback) false true]).
Proof.
  intros Hno.
  assert (∀ s0 err, lock_gated fuel zk name txnId callback err (s0, calls)
          = (Called (Some (default (JsError must_begin_with_slash) err)) None, (s0, calls)))
    as Hgated.
  { intros s0 [e|]; [done|]. unfold lock_gated.
    assert (lockpath_of name = "") as -> by (unfold lockpath_of; by rewrite Hno).
    change (_createPath zk "" txnId 0 calls) with (@None jserror, calls). cbv iota beta.
    by rewrite (_create_not_rooted _ _ _ _ _ (no_separator_not_rooted _ Hno)). }
  split; [apply Hgated|]. split.
  - intros Hst. unfold lock, onConnection. rewrite Hst. apply Hgated.
  - intros Hst. unfold lock, onConnection.
    destruct Hst as [-> | ->]; eexists; (split; [reflexivity|done]).
Qed.

Lemma lock_without_separator_witness :
  (∀ err, lock_gated 5 refusing_store "INVALID_PATH" "ponies" (Caller 0) err (connected_cxn, [])
          = (Called (Some (default (JsError must_begin_with_slash) err)) None,
             (connected_cxn, []))) ∧
  (_cxnState connected_cxn = CONNECTED →
   lock 5 refusing_store "INVALID_PATH" "ponies" (Caller 0) (connected_cxn, [])
   = (Called (Some (JsError must_begin_with_slash)) None,
      (record_call None (LockGate "INVALID_PATH" "ponies" (Caller 0)) None connected_cxn, []))) ∧
  (_cxnState connected_cxn = CLOSED ∨ _cxnState connected_cxn = CONNECTING →
   ∃ s', lock 5 refusing_store "INVALID_PATH" "ponies" (Caller 0) (connected_cxn, [])
         = (AtGate (length (gates connected_cxn)), (s', [])) ∧
         invoked s' = invoked connected_cxn ∧
         gates s' = gates connected_cxn
                    ++ [Gate (LockGate "INVALID_PATH" "ponies" (Caller 0)) false true]).
Proof.
  apply (lock_without_separator 5 refusing_store "INVALID_PATH" "ponies" (Caller 0)
           connected_cxn []).
  reflexivity.
Defined.

(** C4 (as stated) fails. On a session that is still CONNECTING,
    [lock('INVALID_PATH')] returns with nothing reported, its function
    waiting in gate 0; when the timer of the gate expires the callback
    receives the error of the timer, not an error about the path. *)
Lemma lock_without_separator_waits_at_gate :
  let w := lock 5 refusing_store "INVALID_PATH" "ponies" (Caller 0) (connecting_cxn, []) in
  let expired := timer_expires 0 (fst (snd w)) in
  Js.lastIndexOf slash "INVALID_PATH" = (-1)%Z ∧
  _cxnState connecting_cxn = CONNECTING ∧
  fst w = AtGate 0 ∧
  (∀ err result, fst w ≠ Called err result) ∧
  invoked (fst (snd w)) = [] ∧
  invoked expired
    = [Invocation (Some 0) (LockGate "INVALID_PATH" "ponies" (Caller 0))
         (Some (JsError "Timed out after 8000"))] ∧
  (∀ i, i ∈ invoked expired →
     fst <$> run_gated 5 refusing_store i (expired, [])
     = Some (Called (Some (JsError "Timed out after 8000")) None)).
Proof.
  repeat split; try by vm_compute.
  intros i Hi. vm_compute in Hi. apply list_elem_of_singleton in Hi as ->.
  by vm_compute.
Qed.

End LockFacts.

(** ** unlock *)

Module UnlockFacts.

(** The function [unlock] hands to the gate, called without an error. *)
Lemma unlock_gated_cases zk name s calls :
  match _locks s !! name with
  | None =>
      Js.inherited name = false →
      unlock_gated zk name None (s, calls)
      = (Called (Some (JsError ("Don't have lock " +:+ name +:+ "!"))) None, (s, calls))
  | Some node =>
      Js.truthy node = true →
      let r := zk (a_delete_ node 0 :: calls) in
      unlock_gated zk name None (s, calls)
      = if (rc r =? ZOK)%Z
        then (Called None (Some name),
              (set_locks (delete name (_locks s)) s, a_delete_ node 0 :: calls))
        else (Called (Some (StoreError (error r))) None, (s, a_delete_ node 0 :: calls))
  end.
Proof.
  unfold unlock_gated, Js.read. destruct (_locks s !! name) as [node|]; [|by intros ->].
  intros ->. unfold issue. by destruct (rc _ =? ZOK)%Z.
Qed.

(** The same for a name that has no entry and names a member of
    [Object.prototype]: the member read is handed to [a_delete_]. *)
Lemma unlock_gated_inherited zk name s calls :
  _locks s !! name = None → Js.inherited name = true →
  let r := zk (a_delete_member name 0 :: calls) in
  unlock_gated zk name None (s, calls)
  = if (rc r =? ZOK)%Z
    then (Called None (Some name),
          (set_locks (delete name (_locks s)) s, a_delete_member name 0 :: calls))
    else (Called (Some (StoreError (error r))) None, (s, a_delete_member name 0 :: calls)).
Proof.
  intros Hno Hin. unfold unlock_gated, Js.read. rewrite Hno, Hin.
  unfold issue. by destruct (rc _ =? ZOK)%Z.
Qed.

Lemma unlock_connected zk name callback s calls :
  _cxnState s = CONNECTED →
  unlock zk name callback (s, calls)
  = unlock_gated zk name None (record_call None (UnlockGate name callback) None s, calls).
Proof. intros Hst. unfold unlock, onConnection. by rewrite Hst. Qed.

(** C7 (as the code has it). [unlock(name)] on a connected session:
    without an entry for [name], and for a [name] that is not the name of
    a member of [Object.prototype], the callback receives "Don't have lock
    <name>!", nothing is asked of the store and the lock table is as
    before; with an entry, the recorded node is deleted with version 0,
    and when the store refuses, its error is passed on and the table is as
    before, while on success the entry is removed and the callback
    receives [(null, name)]. *)
Theorem unlock_behaviour zk name callback s calls :
  _cxnState s = CONNECTED →
  (_locks s !! name = None → Js.inherited name = false →
   ∃ s', unlock zk name callback (s, calls)
         = (Called (Some (JsError ("Don't have lock " +:+ name +:+ "!"))) None, (s', calls)) ∧
         _locks s' = _locks s) ∧
  (∀ node, _locks s !! name = Some node → Js.truthy node = true →
   let r := zk (a_delete_ node 0 :: calls) in
   (rc r ≠ ZOK →
    ∃ s', unlock zk name callback (s, calls)
          = (Called (Some (StoreError (error r))) None, (s', a_delete_ node 0 :: calls)) ∧
          _locks s' = _locks s) ∧
   (rc r = ZOK →
    ∃ s', unlock zk name callback (s, calls)
          = (Called None (Some name), (s', a_delete_ node 0 :: calls)) ∧
          _locks s' = delete name (_locks s) ∧ _locks s' !! name = None)).
Proof.
  intros Hst. rewrite (unlock_connected _ _ _ _ _ Hst).
  pose proof (unlock_gated_cases zk name
                (record_call None (UnlockGate name callback) None s) calls) as H.
  cbn [record_call _locks] in H. split.
  - intros Hno Hown. rewrite Hno in H. rewrite (H Hown). by eexists.
  - intros node Hnode Htr r. rewrite Hnode in H. specialize (H Htr). fold r in H.
    rewrite H. split; intros Hrc.
    + apply Z.eqb_neq in Hrc. rewrite Hrc. by eexists.
    + apply Z.eqb_eq in Hrc. rewrite Hrc. eexists. split; [done|].
      split; [done|]. cbn. apply lookup_delete_eq.
Qed.

Lemma unlock_behaviour_witness :
  let s := holding_cxn in
  let name := "/plumber/wrench" in
  (_locks s !! name = None → Js.inherited name = false →
   ∃ s', unlock refusing_store name (Caller 1) (s, [])
         = (Called (Some (JsError ("Don't have lock " +:+ name +:+ "!"))) None, (s', [])) ∧
         _locks s' = _locks s) ∧
  (∀ node, _locks s !! name = Some node → Js.truthy node = true →
   let r := refusing_store (a_delete_ node 0 :: []) in
   (rc r ≠ ZOK →
    ∃ s', unlock refusing_store name (Caller 1) (s, [])
          = (Called (Some (StoreError (error r))) None, (s', a_delete_ node 0 :: [])) ∧
          _locks s' = _locks s) ∧
   (rc r = ZOK →
    ∃ s', unlock refusing_store name (Caller 1) (s, [])
          = (Called None (Some name), (s', a_delete_ node 0 :: [])) ∧
          _locks s' = delete name (_locks s) ∧ _locks s' !! name = None)).
Proof.
  intros s name. apply (unlock_behaviour refusing_store name (Caller 1) s []).
  reflexivity.
Defined.

(** A path that begins with the separator is not the name of a member of
    [Object.prototype]. *)
Lemma rooted_not_inherited name : rooted name → Js.inherited name = false.
Proof.
  intros Hr. apply bool_decide_eq_false_2. intros Hin.
  unfold Js.Object_prototype in Hin.
  repeat (apply elem_of_cons in Hin as [->|Hin]; [done|]).
  by apply elem_of_nil in Hin.
Qed.

(** C7 (as stated) fails. The session holds no lock, so the lock table has
    no entry for [constructor]; [self._locks["constructor"]] reads the
    member the table inherits from [Object.prototype], which is truthy:
    [unlock] issues a deletion with that member as the path and, the store
    answering ZOK, calls back with [(null, "constructor")] instead of the
    error for a lock that is not held. *)
Theorem unlock_inherited_name_deletes :
  let w := unlock (listing_store []) "constructor" (Caller 1) (connected_cxn, []) in
  _locks connected_cxn !! "constructor" = None ∧
  fst w ≠ Called (Some (JsError "Don't have lock constructor!")) None ∧
  fst w = Called None (Some "constructor") ∧
  snd (snd w) = [a_delete_member "constructor" 0].
Proof. by vm_compute. Qed.

(** The three cases on concrete sessions: no entry; an entry and a store
    that refuses the deletion; an entry and a store that deletes. *)
Example unlock_not_held :
  unlock refusing_store "/plumber/wrench" (Caller 1) (connected_cxn, [])
  = (Called (Some (JsError "Don't have lock /plumber/wrench!")) None,
     (record_call None (UnlockGate "/plumber/wrench" (Caller 1)) None connected_cxn, [])).
Proof. reflexivity. Qed.

Example unlock_refused :
  let w := unlock refusing_store "/plumber/wrench" (Caller 1) (holding_cxn, []) in
  fst w = Called (Some (StoreError "connection loss")) None ∧
  _locks (fst (snd w)) !! "/plumber/wrench" = Some "/plumber/wrench0000000002" ∧
  snd (snd w) = [a_delete_ "/plumber/wrench0000000002" 0].
Proof. by vm_compute. Qed.

Example unlock_deleted :
  let w := unlock (listing_store []) "/plumber/wrench" (Caller 1) (holding_cxn, []) in
  fst w = Called None (Some "/plumber/wrench") ∧
  _locks (fst (snd w)) !! "/plumber/wrench" = None ∧
  snd (snd w) = [a_delete_ "/plumber/wrench0000000002" 0].
Proof. by vm_compute. Qed.

End UnlockFacts.

(** ** _createPath *)

Module CreatePathFacts.

Lemma _create_rooted zk path value flags calls :
  rooted path →
  let r := zk (a_create path value flags :: calls) in
  _create zk path value flags calls
  = if create_ok r
    then ((None, Some (stat r)), a_create path value flags :: calls)
    else ((Some (StoreError (error r)), None), a_create path value flags :: calls).
Proof.
  intros Hr r. unfold _create. destruct path as [|a path]; [done|].
  destruct a as [[] [] [] [] [] [] [] []]; try done.
  unfold issue, create_ok. fold r.
  by destruct (rc r =? ZOK)%Z, (rc r =? ZNODEEXISTS)%Z.
Qed.

Lemma ancestor_paths_rooted parts : Forall rooted (ancestor_paths parts).
Proof.
  unfold ancestor_paths. apply Forall_forall. intros p Hp.
  apply list_elem_of_fmap in Hp as (i & -> & _). done.
Qed.

Lemma created_log_cons p paths value flags calls j :
  created_log (p :: paths) value flags calls (S j)
  = created_log paths value flags (a_create p value flags :: calls) j.
Proof.
  unfold created_log. cbn [take map rev]. by rewrite <- app_assoc.
Qed.

(** [async.forEachSeries(paths, _create)]: a run of creations in order
    that stops at the first result that is not a success. *)
Lemma series_of_creates zk value flags paths : ∀ calls,
  Forall rooted paths →
  let log := created_log paths value flags calls in
  let series := Async.forEachSeries
                  (λ path calls, let '(res, calls) := _create zk path value flags calls in
                                 (fst res, calls)) paths calls in
  ((∀ j, 1 ≤ j ≤ length paths → create_ok (zk (log j)) = true) →
   series = (None, log (length paths))) ∧
  (∀ j, 1 ≤ j ≤ length paths →
     (∀ i, 1 ≤ i < j → create_ok (zk (log i)) = true) →
     create_ok (zk (log j)) = false →
     series = (Some (StoreError (error (zk (log j)))), log j)).
Proof.
  induction paths as [|p paths IH]; intros calls Hroot.
  - split; [done|]. intros j Hj. simpl in Hj. lia.
  - apply Forall_cons in Hroot as [Hp Hroot].
    specialize (IH (a_create p value flags :: calls) Hroot).
    cbn zeta in *. destruct IH as [IHok IHfail].
    cbn [Async.forEachSeries]. rewrite (_create_rooted _ _ _ _ _ Hp). cbn zeta.
    change (zk (a_create p value flags :: calls))
      with (zk (created_log (p :: paths) value flags calls 1)).
    split.
    + intros Hall. rewrite (Hall 1) by (simpl; lia). cbn [fst].
      rewrite IHok; [by rewrite <- created_log_cons|].
      intros j Hj. rewrite <- created_log_cons. apply Hall. simpl. lia.
    + intros j Hj Hbefore Hfail. destruct j as [|[|j]]; [lia| |].
      * by rewrite Hfail.
      * rewrite (Hbefore 1) by lia. cbn [fst].
        rewrite (created_log_cons p paths value flags calls (S j)) in Hfail |- *.
        apply IHfail; [simpl in Hj; lia| |done].
        intros i Hi. rewrite <- created_log_cons. apply Hbefore. lia.
Qed.

Lemma indexOf_slash_zero path :
  (Js.indexOf "/" path =? 0)%Z = match path with String "/" _ => true | _ => false end.
Proof.
  destruct path as [|a path]; [done|].
  unfold Js.indexOf. cbn [Js.indexOf_from Js.starts_with].
  destruct (Ascii.eqb_spec "/" a) as [<-|Hne]; [done|].
  assert (∀ s i, (0 < i)%Z → Js.indexOf_from i "/" s ≠ 0%Z) as Hpos.
  { induction s as [|b s IHs]; intros i Hi; cbn [Js.indexOf_from Js.starts_with]; [lia|].
    destruct (Ascii.eqb "/" b); [lia|]. apply IHs. lia. }
  specialize (Hpos path (0 + 1)%Z ltac:(lia)). apply Z.eqb_neq in Hpos. rewrite Hpos.
  destruct a as [[] [] [] [] [] [] [] []]; try done.
Qed.

(** C8. [_createPath] leaves out one leading separator and takes the
    non-empty segments of the rest; the ancestors are the paths made of
    the first 1, 2, ... segments. For [''] and ['/'] it reports success
    without a call on the store. Otherwise the ancestors are created one
    after the other from the front; results [ZOK] and [ZNODEEXISTS] count
    as success, and the first other result ends the run: its error is
    reported and no further ancestor is asked for. *)
Theorem createPath_behaviour zk path value flags calls :
  let rest := match path with String "/" rest => rest | _ => path end in
  let paths := ancestor_paths (segments rest) in
  let log := created_log paths value flags calls in
  (path = "" ∨ path = "/" → _createPath zk path value flags calls = (None, calls)) ∧
  ((∀ j, 1 ≤ j ≤ length paths → create_ok (zk (log j)) = true) →
   _createPath zk path value flags calls = (None, log (length paths))) ∧
  (∀ j, 1 ≤ j ≤ length paths →
     (∀ i, 1 ≤ i < j → create_ok (zk (log i)) = true) →
     create_ok (zk (log j)) = false →
     _createPath zk path value flags calls
     = (Some (StoreError (error (zk (log j)))), log j)).
Proof.
  intros rest paths log.
  split; [by intros [-> | ->]|].
  assert (_createPath zk path value flags calls
          = if (String.length rest =? 0)%nat then (None, calls)
            else Async.forEachSeries
                   (λ path calls, let '(res, calls) := _create zk path value flags calls in
                                  (fst res, calls)) paths calls) as ->.
  { unfold _createPath. rewrite indexOf_slash_zero.
    assert ((if match path with String "/" _ => true | _ => false end
             then Js.slice_from 1 path else path) = rest) as ->; [|done].
    subst rest. destruct path as [|a path]; [done|].
    destruct a as [[] [] [] [] [] [] [] []]; try done. }
  pose proof (series_of_creates zk value flags paths calls
                (ancestor_paths_rooted (segments rest))) as [Hok Hfail].
  destruct rest as [|a rest'] eqn:Hrest.
  - split; [done|]. intros j Hj. simpl in Hj. lia.
  - cbn [String.length Nat.eqb]. split; [exact Hok|exact Hfail].
Qed.

Lemma createPath_behaviour_witness :
  let paths := ["/a"; "/a/b"; "/a/b/c"] in
  let log := created_log paths "v" 0 [] in
  ("/a/b/c/" = "" ∨ "/a/b/c/" = "/" → _createPath refusing_store "/a/b/c/" "v" 0 [] = (None, [])) ∧
  ((∀ j, 1 ≤ j ≤ length paths → create_ok (refusing_store (log j)) = true) →
   _createPath refusing_store "/a/b/c/" "v" 0 [] = (None, log (length paths))) ∧
  (∀ j, 1 ≤ j ≤ length paths →
     (∀ i, 1 ≤ i < j → create_ok (refusing_store (log i)) = true) →
     create_ok (refusing_store (log j)) = false →
     _createPath refusing_store "/a/b/c/" "v" 0 []
     = (Some (StoreError (error (refusing_store (log j)))), log j)).
Proof. exact (createPath_behaviour refusing_store "/a/b/c/" "v" 0 []). Defined.

(** On concrete stores: the root needs no call; an ancestor that exists is
    passed over; a refusal at [/a/b] is reported and [/a/b/c] is never
    asked for. *)
Example _createPath_root :
  _createPath refusing_store "/" "v" 0 [] = (None, []) ∧
  _createPath refusing_store "" "v" 0 [] = (None, []).
Proof. by vm_compute. Qed.

Example _createPath_refused :
  _createPath refusing_store "/a/b/c/" "v" 0 []
  = (Some (StoreError "no auth"), [a_create "/a/b" "v" 0; a_create "/a" "v" 0]).
Proof. by vm_compute. Qed.

Example _createPath_all :
  _createPath (listing_store []) "/a/b/c/" "v" 0 []
  = (None, [a_create "/a/b/c" "v" 0; a_create "/a/b" "v" 0; a_create "/a" "v" 0]).
Proof. by vm_compute. Qed.

End CreatePathFacts.

(** ** The watch table *)

Module WatchFacts.

(** [_watch] queues the callback when the existence check reports no
    error, whatever it found; on an error the callback is called with it
    and the table is as before. *)
Lemma _watch_queues zk path callback s calls :
  let r := zk (a_exists path true :: calls) in
  _watch zk path callback (s, calls)
  = if (rc r =? ZNONODE)%Z || (rc r =? ZOK)%Z
    then (None, (set_watching (watching_push path callback (_watching s)) s,
                 a_exists path true :: calls))
    else (Some (ZkError (rc r) (error r)), (s, a_exists path true :: calls)).
Proof.
  intros r. unfold _watch, _exists, issue. fold r.
  by destruct (rc r =? ZNONODE)%Z, (rc r =? ZOK)%Z.
Qed.

Lemma register_all_app regs1 regs2 watching :
  register_all (regs1 ++ regs2) watching = register_all regs2 (register_all regs1 watching).
Proof. apply fold_left_app. Qed.

Lemma registered_for_cons q k regs path :
  registered_for path ((q, k) :: regs)
  = if decide (q = path) then k :: registered_for path regs else registered_for path regs.
Proof.
  unfold registered_for. rewrite filter_cons. cbn [fst].
  by destruct (decide (q = path)).
Qed.

(** The entry of [path] after a run of registrations: the old entry, if
    any, followed by the callbacks registered for [path], oldest first. *)
Lemma register_all_lookup regs : ∀ (watching : gmap string (list fn)) path,
  register_all regs watching !! path
  = if decide (registered_for path regs = []) then watching !! path
    else Some (default [] (watching !! path) ++ registered_for path regs).
Proof.
  induction regs as [|[q k] regs IH]; intros watching path; [done|].
  cbn [register_all fold_left fst snd]. fold (register_all regs).
  rewrite IH, registered_for_cons. unfold watching_push.
  destruct (decide (q = path)) as [->|Hne].
  - rewrite lookup_insert_eq.
    change (default [] (Some (default [] (watching !! path) ++ [k])))
      with (default [] (watching !! path) ++ [k]).
    destruct (decide (registered_for path regs = [])) as [->|Hn].
    + by rewrite decide_False by done.
    + rewrite decide_False by done. by rewrite <- app_assoc.
  - by rewrite lookup_insert_ne.
Qed.

Lemma fan_out_fold (body : fn → list (string * fn)) callbacks :
  ∀ fired (w0 : gmap string (list fn)),
  fold_left (λ acc callback,
               (fst acc ++ [callback],
                fold_left (λ w reg, watching_push (fst reg) (snd reg) w)
                          (body callback) (snd acc)))
            callbacks (fired, w0)
  = (fired ++ callbacks, register_all (concat (map body callbacks)) w0).
Proof.
  induction callbacks as [|k callbacks IH]; intros fired w0.
  - by rewrite app_nil_r.
  - cbn [fold_left fst snd map concat]. rewrite IH, register_all_app.
    by rewrite <- app_assoc.
Qed.

(** The handler on a path that has an entry: the entry is removed, its
    callbacks are called in order, and the table ends as the table without
    the entry plus whatever was registered meanwhile. *)
Lemma on_event_deleted_entry body path (watching : gmap string (list fn)) callbacks :
  watching !! path = Some callbacks →
  on_event_deleted body path watching
  = (callbacks, register_all (concat (map body callbacks)) (delete path watching)).
Proof.
  intros Hentry. unfold on_event_deleted. rewrite Hentry.
  apply (fan_out_fold body callbacks [] (delete path watching)).
Qed.

Lemma on_event_deleted_no_entry body path (watching : gmap string (list fn)) :
  watching !! path = None → on_event_deleted body path watching = ([], watching).
Proof. intros Hno. unfold on_event_deleted. by rewrite Hno. Qed.

(** C6. Take a table without an entry for [path] (a new session, or the
    table right after a drain) and let the registrations [regs] reach it.
    A node-deleted event for [path] then calls exactly the callbacks
    registered for [path], each once per registration and in the order of
    registration; the entry is removed before the first call, the entries
    of the other paths are kept, and unless a callback registers for
    [path] again a second event calls nothing. Without an entry the event
    calls nothing and leaves the table as it is. *)
Theorem node_deleted_drains body (watching0 : gmap string (list fn)) regs path :
  watching0 !! path = None →
  let watching := register_all regs watching0 in
  let result := on_event_deleted body path watching in
  let during := concat (map body (fst result)) in
  fst result = registered_for path regs ∧
  snd result = register_all during (delete path watching) ∧
  delete path watching !! path = None ∧
  (∀ q, q ≠ path → delete path watching !! q = watching !! q) ∧
  (registered_for path during = [] →
   snd result !! path = None ∧ on_event_deleted body path (snd result) = ([], snd result)) ∧
  (watching !! path = None → result = ([], watching)).
Proof.
  intros Hfresh watching result during.
  assert (watching !! path
          = if decide (registered_for path regs = []) then None
            else Some (registered_for path regs)) as Hentry.
  { subst watching. by rewrite register_all_lookup, Hfresh. }
  assert (fst result = registered_for path regs ∧
          snd result = register_all (concat (map body (fst result))) (delete path watching))
    as [Hfst Hsnd].
  { subst result. destruct (decide (registered_for path regs = [])) as [Hnil|Hnn].
    - rewrite (on_event_deleted_no_entry _ _ _ Hentry). rewrite Hnil. cbn.
      rewrite delete_id; done.
    - by rewrite (on_event_deleted_entry _ _ _ _ Hentry). }
  split; [done|]. split; [done|].
  split; [apply lookup_delete_eq|].
  split; [by intros q Hq; apply lookup_delete_ne|].
  split.
  - intros Hnone.
    assert (snd result !! path = None) as Hgone.
    { rewrite Hsnd. fold during. rewrite register_all_lookup, decide_True by done.
      apply lookup_delete_eq. }
    split; [done|]. by apply on_event_deleted_no_entry.
  - intros Hno. by apply on_event_deleted_no_entry.
Qed.

Lemma node_deleted_drains_witness :
  let body := λ _ : fn, @nil (string * fn) in
  let regs := [("/l/a1", Caller 1); ("/l/b1", Caller 2); ("/l/a1", Caller 3)] in
  let watching := register_all regs ∅ in
  let result := on_event_deleted body "/l/a1" watching in
  let during := concat (map body (fst result)) in
  fst result = registered_for "/l/a1" regs ∧
  snd result = register_all during (delete "/l/a1" watching) ∧
  delete "/l/a1" watching !! "/l/a1" = None ∧
  (∀ q, q ≠ "/l/a1" → delete "/l/a1" watching !! q = watching !! q) ∧
  (registered_for "/l/a1" during = [] →
   snd result !! "/l/a1" = None ∧
   on_event_deleted body "/l/a1" (snd result) = ([], snd result)) ∧
  (watching !! "/l/a1" = None → result = ([], watching)).
Proof.
  intros body regs.
  apply (node_deleted_drains body ∅ regs "/l/a1"). apply lookup_empty.
Defined.

Example node_deleted_order :
  let regs := [("/l/a1", Caller 1); ("/l/b1", Caller 2); ("/l/a1", Caller 3)] in
  let result := on_event_deleted (λ _, []) "/l/a1" (register_all regs ∅) in
  fst result = [Caller 1; Caller 3] ∧
  snd result !! "/l/a1" = None ∧
  snd result !! "/l/b1" = Some [Caller 2].
Proof. by vm_compute. Qed.

(** C10. The handler removes the entry of [path] before it calls the
    first callback. Whatever the callbacks register for [path] while they
    are being called lands in a new entry, which is what the table holds
    for [path] afterwards, oldest first; every callback in that entry was
    registered during the fan-out, so when those are new callbacks none of
    the callbacks that were called is still in the table for [path]. *)
Theorem fan_out_registrations_survive body (watching : gmap string (list fn)) path callbacks :
  watching !! path = Some callbacks →
  let result := on_event_deleted body path watching in
  let during := concat (map body callbacks) in
  fst result = callbacks ∧
  snd result !! path
  = (if decide (registered_for path during = []) then None
     else Some (registered_for path during)) ∧
  (∀ k, k ∈ default [] (snd result !! path) → k ∈ registered_for path during) ∧
  ((∀ k, k ∈ callbacks → k ∉ registered_for path during) →
   ∀ k, k ∈ callbacks → k ∉ default [] (snd result !! path)).
Proof.
  intros Hentry result during. subst result.
  rewrite (on_event_deleted_entry _ _ _ _ Hentry). cbn [fst snd]. fold during.
  assert (register_all during (delete path watching) !! path
          = if decide (registered_for path during = []) then None
            else Some (registered_for path during)) as Hafter.
  { rewrite register_all_lookup, lookup_delete_eq. done. }
  split; [done|]. split; [done|]. rewrite Hafter.
  assert (∀ k, k ∈ default [] (if decide (registered_for path during = []) then None
                               else Some (registered_for path during))
               → k ∈ registered_for path during) as Hin.
  { intros k. destruct (decide _) as [Hnil|_]; cbn [from_option]; [|done].
    intros Hk. by apply elem_of_nil in Hk. }
  split; [done|]. intros Hnew k Hk Hk'. by apply (Hnew k Hk), Hin.
Qed.

Lemma fan_out_registrations_survive_witness :
  let body := λ f, match f with
                   | Caller 1 => [("/l/a1", Caller 4)]
                   | _ => []
                   end in
  let watching := register_all [("/l/a1", Caller 1); ("/l/a1", Caller 3)] ∅ in
  let result := on_event_deleted body "/l/a1" watching in
  let during := concat (map body [Caller 1; Caller 3]) in
  fst result = [Caller 1; Caller 3] ∧
  snd result !! "/l/a1"
  = (if decide (registered_for "/l/a1" during = []) then None
     else Some (registered_for "/l/a1" during)) ∧
  (∀ k, k ∈ default [] (snd result !! "/l/a1") → k ∈ registered_for "/l/a1" during) ∧
  ((∀ k, k ∈ [Caller 1; Caller 3] → k ∉ registered_for "/l/a1" during) →
   ∀ k, k ∈ [Caller 1; Caller 3] → k ∉ default [] (snd result !! "/l/a1")).
Proof.
  intros body watching.
  apply (fan_out_registrations_survive body watching "/l/a1" [Caller 1; Caller 3]).
  by vm_compute.
Defined.

Example fan_out_new_entry :
  let body := λ f, match f with
                   | Caller 1 => [("/l/a1", Caller 4)]
                   | _ => []
                   end in
  let watching := register_all [("/l/a1", Caller 1); ("/l/a1", Caller 3)] ∅ in
  on_event_deleted body "/l/a1" watching = ([Caller 1; Caller 3], {[ "/l/a1" := [Caller 4] ]}).
Proof. by vm_compute. Qed.

End WatchFacts.

(** ** getCxn and shutdown *)

Module RegistryFacts.

Lemma call_once_fields g err s :
  _zk (call_once g err s) = _zk s ∧ _cxnState (call_once g err s) = _cxnState s ∧
  _stateEmitter (call_once g err s) = _stateEmitter s.
Proof.
  unfold call_once. destruct (gates s !! g) as [gt|]; [|by repeat split].
  by destruct (ran gt); repeat split.
Qed.

Lemma emit_fields to data listeners : ∀ s,
  _zk (emit to data listeners s) = _zk s ∧
  _cxnState (emit to data listeners s) = _cxnState s ∧
  _stateEmitter (emit to data listeners s) = _stateEmitter s.
Proof.
  unfold emit. induction listeners as [|l listeners IH]; intros s; [by repeat split|].
  cbn [fold_left]. destruct (IH (if cxnStates_eqb (fst l) to
                                 then call_once (snd l) data s else s)) as (-> & -> & ->).
  destruct (cxnStates_eqb (fst l) to); [apply call_once_fields|by repeat split].
Qed.

Lemma _changeState_fields to data s :
  _zk (_changeState to data s) = _zk s ∧ _cxnState (_changeState to data s) = to ∧
  _stateEmitter (_changeState to data s) = _stateEmitter s.
Proof.
  unfold _changeState. cbn [set_cxnState _stateEmitter].
  destruct (_stateEmitter s) as [listeners|] eqn:He; [|by repeat split].
  destruct (emit_fields to data listeners (set_cxnState to s)) as (-> & -> & ->).
  by repeat split.
Qed.

(** [close] on a session that is CLOSED or has a handle raises nothing
    and leaves the session CLOSED. *)
Lemma close_closes callback s :
  has_handle_unless_closed s →
  ∃ s', close callback s = (None, s') ∧ _cxnState s' = CLOSED.
Proof.
  intros Hwf. unfold close. destruct (_cxnState s) eqn:Hst.
  2: { eexists. split; [done|]. unfold onConnection. by rewrite Hst. }
  all: destruct Hwf as [Hc|[h Hh]]; [congruence|].
  all: unfold _close;
    destruct (_changeState_fields CLOSED None s) as (Hzk & Hstate & _);
    rewrite Hzk, Hh; eexists; (split; [done|]); exact Hstate.
Qed.

Lemma onConnection_fields callback s :
  _zk (onConnection callback s) = _zk s ∧
  _cxnState (onConnection callback s) = _cxnState s.
Proof.
  unfold onConnection. destruct (_cxnState s) eqn:Hst; [|by split..].
  destruct (_changeState_fields ERROR (Some (JsError "ZooKeeper connection is in ERROR"))
              (record_call None callback
                 (Some (JsError "ZooKeeper connection is in ERROR")) s)) as (-> & -> & _).
  by split.
Qed.

Lemma _connect_has_handle fresh callback s :
  (_cxnState s = CONNECTING ∨ _cxnState s = CONNECTED → is_Some (_zk s)) →
  has_handle_unless_closed (_connect fresh callback s).
Proof.
  intros Hwf. unfold has_handle_unless_closed, _connect.
  destruct (_cxnState s) eqn:Hst.
  3: { destruct (onConnection_fields (OnceOf callback) s) as (-> & ->). right. auto. }
  3: { cbn [record_call _zk _cxnState]. right. auto. }
  all: destruct (_zk s) as [h|] eqn:Hzk.
  all: try (destruct (_changeState_fields ERROR (Some (JsError "Connection is closed!"))
                        (record_call None (OnceOf callback)
                           (Some (JsError "Connection is closed!")) s)) as (-> & _ & _);
            right; cbn [record_call _zk]; by rewrite Hzk).
  all: right; by destruct (_stateEmitter _).
Qed.

(** The condition of [shutdown_behaviour] is kept by every event, a
    handler of the handle running only while the handle exists. *)
Lemma step_has_handle s e :
  has_handle_unless_closed s →
  match e with OnConnected _ _ | OnConnecting => is_Some (_zk s) | _ => True end →
  has_handle_unless_closed (step s e).
Proof.
  intros Hwf He. destruct e; cbn [step].
  - unfold has_handle_unless_closed, timer_expires.
    destruct (gates s !! g) as [gt|]; [|done]. destruct (timer gt); [|done].
    destruct (call_once_fields g
                (Some (JsError (timed_out_message (_timeout s))))
                (set_gates (<[g:=Gate (originalCallback gt) (ran gt) false]> (gates s)) s))
      as (-> & -> & _). done.
  - right. unfold on_connected. cbn [record_call _zk].
    by destruct (_changeState_fields CONNECTED None (set_sessionId (Some client_id) s))
      as (-> & _ & _).
  - right. unfold on_connecting.
    by destruct (_changeState_fields CONNECTING None s) as (-> & _ & _).
  - unfold on_closed.
    change (_cxnState (set_stateEmitter None (set_zk None s))) with (_cxnState s).
    destruct (_cxnState s) eqn:Hst; [|by left| |]; apply _connect_has_handle;
      destruct (_changeState_fields ERROR (Some (JsError "Reconnecting"))
                  (set_stateEmitter None (set_zk None s))) as (_ & -> & _);
      by intros [|].
  - unfold has_handle_unless_closed.
    by destruct (onConnection_fields callback s) as (-> & ->).
  - apply _connect_has_handle. destruct Hwf as [->|Hzk]; [by intros [|]|done].
  - destruct (close_closes callback s Hwf) as (s' & -> & Hs'). by left.
Qed.

(** *** Plain objects *)

Lemma own_get_elem {V} (o : Js.object V) key v :
  Js.own_get o key = Some v → (key, v) ∈ o.
Proof.
  induction o as [|[k v0] o IH]; [done|]. cbn [Js.own_get].
  destruct (String.eqb_spec k key) as [->|Hne].
  - intros [= ->]. left.
  - intros Hg. right. by apply IH.
Qed.

Lemma own_get_put {V} (o : Js.object V) key v key' :
  Js.own_get (Js.put key v o) key'
  = if String.eqb key key' then Some v else Js.own_get o key'.
Proof.
  induction o as [|[k v0] o IH]; cbn [Js.put Js.own_get]; [done|].
  destruct (String.eqb_spec k key) as [->|Hne]; cbn [Js.own_get].
  - by destruct (String.eqb key key').
  - destruct (String.eqb_spec k key') as [->|Hne'].
    + by destruct (String.eqb_spec key key').
    + exact IH.
Qed.

(** Writing the value a name already has changes nothing, and a new name
    comes last. *)
Lemma put_same {V} (o : Js.object V) key v :
  Js.own_get o key = Some v → Js.put key v o = o.
Proof.
  induction o as [|[k v0] o IH]; [done|]. cbn [Js.own_get Js.put].
  destruct (String.eqb_spec k key) as [->|Hne].
  - by intros [= ->].
  - intros Hg. by rewrite IH.
Qed.

Lemma put_new {V} (o : Js.object V) key v :
  Js.own_get o key = None → Js.put key v o = o ++ [(key, v)].
Proof.
  induction o as [|[k v0] o IH]; [done|]. cbn [Js.own_get Js.put].
  destruct (String.eqb_spec k key) as [->|Hne]; [done|].
  intros Hg. by rewrite IH.
Qed.

Lemma insert_by_index_perm {V} n (kv : string * V) l :
  Permutation (Js.insert_by_index n kv l) ((n, kv) :: l).
Proof.
  induction l as [|[m kv'] l IH]; [done|]. cbn [Js.insert_by_index].
  destruct (n <? m)%N; [done|]. rewrite IH. apply perm_swap.
Qed.

(** The enumeration visits every own property once. *)
Lemma enumerate_perm {V} (o : Js.object V) : Permutation (Js.enumerate o) o.
Proof.
  unfold Js.enumerate. induction o as [|kv o IH]; [done|].
  cbn [fold_right]. destruct (Js.array_index (fst kv)) as [n|] eqn:Hi.
  - rewrite filter_cons_False by (rewrite Hi; done).
    rewrite insert_by_index_perm. cbn [fmap list_fmap snd app]. by constructor.
  - rewrite filter_cons_True by done. rewrite <- Permutation_middle. by constructor.
Qed.

(** Without array indices among the names it follows the order of
    creation. *)
Lemma enumerate_named {V} (o : Js.object V) :
  Forall (λ kv, Js.array_index (fst kv) = None) o → Js.enumerate o = o.
Proof.
  unfold Js.enumerate. induction 1 as [|kv o Hkv Ho IH]; [done|].
  cbn [fold_right]. rewrite Hkv, filter_cons_True by done.
  assert (fold_right (λ kv acc, match Js.array_index (fst kv) with
                                | Some n => Js.insert_by_index n kv acc
                                | None => acc
                                end) [] o = []) as Hnil.
  { clear IH. induction Ho as [|kv' o' Hkv' Ho' IH']; [done|].
    cbn [fold_right]. by rewrite Hkv'. }
  rewrite Hnil in *. cbn [fmap list_fmap app] in *. by rewrite IH.
Qed.

(** *** The loop of shutdown *)

Lemma filter_agree {A} (P Q : A → Prop) `{∀ x, Decision (P x)} `{∀ x, Decision (Q x)} l :
  Forall (λ x, P x ↔ Q x) l → filter P l = filter Q l.
Proof.
  induction 1 as [|x l Hx Hl IH]; [done|]. rewrite !filter_cons.
  destruct (decide (P x)), (decide (Q x)); [by rewrite IH|tauto|tauto|done].
Qed.

Lemma is_closed_spec objs c s :
  objs !! c = Some s →
  is_closed objs c = match _cxnState s with CLOSED => true | _ => false end.
Proof. intros Hs. unfold is_closed. rewrite Hs. by destruct (_cxnState s). Qed.

Lemma forEach_after_cons st k :
  forEach_after (replicate (S k) None) st
  = forEach_after (replicate k None) (Async.forEach_done None st).
Proof. done. Qed.

(** [async.forEach] over distinct objects, each of them CLOSED or with a
    handle: [close] is called on each in turn and raises nothing; every
    object named is replaced by what [close] makes of it, the others are
    as before; and [async.forEach] has received one callback without
    error for each session that was not CLOSED. *)
Lemma shutdown_each_spec toClose : ∀ i objs rep,
  NoDup toClose →
  Forall (λ c, ∃ s, objs !! c = Some s ∧ has_handle_unless_closed s) toClose →
  raised rep = None →
  let result := shutdown_each i toClose objs rep in
  closed (fst result) = closed rep ++ toClose ∧
  raised (fst result) = None ∧
  length (snd result) = length objs ∧
  (∀ j c s, toClose !! j = Some c → objs !! c = Some s →
     snd result !! c = Some (snd (close (ForEachCb (i + j)) s))) ∧
  (∀ c, c ∉ toClose → snd result !! c = objs !! c) ∧
  forEach (fst result)
  = forEach_after
      (replicate (length (filter (λ c, is_closed objs c = false) toClose)) None)
      (forEach rep).
Proof.
  induction toClose as [|c toClose IH]; intros i objs rep Hnd Hwf Hraised; cbn zeta.
  - cbn [shutdown_each fst snd]. rewrite app_nil_r. by repeat split.
  - apply NoDup_cons in Hnd as [Hc Hnd].
    apply Forall_cons in Hwf as [(s & Hs & Hwfs) Hwf].
    cbn [shutdown_each]. rewrite Hs.
    destruct (close_closes (ForEachCb i) s Hwfs) as (s' & Hclose & Hclosed).
    rewrite Hclose.
    set (rep' := ShutdownReport _ _ None).
    assert (<[c:=s']> objs !! c = Some s') as Hcs
      by (apply list_lookup_insert_eq; by eapply lookup_lt_Some).
    specialize (IH (S i) (<[c:=s']> objs) rep' Hnd).
    cbn zeta in IH. destruct IH as (Hcl & Hr & Hlen & Heach & Hrest & Hfe); [|done|].
    { rewrite Forall_forall in Hwf. apply Forall_forall. intros c0 Hc0.
      destruct (Hwf c0 Hc0) as (s0 & Hs0 & Hwf0). exists s0.
      rewrite list_lookup_insert_ne by (by intros ->). done. }
    rewrite Hcl, Hr, Hlen, length_insert, Hfe. subst rep'. cbn [closed forEach].
    rewrite <- app_assoc. split; [done|]. split; [done|]. split; [done|].
    split; [|split].
    + intros [|j] c0 s0 Hj Hs0.
      * cbn in Hj. injection Hj as <-. rewrite Hrest by done.
        rewrite Hcs, Nat.add_0_r. assert (s0 = s) as -> by congruence.
        by rewrite Hclose.
      * cbn in Hj. assert (c0 ≠ c) as Hne.
        { intros ->. apply Hc. by eapply list_elem_of_lookup_2. }
        replace (i + S j) with (S i + j) by lia.
        apply Heach; [done|]. by rewrite list_lookup_insert_ne.
    + intros c0 Hc0. apply not_elem_of_cons in Hc0 as [Hne Hc0].
      rewrite Hrest by done. by rewrite list_lookup_insert_ne.
    + assert (filter (λ c0, is_closed (<[c:=s']> objs) c0 = false) toClose
              = filter (λ c0, is_closed objs c0 = false) toClose) as ->.
      { apply filter_agree. apply Forall_forall. intros c0 Hc0.
        unfold is_closed. rewrite list_lookup_insert_ne by (by intros ->). done. }
      pose proof (is_closed_spec objs c s Hs) as Hcl0.
      destruct (_cxnState s).
      * rewrite filter_cons_True by done. done.
      * rewrite filter_cons_False by (by rewrite Hcl0). done.
      * rewrite filter_cons_True by done. done.
      * rewrite filter_cons_True by done. done.
Qed.

(** What the callback of [async.forEach] has received after the callbacks
    [errs] of the iterators: the first error as soon as there is one,
    otherwise [null] once all [n] have arrived, and nothing before. *)
Lemma forEach_reports n errs :
  0 < n → length errs ≤ n →
  let st := forEach_after errs (Async.forEach_start n) in
  Async.fe_length st = n ∧
  Async.fe_completed st = length (filter (λ e, e = None) errs) ∧
  Async.fe_live st = bool_decide (first_error errs = None) ∧
  Async.fe_reported st
  = match first_error errs with
    | Some e => [Some e]
    | None => if decide (length errs = n) then [None] else []
    end.
Proof.
  intros Hn. induction errs as [|e errs IH] using rev_ind; intros Hlen; cbn zeta.
  - destruct n; [lia|]. cbn. by rewrite decide_False by lia.
  - rewrite length_app in Hlen. cbn [length] in Hlen.
    destruct IH as (Hl & Hc & Hlive & Hrep); [lia|].
    unfold forEach_after in *. rewrite fold_left_app. cbn [fold_left].
    set (st := fold_left _ errs _) in *.
    assert (first_error (errs ++ [e])
            = match first_error errs with Some x => Some x | None => e end) as Hfe.
    { unfold first_error. rewrite omap_app. destruct (omap id errs); [|done].
      cbn. by destruct e. }
    rewrite Hfe, filter_app, !length_app. cbn [length].
    unfold Async.forEach_done. destruct e as [x|].
    + rewrite filter_cons_False, filter_nil by done. cbn [length].
      rewrite Nat.add_0_r. rewrite Hlive.
      destruct (first_error errs) as [y|] eqn:Hfirst.
      * rewrite bool_decide_eq_false_2 by done. done.
      * rewrite bool_decide_eq_true_2 by done.
        cbn [Async.fe_length Async.fe_completed Async.fe_live Async.fe_reported].
        rewrite Hrep, decide_False by lia. done.
    + rewrite filter_cons_True, filter_nil by done. cbn [length].
      rewrite Hl, Hc, Hlive.
      destruct (first_error errs) as [y|] eqn:Hfirst.
      * rewrite bool_decide_eq_false_2 by done. rewrite andb_false_r.
        cbn [Async.fe_length Async.fe_completed Async.fe_live Async.fe_reported].
        repeat split; try done; lia.
      * rewrite bool_decide_eq_true_2 by done. rewrite andb_true_r.
        assert (length (filter (λ e, e = None) errs) = length errs) as Hall.
        { f_equal. clear -Hfirst. induction errs as [|[x|] errs IH]; [done|done|].
          rewrite filter_cons_True by done. f_equal. apply IH. exact Hfirst. }
        rewrite Hall.
        destruct (Nat.eqb_spec (S (length errs)) n) as [Heq|Hne].
        -- cbn [Async.fe_length Async.fe_completed Async.fe_live Async.fe_reported].
           rewrite Hrep, decide_False by lia. rewrite decide_True by lia.
           repeat split; try done; lia.
        -- cbn [Async.fe_length Async.fe_completed Async.fe_live Async.fe_reported].
           rewrite Hrep, decide_False by lia. rewrite decide_False by lia.
           repeat split; try done; lia.
Qed.

(** *** getCxn *)

Lemma getCxn_cases zkUrls cxnTimeout p :
  let urls := Js.join "," zkUrls in
  let timeout := match cxnTimeout with
                 | Some t => if (t =? 0)%Z then DEFAULT_ZK_CXN_TIMEOUT else t
                 | None => DEFAULT_ZK_CXN_TIMEOUT
                 end in
  match Js.own_get (cxns p) urls with
  | Some cxn =>
      getCxn zkUrls cxnTimeout p
      = (inr cxn, Process (cxns p) (alter (_connect (handles p) Noop) cxn (objects p))
                          (S (handles p)))
  | None =>
      if Js.inherited urls
      then ∃ e, getCxn zkUrls cxnTimeout p = (inl e, p)
      else getCxn zkUrls cxnTimeout p
           = (inr (length (objects p)),
              Process (cxns p ++ [(urls, length (objects p))])
                      (objects p ++ [_connect (handles p) Noop (new_ZkCxn urls timeout)])
                      (S (handles p)))
  end.
Proof.
  cbn zeta. unfold getCxn, Js.read.
  destruct (Js.own_get (cxns p) (Js.join "," zkUrls)) as [c|] eqn:Hc.
  - by rewrite (put_same _ _ _ Hc).
  - destruct (Js.inherited (Js.join "," zkUrls)); [by eexists|].
    rewrite (put_new _ _ _ Hc). f_equal. f_equal.
    rewrite alter_app_r_alt by done. by rewrite Nat.sub_diag.
Qed.

Lemma own_get_app {V} (o : Js.object V) key v key' :
  Js.own_get (o ++ [(key, v)]) key'
  = match Js.own_get o key' with
    | Some v' => Some v'
    | None => if String.eqb key key' then Some v else None
    end.
Proof.
  induction o as [|[k v0] o IH]; cbn [app Js.own_get]; [done|].
  by destruct (String.eqb k key').
Qed.

Lemma getCxn_fresh N zkUrls cxnTimeout p :
  (∀ urls c, Js.own_get (cxns p) urls = Some c → N ≤ c) → N ≤ length (objects p) →
  let r := getCxn zkUrls cxnTimeout p in
  (∀ c, fst r = inr c → N ≤ c) ∧
  (Js.inherited (Js.join "," zkUrls) = false → ∃ c, fst r = inr c) ∧
  (∀ urls c, Js.own_get (cxns (snd r)) urls = Some c → N ≤ c) ∧
  N ≤ length (objects (snd r)).
Proof.
  intros Hreg Hlen. cbn zeta.
  pose proof (getCxn_cases zkUrls cxnTimeout p) as Hcases. cbn zeta in Hcases.
  destruct (Js.own_get (cxns p) (Js.join "," zkUrls)) as [c|] eqn:Hc.
  - rewrite Hcases. cbn [fst snd cxns objects]. rewrite length_alter.
    repeat split; [|by eexists|done|done]. intros c' [= <-]. by eapply Hreg.
  - destruct (Js.inherited (Js.join "," zkUrls)).
    + destruct Hcases as [e ->]. cbn [fst snd]. by repeat split.
    + rewrite Hcases. cbn [fst snd cxns objects]. rewrite length_app.
      repeat split; [by intros c' [= <-]|by eexists| |lia].
      intros urls c'. rewrite own_get_app.
      destruct (Js.own_get (cxns p) urls) as [c0|] eqn:H0.
      * intros [= <-]. by eapply Hreg.
      * destruct (String.eqb _ urls); [by intros [= <-]|done].
Qed.

Lemma getCxns_fresh N reqs : ∀ p,
  (∀ urls c, Js.own_get (cxns p) urls = Some c → N ≤ c) → N ≤ length (objects p) →
  Forall (λ req, Js.inherited (Js.join "," (fst req)) = false) reqs →
  Forall (λ r, ∃ c, r = inr c ∧ N ≤ c) (fst (getCxns reqs p)).
Proof.
  induction reqs as [|req reqs IH]; intros p Hreg Hlen Hown; [constructor|].
  apply Forall_cons in Hown as [Hreq Hown]. cbn [getCxns].
  destruct (getCxn_fresh N (fst req) (snd req) p Hreg Hlen) as (Hc & Hr & Hreg' & Hlen').
  destruct (getCxn (fst req) (snd req) p) as [r p']. cbn [fst snd] in *.
  specialize (IH p' Hreg' Hlen' Hown). destruct (getCxns reqs p') as [rs p''].
  cbn [fst]. constructor; [|done]. destruct (Hr Hreq) as [c ->]. exists c. eauto.
Qed.

(** [getCxn] keeps the table and the objects in order, so the condition
    holds in every process that [getCxn] built. *)
Lemma getCxn_registry_ok zkUrls cxnTimeout p :
  registry_ok p → registry_ok (snd (getCxn zkUrls cxnTimeout p)).
Proof.
  intros [Hreg Hobjs].
  assert (∀ objs c, Forall has_handle_unless_closed objs →
            Forall has_handle_unless_closed (alter (_connect (handles p) Noop) c objs))
    as Halter.
  { intros objs c Hall. apply Forall_alter; [done|]. intros s _ Hs.
    apply _connect_has_handle. destruct Hs as [->|Hzk]; [by intros [|]|done]. }
  pose proof (getCxn_cases zkUrls cxnTimeout p) as Hcases. cbn zeta in Hcases.
  destruct (Js.own_get (cxns p) (Js.join "," zkUrls)) as [c|] eqn:Hc.
  - rewrite Hcases. split; cbn [snd cxns objects].
    + intros urls c' Hl. rewrite length_alter. eauto.
    + by apply Halter.
  - destruct (Js.inherited (Js.join "," zkUrls)).
    + destruct Hcases as [e ->]. by split.
    + rewrite Hcases. split; cbn [snd cxns objects].
      * intros urls c'. rewrite own_get_app, length_app. cbn [length].
        destruct (Js.own_get (cxns p) urls) as [c0|] eqn:H0.
        -- intros [= <-]. specialize (Hreg _ _ H0). lia.
        -- destruct (String.eqb _ urls); [intros [= <-]; lia|done].
      * apply Forall_app. split; [done|]. constructor; [|constructor].
        apply _connect_has_handle. by intros [|].
Qed.

(** The sessions in the table are distinct objects that exist, in every
    process that [getCxn] built. *)
Lemma getCxn_distinct zkUrls cxnTimeout p :
  NoDup (cxns p).*2 → Forall (λ c, c < length (objects p)) (cxns p).*2 →
  let p' := snd (getCxn zkUrls cxnTimeout p) in
  NoDup (cxns p').*2 ∧ Forall (λ c, c < length (objects p')) (cxns p').*2.
Proof.
  intros Hnd Hlt. cbn zeta.
  pose proof (getCxn_cases zkUrls cxnTimeout p) as Hcases. cbn zeta in Hcases.
  destruct (Js.own_get (cxns p) (Js.join "," zkUrls)) as [c|] eqn:Hc.
  - rewrite Hcases. cbn [snd cxns objects]. by rewrite length_alter.
  - destruct (Js.inherited (Js.join "," zkUrls)).
    + by destruct Hcases as [e ->].
    + rewrite Hcases. cbn [snd cxns objects]. rewrite fmap_app, length_app.
      cbn [fmap list_fmap snd length]. split.
      * apply NoDup_app. split; [done|]. split; [|by apply NoDup_singleton].
        intros c Hin Hc'. apply list_elem_of_singleton in Hc' as ->.
        rewrite Forall_forall in Hlt. specialize (Hlt _ Hin). lia.
      * apply Forall_app. split; [|repeat constructor; lia].
        eapply Forall_impl; [exact Hlt|]. intros c Hlt'. cbv beta in Hlt'. lia.
Qed.

Lemma first_error_none k : first_error (replicate k (@None jserror)) = None.
Proof. unfold first_error. induction k as [|k IH]; [done|]. exact IH. Qed.

Lemma filter_none_replicate k :
  length (filter (λ e : option jserror, e = None) (replicate k None)) = k.
Proof.
  induction k as [|k IH]; [done|]. cbn [replicate].
  rewrite filter_cons_True by done. cbn [length]. by rewrite IH.
Qed.

(** What [close] leaves of a session, by its state. *)
Lemma close_cases callback s :
  has_handle_unless_closed s →
  fst (close callback s) = None ∧
  match _cxnState s with
  | CLOSED =>
      snd (close callback s) = onConnection (CloseBound callback) s ∧
      invoked (snd (close callback s)) = invoked s ∧
      gates (snd (close callback s)) = gates s ++ [Gate (CloseBound callback) false true]
  | _ =>
      ∃ before, invoked (snd (close callback s)) = before ++ [Invocation None callback None]
  end.
Proof.
  intros Hwf. destruct (close_closes callback s Hwf) as (s' & Hclose & _).
  split; [by rewrite Hclose|]. clear s' Hclose.
  unfold close. destruct (_cxnState s) eqn:Hst.
  2: { unfold onConnection. by rewrite Hst. }
  all: destruct Hwf as [Hc|[h Hh]]; [congruence|].
  all: unfold _close; destruct (_changeState_fields CLOSED None s) as (Hzk & _ & _);
    rewrite Hzk, Hh; cbn [snd record_call invoked]; by eexists.
Qed.

(** C9 (as the code has it). [shutdown] on a process whose registered
    sessions are distinct and each CLOSED or with a handle. The table
    [cxns] is empty afterwards. [close] has been called once on every
    session that was registered, whatever became of the others: none of
    the calls raised, the sessions closed are a rearrangement of those in
    the table, taken in the order of registration when no endpoint string
    is an array index, and each of them is CLOSED. A session that was not
    CLOSED has had the callback of its [close] called, without error,
    before [shutdown] returns; for a session that was CLOSED already the
    bound [_close] waits in a new gate of that session and nothing was
    called. [close] passes no error on: [async.forEach] has counted one
    callback for each session that was not CLOSED, and the callback of
    [shutdown] has been called, once and without error, exactly when that
    is all of them. Every later [getCxn] for endpoints whose joined string
    is not the name of a member of [Object.prototype] hands back an object
    made after the swap, none of those that were closed, the first one
    being a new [ZkCxn] on which [_connect] has run. *)
Theorem shutdown_behaviour p :
  NoDup (cxns p).*2 →
  Forall (λ c, ∃ s, objects p !! c = Some s ∧ has_handle_unless_closed s) (cxns p).*2 →
  let rep := fst (shutdown p) in
  let p' := snd (shutdown p) in
  let answered := length (filter (λ c, is_closed (objects p) c = false) (closed rep)) in
  cxns p' = [] ∧
  (raised rep = None ∧ Permutation (closed rep) (cxns p).*2 ∧
   (Forall (λ kv, Js.array_index (fst kv) = None) (cxns p) → closed rep = (cxns p).*2)) ∧
  Forall (λ c, ∃ s, objects p' !! c = Some s ∧ _cxnState s = CLOSED) (closed rep) ∧
  (∀ i c s, closed rep !! i = Some c → objects p !! c = Some s →
     objects p' !! c = Some (snd (close (ForEachCb i) s)) ∧
     fst (close (ForEachCb i) s) = None ∧
     match _cxnState s with
     | CLOSED =>
         snd (close (ForEachCb i) s) = onConnection (CloseBound (ForEachCb i)) s ∧
         invoked (snd (close (ForEachCb i) s)) = invoked s ∧
         gates (snd (close (ForEachCb i) s))
         = gates s ++ [Gate (CloseBound (ForEachCb i)) false true]
     | _ =>
         ∃ before, invoked (snd (close (ForEachCb i) s))
                   = before ++ [Invocation None (ForEachCb i) None]
     end) ∧
  (Async.fe_completed (forEach rep) = answered ∧
   Async.fe_reported (forEach rep)
   = if decide (answered = length (closed rep)) then [None] else []) ∧
  (∀ reqs, Forall (λ req, Js.inherited (Js.join "," (fst req)) = false) reqs →
     Forall (λ r, ∃ c, r = inr c ∧ length (objects p) ≤ c ∧ c ∉ closed rep)
            (fst (getCxns reqs p'))) ∧
  (∀ zkUrls cxnTimeout,
     let urls := Js.join "," zkUrls in
     let timeout := match cxnTimeout with
                    | Some t => if (t =? 0)%Z then DEFAULT_ZK_CXN_TIMEOUT else t
                    | None => DEFAULT_ZK_CXN_TIMEOUT
                    end in
     Js.inherited urls = false →
     fst (getCxn zkUrls cxnTimeout p') = inr (length (objects p')) ∧
     objects (snd (getCxn zkUrls cxnTimeout p')) !! length (objects p')
     = Some (_connect (handles p') Noop (new_ZkCxn urls timeout)) ∧
     cxns (snd (getCxn zkUrls cxnTimeout p')) = [(urls, length (objects p'))]).
Proof.
  intros Hnd Hwf rep p' answered.
  set (toClose := Underscore.values (cxns p)) in *.
  assert (Permutation toClose (cxns p).*2) as Hperm.
  { unfold toClose, Underscore.values. by rewrite enumerate_perm. }
  rewrite <- Hperm in Hnd, Hwf.
  set (rep0 := ShutdownReport [] (Async.forEach_start (length toClose)) None).
  pose proof (shutdown_each_spec toClose 0 (objects p) rep0 Hnd Hwf eq_refl) as Hall.
  cbn zeta in Hall. destruct Hall as (Hclosed & Hraised & Hlen & Heach & _ & Hfe).
  assert (shutdown p = (fst (shutdown_each 0 toClose (objects p) rep0),
                        Process [] (snd (shutdown_each 0 toClose (objects p) rep0))
                                (handles p))) as Hsh.
  { unfold shutdown. fold toClose. fold rep0. by destruct (shutdown_each _ _ _ _). }
  subst rep p' answered. rewrite Hsh. cbn [fst snd cxns objects handles].
  rewrite Hclosed, Hraised, Hfe. cbn [closed rep0 forEach app].
  rewrite Forall_forall in Hwf.
  split; [done|]. split; [|split; [|split; [|split; [|split]]]].
  - (* the sessions closed *)
    split; [done|]. split; [done|]. intros Hnamed.
    unfold toClose, Underscore.values. by rewrite enumerate_named.
  - (* all CLOSED *)
    apply Forall_forall. intros c Hc.
    destruct (Hwf c Hc) as (s & Hs & Hwfs).
    apply list_elem_of_lookup in Hc as [j Hj].
    rewrite (Heach j c s Hj Hs).
    destruct (close_closes (ForEachCb (0 + j)) s Hwfs) as (s' & -> & Hst). eauto.
  - (* what close did to each *)
    intros i c s Hi Hs.
    split; [exact (Heach i c s Hi Hs)|].
    apply close_cases. destruct (Hwf c) as (s0 & Hs0 & Hwf0);
      [by eapply list_elem_of_lookup_2|]. congruence.
  - (* the report *)
    set (k := length (filter (λ c, is_closed (objects p) c = false) toClose)).
    assert (k ≤ length toClose) as Hk by apply length_filter.
    destruct (decide (length toClose = 0)) as [Hz|Hnz].
    { assert (k = 0) as -> by lia. rewrite Hz. done. }
    pose proof (forEach_reports (length toClose) (replicate k None) ltac:(lia)) as Hrep.
    rewrite length_replicate in Hrep. specialize (Hrep Hk). cbn zeta in Hrep.
    destruct Hrep as (_ & -> & _ & ->).
    rewrite filter_none_replicate, first_error_none. done.
  - (* later getCxn calls *)
    intros reqs Hown.
    pose proof (getCxns_fresh (length (objects p)) reqs
                  (Process [] (snd (shutdown_each 0 toClose (objects p) rep0)) (handles p)))
      as Hfresh.
    cbn [cxns objects] in Hfresh. rewrite Hlen in Hfresh.
    eapply Forall_impl; [apply Hfresh; [by intros urls c Hc|done|done]|].
    intros r (c & -> & Hc). exists c. split; [done|]. split; [done|]. intros Hin.
    destruct (Hwf c Hin) as (s & Hs & _). apply lookup_lt_Some in Hs. lia.
  - (* the first getCxn after the swap *)
    intros zkUrls cxnTimeout. cbn zeta. intros Hown.
    pose proof (getCxn_cases zkUrls cxnTimeout
                  (Process [] (snd (shutdown_each 0 toClose (objects p) rep0)) (handles p)))
      as Hcases.
    cbn zeta in Hcases. cbn [cxns Js.own_get] in Hcases.
    rewrite Hown in Hcases. rewrite Hcases. cbn [fst snd cxns objects handles app].
    split; [done|]. split; [|done].
    by rewrite lookup_app_r, Nat.sub_diag.
Qed.

Lemma shutdown_behaviour_witness :
  let p := two_cxns in
  let rep := fst (shutdown p) in
  let p' := snd (shutdown p) in
  let answered := length (filter (λ c, is_closed (objects p) c = false) (closed rep)) in
  cxns p' = [] ∧
  (raised rep = None ∧ Permutation (closed rep) (cxns p).*2 ∧
   (Forall (λ kv, Js.array_index (fst kv) = None) (cxns p) → closed rep = (cxns p).*2)) ∧
  Forall (λ c, ∃ s, objects p' !! c = Some s ∧ _cxnState s = CLOSED) (closed rep) ∧
  (∀ i c s, closed rep !! i = Some c → objects p !! c = Some s →
     objects p' !! c = Some (snd (close (ForEachCb i) s)) ∧
     fst (close (ForEachCb i) s) = None ∧
     match _cxnState s with
     | CLOSED =>
         snd (close (ForEachCb i) s) = onConnection (CloseBound (ForEachCb i)) s ∧
         invoked (snd (close (ForEachCb i) s)) = invoked s ∧
         gates (snd (close (ForEachCb i) s))
         = gates s ++ [Gate (CloseBound (ForEachCb i)) false true]
     | _ =>
         ∃ before, invoked (snd (close (ForEachCb i) s))
                   = before ++ [Invocation None (ForEachCb i) None]
     end) ∧
  (Async.fe_completed (forEach rep) = answered ∧
   Async.fe_reported (forEach rep)
   = if decide (answered = length (closed rep)) then [None] else []) ∧
  (∀ reqs, Forall (λ req, Js.inherited (Js.join "," (fst req)) = false) reqs →
     Forall (λ r, ∃ c, r = inr c ∧ length (objects p) ≤ c ∧ c ∉ closed rep)
            (fst (getCxns reqs p'))) ∧
  (∀ zkUrls cxnTimeout,
     let urls := Js.join "," zkUrls in
     let timeout := match cxnTimeout with
                    | Some t => if (t =? 0)%Z then DEFAULT_ZK_CXN_TIMEOUT else t
                    | None => DEFAULT_ZK_CXN_TIMEOUT
                    end in
     Js.inherited urls = false →
     fst (getCxn zkUrls cxnTimeout p') = inr (length (objects p')) ∧
     objects (snd (getCxn zkUrls cxnTimeout p')) !! length (objects p')
     = Some (_connect (handles p') Noop (new_ZkCxn urls timeout)) ∧
     cxns (snd (getCxn zkUrls cxnTimeout p')) = [(urls, length (objects p'))]).
Proof.
  apply (shutdown_behaviour two_cxns).
  - apply (bool_decide_unpack _). by vm_compute.
  - vm_compute. repeat constructor; eexists; (split; [reflexivity|right; by eexists]).
Defined.

(** C9 (as stated) fails, in two places. The one session of the process
    was closed by its user and its handle has reported closed, so that
    [close] parks the bound [_close] at the gate of the session: when
    [shutdown] returns its callback has not been called, and when the
    timer of the gate runs the bound [_close] it raises the TypeError of
    [this._zk.close()] on the missing handle before the callback of
    [close] is reached: the error of this close is reported to nobody.
    And a [getCxn] after the swap for the endpoint [constructor] finds the
    member the new table inherits from [Object.prototype], constructs
    nothing and raises. *)
Theorem shutdown_leaves_close_error_unreported :
  let p := closed_registered in
  let rep := fst (shutdown p) in
  let p' := snd (shutdown p) in
  let s0 := run [OnConnected Noop 7; CallClose (Caller 1); OnClosed 1] connecting_cxn in
  let s1 := snd (close (ForEachCb 0) s0) in
  let expired := timer_expires 0 s1 in
  (cxns p = [("127.0.0.1:2181", 0)] ∧ objects p = [s0] ∧
   _cxnState s0 = CLOSED ∧ _zk s0 = None) ∧
  (closed rep = [0] ∧ raised rep = None ∧ objects p' = [s1] ∧
   Async.fe_reported (forEach rep) = []) ∧
  (gate_pending 0 (CloseBound (ForEachCb 0)) s1 ∧
   calls_via 0 expired
   = [Invocation (Some 0) (CloseBound (ForEachCb 0))
        (Some (JsError (timed_out_message 8000)))] ∧
   fst (_close (ForEachCb 0) expired)
   = Some (TypeError "Cannot call method 'close' of null") ∧
   Forall (λ i, callee i ≠ ForEachCb 0) (invoked (snd (_close (ForEachCb 0) expired)))) ∧
  getCxn ["constructor"] None p'
  = (inl (TypeError "Object function Object() { [native code] } has no method '_connect'"),
     p').
Proof.
  cbn zeta. split; [by vm_compute|]. split; [by vm_compute|]. split; [|by vm_compute].
  split; [by vm_compute|]. split; [by vm_compute|]. split; [by vm_compute|].
  vm_compute. by repeat constructor.
Qed.

(** On the process with two sessions still CONNECTING: both are closed,
    in the order of their registration, both callbacks arrive before
    [shutdown] returns, and its callback has received [null]; asking for
    the first endpoint again gives object 2. *)
Example shutdown_two_cxns :
  let rep := fst (shutdown two_cxns) in
  closed rep = [0; 1] ∧
  Async.fe_reported (forEach rep) = [None] ∧
  fst (getCxn ["127.0.0.1:2181"] None (snd (shutdown two_cxns))) = inr 2 ∧
  fst (getCxn ["127.0.0.1:2181"] None two_cxns) = inr 0.
Proof. by vm_compute. Qed.

(** Endpoint strings that are array indices are visited first, in
    numeric order, whatever the order of registration. *)
Example shutdown_index_keys_first :
  let p := snd (getCxns [(["zk:2181"], None); (["10"], None); (["9"], None)]
                  (Process [] [] 0)) in
  (cxns p).*2 = [0; 1; 2] ∧ closed (fst (shutdown p)) = [2; 1; 0].
Proof. by vm_compute. Qed.

End RegistryFacts.

(** ** The connection gate *)

Module GateFacts.

Lemma good_ext og s s' :
  gates s' = gates s → invoked s' = invoked s → good og s → good og s'.
Proof.
  intros Hg Hi [Hwf Htr]. split.
  - unfold log_wf in *. by rewrite Hg, Hi.
  - destruct og as [[g cb]|]; [|done].
    unfold tracked, gate_pending, gate_resolved, calls_via in *. by rewrite Hg, Hi.
Qed.

Lemma calls_via_record_call g v f err s :
  calls_via g (record_call v f err s)
  = calls_via g s ++ (if decide (v = Some g) then [Invocation v f err] else []).
Proof.
  unfold calls_via. cbn [record_call invoked]. by rewrite filter_app.
Qed.

Lemma good_record_none og f err s : good og s → good og (record_call None f err s).
Proof.
  intros [Hwf Htr]. split.
  - unfold log_wf in *. cbn [record_call invoked gates].
    apply Forall_app. split; [done|]. by repeat constructor.
  - destruct og as [[g cb]|]; [|done].
    unfold tracked, gate_pending, gate_resolved in *.
    rewrite calls_via_record_call, decide_False, app_nil_r by done. done.
Qed.

Lemma log_wf_not_via s g : log_wf s → length (gates s) ≤ g → calls_via g s = [].
Proof.
  unfold log_wf, calls_via. intros Hwf Hg.
  induction Hwf as [|i l Hi Hl IH]; [done|].
  rewrite filter_cons_False; [done|]. intros Hv. specialize (Hi g Hv). lia.
Qed.

Lemma good_call_once og g' err s : good og s → good og (call_once g' err s).
Proof.
  intros Hgood. unfold call_once.
  destruct (gates s !! g') as [[cb' r' t']|] eqn:Hg'; [|done].
  cbn [ran originalCallback]. destruct r'; [done|].
  pose proof (lookup_lt_Some _ _ _ Hg') as Hlt.
  destruct Hgood as [Hwf Htr]. split.
  - unfold log_wf in *. cbn [record_call set_gates invoked gates].
    rewrite length_insert. apply Forall_app. split; [done|].
    repeat constructor. cbn [via]. by intros g [= <-].
  - destruct og as [[g cb]|]; [|done].
    unfold tracked, gate_pending, gate_resolved in *.
    rewrite calls_via_record_call.
    change (calls_via g (set_gates _ s)) with (calls_via g s).
    cbn [record_call set_gates gates]. destruct (decide (g' = g)) as [->|Hne].
    + rewrite decide_True by done. rewrite list_lookup_insert_eq by done.
      destruct Htr as [[Hgt Hcalls]|[Hgt _]]; [|congruence].
      rewrite Hg' in Hgt. injection Hgt as ->. right. rewrite Hcalls. eauto.
    + rewrite decide_False by congruence. rewrite app_nil_r.
      by rewrite list_lookup_insert_ne.
Qed.

Lemma good_emit og to data listeners : ∀ s, good og s → good og (emit to data listeners s).
Proof.
  unfold emit. induction listeners as [|l listeners IH]; intros s Hgood; [done|].
  cbn [fold_left]. apply IH. destruct (cxnStates_eqb (fst l) to); [|done].
  by apply good_call_once.
Qed.

Lemma good_changeState og to data s : good og s → good og (_changeState to data s).
Proof.
  intros Hgood. unfold _changeState. cbn [set_cxnState _stateEmitter].
  assert (good og (set_cxnState to s)) as Hs by (by eapply good_ext).
  destruct (_stateEmitter s); [by apply good_emit|done].
Qed.

Lemma good_gate_added og callback s :
  good og s → good og (set_gates (gates s ++ [Gate callback false true]) s).
Proof.
  intros [Hwf Htr]. split.
  - unfold log_wf in *. cbn [set_gates invoked gates]. rewrite length_app.
    eapply Forall_impl; [exact Hwf|]. intros i Hi g Hv. specialize (Hi g Hv). lia.
  - destruct og as [[g cb]|]; [|done].
    unfold tracked, gate_pending, gate_resolved in *.
    change (calls_via g (set_gates _ s)) with (calls_via g s). cbn [set_gates gates].
    destruct Htr as [[Hgt Hc]|[Hgt Hc]]; [left|right];
      (split; [by apply lookup_app_l_Some|done]).
Qed.

Lemma good_onConnection og callback s : good og s → good og (onConnection callback s).
Proof.
  intros Hgood. unfold onConnection. destruct (_cxnState s).
  - by apply good_changeState, good_record_none.
  - eapply good_ext; [| |by apply (good_gate_added og callback)]; done.
  - eapply good_ext; [| |by apply (good_gate_added og callback)]; done.
  - by apply good_record_none.
Qed.

Lemma good_timer_expires og g' s : good og s → good og (timer_expires g' s).
Proof.
  intros Hgood. unfold timer_expires.
  destruct (gates s !! g') as [[cb' r' t']|] eqn:Hg'; [|done].
  cbn [timer ran originalCallback]. destruct t'; [|done].
  pose proof (lookup_lt_Some _ _ _ Hg') as Hlt.
  set (s1 := set_gates (<[g':=Gate cb' r' false]> (gates s)) s).
  destruct r'.
  { (* already called: the wrapper does nothing *)
    unfold call_once. subst s1. cbn [set_gates gates].
    rewrite list_lookup_insert_eq by done. cbn [ran].
    destruct Hgood as [Hwf Htr]. split.
    - unfold log_wf in *. cbn [set_gates invoked gates]. by rewrite length_insert.
    - destruct og as [[g cb]|]; [|done].
      unfold tracked, gate_pending, gate_resolved in *.
      change (calls_via g (set_gates _ s)) with (calls_via g s). cbn [set_gates gates].
      destruct (decide (g' = g)) as [->|Hne].
      + destruct Htr as [[Hgt _]|[Hgt _]]; congruence.
      + by rewrite list_lookup_insert_ne. }
  unfold call_once. subst s1. cbn [set_gates gates].
  rewrite list_lookup_insert_eq by done. cbn [ran originalCallback].
  rewrite list_insert_insert_eq.
  destruct Hgood as [Hwf Htr]. split.
  - unfold log_wf in *. cbn [record_call set_gates invoked gates].
    rewrite length_insert. apply Forall_app. split; [done|].
    repeat constructor. cbn [via]. by intros g [= <-].
  - destruct og as [[g cb]|]; [|done].
    unfold tracked, gate_pending, gate_resolved in *.
    rewrite calls_via_record_call.
    change (calls_via g (set_gates _ _)) with (calls_via g s).
    cbn [record_call set_gates gates]. destruct (decide (g' = g)) as [->|Hne].
    + rewrite decide_True by done. rewrite list_lookup_insert_eq by done.
      destruct Htr as [[Hgt Hcalls]|[Hgt _]]; [|congruence].
      rewrite Hg' in Hgt. injection Hgt as ->. right. rewrite Hcalls. eauto.
    + rewrite decide_False by congruence. rewrite app_nil_r.
      by rewrite list_lookup_insert_ne.
Qed.

Lemma good_connect og fresh callback s : good og s → good og (_connect fresh callback s).
Proof.
  intros Hgood. unfold _connect.
  assert (good og (match _zk s with
                   | Some _ =>
                       _changeState ERROR (Some (JsError "Connection is closed!"))
                         (record_call None (OnceOf callback)
                            (Some (JsError "Connection is closed!")) s)
                   | None =>
                       match _stateEmitter (set_zk (Some fresh) (_changeState CONNECTING None s)) with
                       | None => set_stateEmitter (Some [])
                                   (set_zk (Some fresh) (_changeState CONNECTING None s))
                       | Some _ => set_zk (Some fresh) (_changeState CONNECTING None s)
                       end
                   end)) as Hrest.
  { destruct (_zk s).
    - by apply good_changeState, good_record_none.
    - pose proof (good_changeState og CONNECTING None s Hgood) as H1.
      destruct (_stateEmitter _); eapply good_ext; [| |exact H1| | |exact H1]; done. }
  destruct (_cxnState s); [exact Hrest|exact Hrest| |].
  - by apply good_onConnection.
  - by apply good_record_none.
Qed.

Lemma good_close og callback s : good og s → good og (snd (close callback s)).
Proof.
  intros Hgood. unfold close, _close.
  pose proof (good_changeState og CLOSED None s Hgood) as H1.
  destruct (_cxnState s); cbn [snd];
    [| by apply good_onConnection | |];
    (destruct (_zk (_changeState CLOSED None s)); cbn [snd];
     [by apply good_record_none|done]).
Qed.

Lemma good_on_closed og fresh s : good og s → good og (on_closed fresh s).
Proof.
  intros Hgood. unfold on_closed.
  assert (good og (set_stateEmitter None (set_zk None s))) as H1
    by (by eapply good_ext).
  change (_cxnState (set_stateEmitter None (set_zk None s))) with (_cxnState s).
  destruct (_cxnState s); [|done| |]; by apply good_connect, good_changeState.
Qed.

Lemma good_step og s e : good og s → good og (step s e).
Proof.
  intros Hgood. destruct e; cbn [step].
  - by apply good_timer_expires.
  - unfold on_connected. apply good_record_none, good_changeState.
    by eapply good_ext.
  - by apply good_changeState.
  - by apply good_on_closed.
  - by apply good_onConnection.
  - by apply good_connect.
  - by apply good_close.
Qed.

Lemma good_run og evs : ∀ s, good og s → good og (run evs s).
Proof.
  unfold run. induction evs as [|e evs IH]; intros s Hgood; [done|].
  cbn [fold_left]. by apply IH, good_step.
Qed.

Lemma good_new urls timeout : good None (new_ZkCxn urls timeout).
Proof. split; [constructor|done]. Qed.

Lemma grows_same s s' : invoked s' = invoked s → grows s s'.
Proof. unfold grows. by intros ->. Qed.


Lemma grows_call_once g err s : grows s (call_once g err s).
Proof.
  unfold grows, call_once. destruct (gates s !! g) as [gt|]; [|done].
  destruct (ran gt); [done|]. cbn [record_call set_gates invoked]. by apply prefix_app_r.
Qed.









(** Once the callback of a gate has been called, the call stays the only
    one whatever happens next. *)
Lemma resolved_stable g callback s s' i :
  grows s s' → good (Some (g, callback)) s' → calls_via g s = [i] → calls_via g s' = [i].
Proof.
  unfold grows. intros [new Hnew] [_ Htr] Hi.
  unfold tracked, gate_pending, gate_resolved, calls_via in *.
  rewrite Hnew, filter_app, Hi in Htr |- *.
  destruct Htr as [[_ Hc]|[_ [err Hc]]]; [done|].
  injection Hc as _ Hnil. by rewrite Hnil.
Qed.

Lemma onConnection_registers callback s :
  log_wf s → _cxnState s ≠ CONNECTED → _cxnState s ≠ ERROR →
  good (Some (length (gates s), callback)) (onConnection callback s) ∧
  gate_pending (length (gates s)) callback (onConnection callback s) ∧
  ∃ listeners, _stateEmitter (onConnection callback s) = Some listeners ∧
               (CONNECTED, length (gates s)) ∈ listeners ∧
               (ERROR, length (gates s)) ∈ listeners.
Proof.
  intros Hwf Hc He.
  assert (onConnection callback s
          = set_stateEmitter (Some (default [] (_stateEmitter s)
                                    ++ [(CONNECTED, length (gates s));
                                        (ERROR, length (gates s))]))
              (set_gates (gates s ++ [Gate callback false true]) s)) as ->.
  { unfold onConnection. by destruct (_cxnState s). }
  assert (gate_pending (length (gates s)) callback
            (set_stateEmitter (Some (default [] (_stateEmitter s)
                                     ++ [(CONNECTED, length (gates s));
                                         (ERROR, length (gates s))]))
               (set_gates (gates s ++ [Gate callback false true]) s))) as Hpending.
  { split.
    - cbn [set_stateEmitter set_gates gates]. by apply list_lookup_middle.
    - change (calls_via (length (gates s)) (set_stateEmitter _ (set_gates _ s)))
        with (calls_via (length (gates s)) s).
      by apply log_wf_not_via. }
  split; [|split; [done|]].
  - split; [|by left]. eapply (good_ext None); [| |apply (good_gate_added None callback s)];
      [done|done|by split].
  - eexists. split; [done|]. rewrite !elem_of_app, !elem_of_cons. eauto 10.
Qed.

Lemma timer_resolves g callback s :
  gate_pending g callback s →
  calls_via g (timer_expires g s)
  = [Invocation (Some g) callback (Some (JsError (timed_out_message (_timeout s))))] ∧
  gates (timer_expires g s) !! g = Some (Gate callback true false).
Proof.
  intros [Hgt Hcalls]. pose proof (lookup_lt_Some _ _ _ Hgt) as Hlt.
  unfold timer_expires. rewrite Hgt. cbn [timer ran originalCallback].
  unfold call_once. cbn [set_gates gates].
  rewrite list_lookup_insert_eq by done. cbn [ran originalCallback].
  rewrite calls_via_record_call, decide_True by done.
  change (calls_via g (set_gates _ _)) with (calls_via g s). rewrite Hcalls.
  split; [done|]. cbn [record_call set_gates gates].
  by rewrite list_insert_insert_eq, list_lookup_insert_eq.
Qed.

Lemma call_once_resolves g callback data s :
  gate_pending g callback s →
  calls_via g (call_once g data s) = [Invocation (Some g) callback data] ∧
  gates (call_once g data s) !! g = Some (Gate callback true false).
Proof.
  intros [Hgt Hcalls]. pose proof (lookup_lt_Some _ _ _ Hgt) as Hlt.
  unfold call_once. rewrite Hgt. cbn [ran originalCallback].
  rewrite calls_via_record_call, decide_True by done.
  change (calls_via g (set_gates _ _)) with (calls_via g s). rewrite Hcalls.
  split; [done|]. cbn [record_call set_gates gates].
  by rewrite list_lookup_insert_eq.
Qed.

Lemma call_once_other_pending g g' callback data s :
  g' ≠ g → gate_pending g callback s → gate_pending g callback (call_once g' data s).
Proof.
  intros Hne [Hgt Hcalls]. unfold call_once.
  destruct (gates s !! g') as [gt|]; [|done]. destruct (ran gt); [done|].
  split.
  - cbn [record_call set_gates gates]. by rewrite list_lookup_insert_ne.
  - rewrite calls_via_record_call, decide_False by congruence.
    rewrite app_nil_r. exact Hcalls.
Qed.

Lemma cxnStates_eqb_eq a b : cxnStates_eqb a b = true ↔ a = b.
Proof. destruct a, b; simpl; split; congruence. Qed.

(** An emission for [to] reaches the wrapper of every gate registered for
    [to]: a pending one among them is resolved with the data emitted. *)
Lemma emit_resolves g callback to data listeners : ∀ s,
  good (Some (g, callback)) s →
  calls_via g s = [Invocation (Some g) callback data] ∨
    (gate_pending g callback s ∧ (to, g) ∈ listeners) →
  calls_via g (emit to data listeners s) = [Invocation (Some g) callback data].
Proof.
  induction listeners as [|l listeners IH]; intros s Hgood Hcase.
  - destruct Hcase as [Hdone|[_ Hin]]; [done|]. by apply elem_of_nil in Hin.
  - unfold emit. cbn [fold_left]. fold (emit to data listeners).
    set (s1 := if cxnStates_eqb (fst l) to then call_once (snd l) data s else s).
    assert (good (Some (g, callback)) s1) as Hgood1.
    { subst s1. destruct (cxnStates_eqb (fst l) to); [by apply good_call_once|done]. }
    assert (grows s s1) as Hgrows.
    { subst s1. destruct (cxnStates_eqb (fst l) to);
        [apply grows_call_once|by apply grows_same]. }
    apply IH; [done|].
    destruct Hcase as [Hdone|[Hpending Hin]].
    { left. by eapply resolved_stable. }
    subst s1. destruct l as [e g']. cbn [fst snd] in *.
    destruct (cxnStates_eqb e to) eqn:Heqb.
    + apply cxnStates_eqb_eq in Heqb as ->.
      destruct (decide (g' = g)) as [->|Hne].
      * left. by apply call_once_resolves.
      * right. split; [by apply call_once_other_pending|].
        apply elem_of_cons in Hin as [Heq|Hin]; [congruence|done].
    + right. split; [done|].
      apply elem_of_cons in Hin as [Heq|Hin]; [|done].
      injection Heq as -> ->. by rewrite (proj2 (cxnStates_eqb_eq e e) eq_refl) in Heqb.
Qed.

Lemma changeState_resolves g callback to data listeners s :
  good (Some (g, callback)) s → gate_pending g callback s →
  _stateEmitter s = Some listeners → (to, g) ∈ listeners →
  calls_via g (_changeState to data s) = [Invocation (Some g) callback data] ∧
  gates (_changeState to data s) !! g = Some (Gate callback true false).
Proof.
  intros Hgood Hpending Hem Hin.
  assert (calls_via g (_changeState to data s) = [Invocation (Some g) callback data]) as Hc.
  { unfold _changeState. cbn [set_cxnState _stateEmitter]. rewrite Hem.
    apply emit_resolves; [by eapply good_ext|]. right. split; [|done].
    destruct Hpending as [Hgt Hcalls]. by split. }
  split; [done|].
  destruct (good_changeState _ to data s Hgood) as [_ [[_ Hp]|[Hr _]]]; [congruence|done].
Qed.



(** The three ways a gate resolves, on a session that is CONNECTING: by
    the connected event (the later expiry of the timer then calls
    nothing), by the timer (the later connected event then calls nothing),
    and by an ERROR emitted when [_connect] is called on a session that was
    closed while its handle still exists. *)
Example gate_resolved_by_connected :
  let s' := run [OnConnected Noop 7; TimerExpires 0; OnConnected Noop 7]
                (onConnection (Caller 1) connecting_cxn) in
  calls_via 0 s' = [Invocation (Some 0) (Caller 1) None] ∧
  gates s' !! 0 = Some (Gate (Caller 1) true false).
Proof. by vm_compute. Qed.

Example gate_resolved_by_timer :
  let s' := run [TimerExpires 0; OnConnected Noop 7; TimerExpires 0]
                (onConnection (Caller 1) connecting_cxn) in
  calls_via 0 s' = [Invocation (Some 0) (Caller 1) (Some (JsError "Timed out after 8000"))] ∧
  gates s' !! 0 = Some (Gate (Caller 1) true false).
Proof. by vm_compute. Qed.

Example gate_resolved_by_error :
  let s := run [CallClose Noop] connecting_cxn in
  let s' := run [CallConnect 1 Noop; TimerExpires 0; OnConnected Noop 7]
                (onConnection (Caller 1) s) in
  _cxnState s = CLOSED ∧
  calls_via 0 s' = [Invocation (Some 0) (Caller 1) (Some (JsError "Connection is closed!"))] ∧
  gates s' !! 0 = Some (Gate (Caller 1) true false).
Proof. by vm_compute. Qed.

End GateFacts.

(* ===================================================================== *)
(** * Further properties of the lock protocol and of the sessions *)
(* ===================================================================== *)

Module NameFacts.

Lemma slice_to_from n : ∀ s, Js.slice_to n s +:+ Js.slice_from n s = s.
Proof.
  induction n as [|n IH]; intros [|a s]; try done.
  cbn [Js.slice_to Js.slice_from]. change (String a ?x +:+ ?y) with (String a (x +:+ y)).
  by rewrite IH.
Qed.

(** The two slices [lock] takes of [name] put together are [name]. *)
Lemma lockpath_lockname name : lockpath_of name +:+ lockname_of name = name.
Proof. apply slice_to_from. Qed.

Lemma lastIndexOf_from_shift c s : ∀ i, (0 ≤ i)%Z →
  Js.lastIndexOf_from i c s
  = if (Js.lastIndexOf_from 0 c s =? -1)%Z then (-1)%Z
    else (i + Js.lastIndexOf_from 0 c s)%Z.
Proof.
  induction s as [|a s IH]; intros i Hi; [done|].
  cbn [Js.lastIndexOf_from]. rewrite (IH (i + 1)%Z), (IH (0 + 1)%Z) by lia.
  pose proof (LockFacts.lastIndexOf_from_range c s 0) as Hr.
  destruct (Z.eqb_spec (Js.lastIndexOf_from 0 c s) (-1)) as [Heq|Hne].
  - rewrite Z.eqb_refl. destruct (Ascii.eqb a c); simpl; [lia|done].
  - destruct (Z.eqb_spec (i + 1 + Js.lastIndexOf_from 0 c s) (-1)); [lia|].
    destruct (Z.eqb_spec (0 + 1 + Js.lastIndexOf_from 0 c s) (-1)); [lia|].
    destruct (Z.eqb_spec (0 + 1 + Js.lastIndexOf_from 0 c s) (-1)); lia.
Qed.

Lemma lastIndexOf_cons c a s :
  Js.lastIndexOf c (String a s)
  = if (Js.lastIndexOf c s =? -1)%Z then (if Ascii.eqb a c then 0 else -1)%Z
    else (1 + Js.lastIndexOf c s)%Z.
Proof.
  unfold Js.lastIndexOf. cbn [Js.lastIndexOf_from]. rewrite (lastIndexOf_from_shift c s (0 + 1)) by lia.
  pose proof (LockFacts.lastIndexOf_from_range c s 0) as Hr.
  destruct (Z.eqb_spec (Js.lastIndexOf_from 0 c s) (-1)) as [Heq|Hne]; [done|].
  destruct (Z.eqb_spec (0 + 1 + Js.lastIndexOf_from 0 c s) (-1)); lia.
Qed.

Lemma lastIndexOf_range c s : (-1 ≤ Js.lastIndexOf c s < Z.of_nat (String.length s))%Z.
Proof.
  induction s as [|a s IH]; [done|].
  rewrite lastIndexOf_cons. cbn [String.length].
  destruct (Z.eqb_spec (Js.lastIndexOf c s) (-1)); [destruct (Ascii.eqb a c)|]; lia.
Qed.

(** What [lastIndexOf] finds: the needle, with no needle after it. *)
Lemma lastIndexOf_found c s :
  Js.lastIndexOf c s ≠ (-1)%Z →
  let n := Z.to_nat (Js.lastIndexOf c s + 1) in
  Js.slice_last (Js.slice_to n s) = String c EmptyString ∧
  Js.lastIndexOf c (Js.slice_from n s) = (-1)%Z.
Proof.
  induction s as [|a s IH]; [done|].
  rewrite lastIndexOf_cons. pose proof (lastIndexOf_range c s) as Hr.
  destruct (Z.eqb_spec (Js.lastIndexOf c s) (-1)) as [Heq|Hne].
  - destruct (Ascii.eqb_spec a c) as [->|]; [|done]. intros _. cbn. done.
  - intros _. specialize (IH Hne). cbn zeta in *.
    replace (Z.to_nat (1 + Js.lastIndexOf c s + 1)) with (S (Z.to_nat (Js.lastIndexOf c s + 1)))
      by lia.
    set (n := Z.to_nat (Js.lastIndexOf c s + 1)) in *.
    destruct IH as [Hlast Hnone]. cbn [Js.slice_to Js.slice_from]. split; [|done].
    unfold Js.slice_last in *. cbn [String.length].
    destruct (String.length (Js.slice_to n s)) as [|m] eqn:Hlen.
    + destruct (Js.slice_to n s); [done|]. done.
    + replace (S (S m) - 1) with (S m) by lia. cbn [Js.slice_from].
      replace (S m - 1) with m in Hlast by lia. done.
Qed.

(** X1. [lock] cuts [name] at its last separator into [lockpath] and
    [lockname]: the two parts put together are [name], [lockname] holds no
    separator, a name without a separator has the empty [lockpath] and is
    its own [lockname], and every other [lockpath] ends with the
    separator. *)
Theorem lock_name_split name :
  lockpath_of name +:+ lockname_of name = name ∧
  Js.lastIndexOf slash (lockname_of name) = (-1)%Z ∧
  (Js.lastIndexOf slash name = (-1)%Z →
   lockpath_of name = "" ∧ lockname_of name = name) ∧
  (Js.lastIndexOf slash name ≠ (-1)%Z →
   Js.slice_last (lockpath_of name) = "/").
Proof.
  unfold lockpath_of, lockname_of. split; [apply slice_to_from|].
  destruct (Z.eq_dec (Js.lastIndexOf slash name) (-1)%Z) as [Heq|Hne].
  - rewrite Heq. cbn. repeat split; try done.
  - destruct (lastIndexOf_found slash name Hne) as [Hlast Hnone].
    repeat split; try done.
Qed.

Lemma lock_name_split_witness :
  Js.lastIndexOf slash "/plumber/wrench" ≠ (-1)%Z ∧
  lockpath_of "/plumber/wrench" +:+ lockname_of "/plumber/wrench" = "/plumber/wrench" ∧
  Js.slice_last (lockpath_of "/plumber/wrench") = "/".
Proof.
  assert (Js.lastIndexOf slash "/plumber/wrench" ≠ (-1)%Z) as Hsep by (by vm_compute).
  destruct (lock_name_split "/plumber/wrench") as (Happ & _ & _ & Hlast).
  split; [exact Hsep|]. split; [exact Happ|exact (Hlast Hsep)].
Defined.

End NameFacts.

Module SiblingFacts.

Lemma string_app_cons a x y : String a x +:+ y = String a (x +:+ y).
Proof. reflexivity. Qed.

Lemma string_length_app x : ∀ y, String.length (x +:+ y) = String.length x + String.length y.
Proof. induction x as [|a x IH]; intros y; [done|]. rewrite string_app_cons. cbn. by rewrite IH. Qed.

Lemma starts_with_app p : ∀ x, Js.starts_with p (p +:+ x) = true.
Proof.
  induction p as [|a p IH]; intros x; [done|]. rewrite string_app_cons.
  cbn [Js.starts_with]. by rewrite Ascii.eqb_refl.
Qed.

Lemma indexOf_prefix p x : Js.indexOf p (p +:+ x) = 0%Z.
Proof. unfold Js.indexOf. destruct (p +:+ x) eqn:E; cbn [Js.indexOf_from]; rewrite <- E, starts_with_app; done. Qed.

Lemma slice_from_app p : ∀ x, Js.slice_from (String.length p) (p +:+ x) = x.
Proof. induction p as [|a p IH]; intros x; [by destruct x|]. rewrite string_app_cons. cbn. apply IH. Qed.

Lemma suffixes_of_app lockname l1 l2 :
  suffixes_of lockname (l1 ++ l2) = suffixes_of lockname l1 ++ suffixes_of lockname l2.
Proof. unfold suffixes_of. by rewrite filter_app, map_app. Qed.

Lemma suffixes_of_siblings lockname suffixes :
  suffixes_of lockname (map (λ x, lockname +:+ x) suffixes) = suffixes.
Proof.
  unfold suffixes_of. induction suffixes as [|x l IH]; [done|].
  cbn [map]. rewrite filter_cons_True by (rewrite indexOf_prefix; lia).
  cbn [map]. by rewrite slice_from_app, IH.
Qed.

Lemma suffixes_of_others lockname others :
  Forall (λ n, Js.indexOf lockname n = (-1)%Z) others → suffixes_of lockname others = [].
Proof.
  unfold suffixes_of. induction 1 as [|n l Hn Hl IH]; [done|].
  by rewrite filter_cons_False by (intros H; by apply H).
Qed.

Lemma suffixes_of_perm lockname l1 l2 :
  Permutation l1 l2 → Permutation (suffixes_of lockname l1) (suffixes_of lockname l2).
Proof. intros Hp. unfold suffixes_of. apply Permutation_map. by rewrite Hp. Qed.

(** The suffixes the iterator extracts from a listing of siblings mixed
    with other nodes. *)
Lemma suffixes_of_split lockname children suffixes others :
  Permutation children (map (λ x, lockname +:+ x) suffixes ++ others) →
  Forall (λ n, Js.indexOf lockname n = (-1)%Z) others →
  Permutation (suffixes_of lockname children) suffixes.
Proof.
  intros Hp Ho.
  by rewrite (suffixes_of_perm _ _ _ Hp), suffixes_of_app, suffixes_of_siblings,
    (suffixes_of_others _ _ Ho), app_nil_r.
Qed.

(** X2. The iterator of [negotiateLock] keeps the children that contain
    [lockname] and cuts [lockname.length] characters off the front of each.
    When the listing consists, in any order, of [lockname] followed by a
    suffix and of nodes that do not contain [lockname], the array
    [sequenceNumbers] is the sorted array of exactly those suffixes. *)
Theorem sequenceNumbers_of_siblings lockname children suffixes others :
  Permutation children (map (λ x, lockname +:+ x) suffixes ++ others) →
  Forall (λ n, Js.indexOf lockname n = (-1)%Z) others →
  sequenceNumbers_of lockname children = Js.sort suffixes.
Proof.
  intros Hp Ho. rewrite RankFacts.sequenceNumbers_sort.
  apply SortFacts.sort_unique; [|apply SortFacts.sort_sorted].
  rewrite (suffixes_of_split _ _ _ _ Hp Ho). apply SortFacts.sort_perm.
Qed.

Lemma sequenceNumbers_of_siblings_witness :
  sequenceNumbers_of "wrench" ["wrench0000000012"; "wrench0000000007"; "pliers0000000003"]
  = Js.sort ["0000000012"; "0000000007"].
Proof.
  apply (sequenceNumbers_of_siblings "wrench" _ ["0000000012"; "0000000007"]
           ["pliers0000000003"]).
  - reflexivity.
  - by repeat constructor.
Defined.

Lemma own_position name suffix :
  Js.slice_from (String.length (lockpath_of name) + String.length (lockname_of name))
                (name +:+ suffix) = suffix.
Proof.
  rewrite <- string_length_app, NameFacts.lockpath_lockname.
  apply slice_from_app.
Qed.

End SiblingFacts.

Module SiblingRank.
Import SiblingFacts.

Lemma string_app_assoc x : ∀ y z, (x +:+ y) +:+ z = x +:+ (y +:+ z).
Proof. induction x as [|a x IH]; intros y z; [done|]. rewrite !string_app_cons. by rewrite IH. Qed.

Lemma sorted_lookup_le l i j x y :
  StronglySorted (λ a b, Js.sort_le a b = true) l →
  l !! i = Some x → l !! j = Some y → i ≤ j → Js.sort_le x y = true.
Proof.
  intros Hs Hi Hj Hij.
  rewrite <- (nth_lookup_Some _ _ EmptyString _ Hi), <- (nth_lookup_Some _ _ EmptyString _ Hj).
  apply UnderscoreFacts.sorted_nth; [done|done|]. by eapply lookup_lt_Some.
Qed.

Lemma ltb_seqnum width a b :
  fixed_width width a → fixed_width width b →
  String.ltb a b = true → (seqnum a < seqnum b)%N.
Proof.
  intros [Ha Hla] [Hb Hlb]. unfold String.ltb.
  rewrite (RankFacts.compare_seqnum a b Ha Hb) by congruence.
  destruct (N.compare_spec (seqnum a) (seqnum b)); [done|lia|done].
Qed.

Lemma rank_lowest name children suffixes others width p :
  Permutation children (map (λ x, lockname_of name +:+ x) suffixes ++ others) →
  Forall (λ n, Js.indexOf (lockname_of name) n = (-1)%Z) others →
  Forall (fixed_width width) suffixes → p ∈ suffixes →
  (∀ s, s ∈ suffixes → (seqnum p ≤ seqnum s)%N) →
  rank (lockpath_of name) (lockname_of name) (name +:+ p) children = Lowest.
Proof.
  intros Hperm Hothers Hw Hp Hmin.
  assert (sequenceNumbers_of (lockname_of name) children = Js.sort suffixes) as Hseq.
  { rewrite RankFacts.sequenceNumbers_sort.
    apply SortFacts.sort_unique; [|apply SortFacts.sort_sorted].
    rewrite (suffixes_of_split _ _ _ _ Hperm Hothers). apply SortFacts.sort_perm. }
  pose proof (SortFacts.sort_perm suffixes) as Hsp.
  pose proof (SortFacts.sort_sorted suffixes) as Hsorted.
  rewrite Forall_forall in Hw.
  unfold rank. rewrite own_position, Hseq.
  destruct (Js.sort suffixes) as [|h t] eqn:Hsort.
  { apply Permutation_sym, Permutation_nil in Hsp. subst. by apply elem_of_nil in Hp. }
  cbn [head]. rewrite bool_decide_eq_true_2; [done|]. f_equal.
  assert (h ∈ suffixes) as Hh by (rewrite Hsp; left).
  apply (RankFacts.seqnum_inj width); [by apply Hw|by apply Hw|].
  apply N.le_antisymm; [by apply Hmin|].
  apply StronglySorted_inv in Hsorted as [_ Hall].
  rewrite Hsp in Hp. apply elem_of_cons in Hp as [->|Hp]; [lia|].
  rewrite Forall_forall in Hall.
  apply (RankFacts.sort_le_seqnum width); [by apply Hw|apply Hw; rewrite Hsp; by right|].
  by apply Hall.
Qed.

Lemma rank_predecessor name children suffixes others width p s0 :
  Permutation children (map (λ x, lockname_of name +:+ x) suffixes ++ others) →
  Forall (λ n, Js.indexOf (lockname_of name) n = (-1)%Z) others →
  Forall (fixed_width width) suffixes → p ∈ suffixes →
  s0 ∈ suffixes → (seqnum s0 < seqnum p)%N →
  ∃ pred, pred ∈ suffixes ∧
          rank (lockpath_of name) (lockname_of name) (name +:+ p) children
          = After (name +:+ pred) ∧
          (seqnum pred < seqnum p)%N ∧
          ∀ s, s ∈ suffixes → (seqnum s < seqnum p)%N → (seqnum s ≤ seqnum pred)%N.
Proof.
  intros Hperm Hothers Hw Hp Hs0 Hlt.
  assert (sequenceNumbers_of (lockname_of name) children = Js.sort suffixes) as Hseq.
  { rewrite RankFacts.sequenceNumbers_sort.
    apply SortFacts.sort_unique; [|apply SortFacts.sort_sorted].
    rewrite (suffixes_of_split _ _ _ _ Hperm Hothers). apply SortFacts.sort_perm. }
  pose proof (SortFacts.sort_perm suffixes) as Hsp.
  pose proof (SortFacts.sort_sorted suffixes) as Hsorted.
  rewrite Forall_forall in Hw.
  destruct (RankFacts.rank_present (lockpath_of name) (lockname_of name) (name +:+ p)
              children) as (i & pred & Hi & Hpred & Hltb & Hrank).
  { rewrite own_position, Hseq. by rewrite <- Hsp. }
  { rewrite own_position, Hseq.
    destruct (Js.sort suffixes) as [|h t] eqn:Hsort; [done|]. cbn [head]. intros [= ->].
    apply StronglySorted_inv in Hsorted as [_ Hall]. rewrite Forall_forall in Hall.
    rewrite Hsp in Hs0. apply elem_of_cons in Hs0 as [->|Hs0]; [lia|].
    assert ((seqnum p ≤ seqnum s0)%N); [|lia].
    apply (RankFacts.sort_le_seqnum width);
      [by apply Hw|apply Hw; rewrite Hsp; by right|by apply Hall]. }
  rewrite own_position in Hi, Hltb. rewrite Hseq in Hi, Hpred.
  assert (pred ∈ suffixes) as Hpin
    by (rewrite Hsp; by eapply list_elem_of_lookup_2).
  assert ((seqnum pred < seqnum p)%N) as Hpl
    by (apply (ltb_seqnum width); [by apply Hw|by apply Hw|done]).
  exists pred. split; [done|]. split; [|split; [done|]].
  - rewrite Hrank. destruct pred as [|a pred].
    + destruct (Hw "" Hpin) as [_ Hlen]. destruct (Hw p Hp) as [_ Hlenp].
      destruct p; [done|]. simpl in *. congruence.
    + cbn [Js.truthy]. f_equal. rewrite <- string_app_assoc.
      by rewrite NameFacts.lockpath_lockname.
  - intros s Hs Hsl. rewrite Hsp in Hs. apply list_elem_of_lookup in Hs as [j Hj].
    destruct (decide (j ≤ i)) as [Hji|Hji].
    + apply (RankFacts.sort_le_seqnum width);
        [apply Hw; rewrite Hsp; by eapply list_elem_of_lookup_2|by apply Hw|].
      by eapply (sorted_lookup_le _ j i).
    + assert ((seqnum p ≤ seqnum s)%N); [|lia].
      apply (RankFacts.sort_le_seqnum width);
        [by apply Hw|apply Hw; rewrite Hsp; by eapply list_elem_of_lookup_2|].
      eapply (sorted_lookup_le _ (S i) j); [done|done|done|lia].
Qed.

(** X3. The rank of the session's own node among fixed-width siblings.
    Take a listing made of [lockname] followed by decimal suffixes of one
    width, mixed in any order with nodes that do not contain [lockname],
    and let the own node be [name] followed by one of the suffixes. If no
    sibling has a smaller sequence number the node is ranked lowest (the
    lock is taken); otherwise the node waits for [name] followed by the
    greatest suffix below its own, the immediate predecessor. *)
Theorem rank_among_siblings name children suffixes others width p :
  let lockname := lockname_of name in
  Permutation children (map (λ x, lockname +:+ x) suffixes ++ others) →
  Forall (λ n, Js.indexOf lockname n = (-1)%Z) others →
  Forall (fixed_width width) suffixes → p ∈ suffixes →
  let r := rank (lockpath_of name) lockname (name +:+ p) children in
  ((∀ s, s ∈ suffixes → (seqnum p ≤ seqnum s)%N) → r = Lowest) ∧
  (∀ s0, s0 ∈ suffixes → (seqnum s0 < seqnum p)%N →
     ∃ pred, pred ∈ suffixes ∧ r = After (name +:+ pred) ∧
             (seqnum pred < seqnum p)%N ∧
             ∀ s, s ∈ suffixes → (seqnum s < seqnum p)%N → (seqnum s ≤ seqnum pred)%N).
Proof.
  intros lockname Hperm Hothers Hw Hp r. split.
  - intros Hmin. by eapply rank_lowest.
  - intros s0 Hs0 Hlt. by eapply rank_predecessor.
Qed.

Lemma rank_among_siblings_witness :
  let suffixes := ["0000000012"; "0000000007"; "0000000009"] in
  let children := ["wrench0000000012"; "wrench0000000007"; "wrench0000000009";
                   "pliers0000000003"] in
  let r := rank "/plumber/" "wrench" "/plumber/wrench0000000009" children in
  ((∀ s, s ∈ suffixes → (seqnum "0000000009" ≤ seqnum s)%N) → r = Lowest) ∧
  (∀ s0, s0 ∈ suffixes → (seqnum s0 < seqnum "0000000009")%N →
     ∃ pred, pred ∈ suffixes ∧ r = After ("/plumber/wrench" +:+ pred) ∧
             (seqnum pred < seqnum "0000000009")%N ∧
             ∀ s, s ∈ suffixes → (seqnum s < seqnum "0000000009")%N →
                  (seqnum s ≤ seqnum pred)%N).
Proof.
  apply (rank_among_siblings "/plumber/wrench" _
           ["0000000012"; "0000000007"; "0000000009"] ["pliers0000000003"] 10
           "0000000009").
  - reflexivity.
  - by repeat constructor.
  - by repeat constructor.
  - right. right. left.
Defined.

End SiblingRank.

Module LoopFacts.

(** X4. One run of the iterator of [negotiateLock] for a node that has a
    predecessor [nextLowest]: the listing is followed by an exists call
    with a watch. Unless that call answers ZOK the iterator calls back
    without error and the loop takes another turn (an error of the call is
    not looked at). Otherwise [_watch] issues a second exists call: on
    ZNONODE or ZOK the iterator's callback is queued under [nextLowest] in
    [_watching] and nothing is called; on any other answer the callback
    receives a [ZkError] with the code and the message, which ends the
    loop. *)
Theorem negotiate_iterator_waits zk name node callback s calls nextLowest :
  let r := zk (listing_call name :: calls) in
  rc r = ZOK →
  rank (lockpath_of name) (lockname_of name) node (children r) = After nextLowest →
  let calls1 := a_exists nextLowest true :: listing_call name :: calls in
  let calls2 := a_exists nextLowest true :: calls1 in
  negotiate_iterator zk name node callback (s, calls)
  = if negb (rc (zk calls1) =? ZOK)%Z then (Callback None false, (s, calls1))
    else if (rc (zk calls2) =? ZNONODE)%Z || (rc (zk calls2) =? ZOK)%Z
         then (Queued nextLowest,
               (set_watching (watching_push nextLowest (UntilNext name node callback)
                                (_watching s)) s, calls2))
         else (Callback (Some (ZkError (rc (zk calls2)) (error (zk calls2)))) false,
               (s, calls2)).
Proof.
  intros r Hrc Hrank calls1 calls2.
  unfold negotiate_iterator, _getChildren, issue. fold (listing_call name). fold r.
  rewrite Hrc. cbn [negb Z.eqb ZOK snd]. rewrite Hrank.
  unfold _exists at 1. unfold issue. fold calls1.
  destruct (Z.eqb_spec (rc (zk calls1)) ZOK) as [Hok|Hno].
  - rewrite Hok. cbn [Z.eqb ZNONODE ZOK snd negb].
    rewrite (WatchFacts._watch_queues zk nextLowest (UntilNext name node callback) s calls1).
    fold calls2. by destruct (_ || _).
  - cbn [negb]. by destruct (rc (zk calls1) =? ZNONODE)%Z.
Qed.

Lemma negotiate_iterator_waits_witness :
  negotiate_iterator released_store "/orchard/tree" "/orchard/tree0000000002" (Caller 1)
    (connected_cxn, [])
  = (Queued "/orchard/tree0000000001",
     (set_watching
        (watching_push "/orchard/tree0000000001"
           (UntilNext "/orchard/tree" "/orchard/tree0000000002" (Caller 1))
           (_watching connected_cxn)) connected_cxn,
      [a_exists "/orchard/tree0000000001" true; a_exists "/orchard/tree0000000001" true;
       listing_call "/orchard/tree"])).
Proof.
  apply (negotiate_iterator_waits released_store "/orchard/tree" "/orchard/tree0000000002"
           (Caller 1) connected_cxn [] "/orchard/tree0000000001"); by vm_compute.
Defined.

(** The session after one run of the iterator. *)
Lemma negotiate_iterator_session zk name node callback s calls :
  let res := negotiate_iterator zk name node callback (s, calls) in
  match fst res with
  | Callback None true => fst (snd res) = set_locks (<[name := node]> (_locks s)) s
  | Queued path =>
      fst (snd res) = set_watching (watching_push path (UntilNext name node callback)
                                      (_watching s)) s
  | Callback (Some _) true => False
  | _ => fst (snd res) = s
  end.
Proof.
  unfold negotiate_iterator. destruct (_getChildren _ _ _ _) as [[e [ch|]] calls1]; [|done].
  cbn [snd]. destruct (rank _ _ _ _) as [|p|]; [done| |done].
  destruct (_exists zk p true calls1) as [[e1 [[]|]] calls2]; cbn [snd]; try done.
  rewrite WatchFacts._watch_queues. by destruct (_ || _).
Qed.

Lemma adds_no_delete_refl calls : adds_no_delete calls calls.
Proof. exists []. by split. Qed.

Lemma adds_no_delete_trans c1 c2 c3 :
  adds_no_delete c1 c2 → adds_no_delete c2 c3 → adds_no_delete c1 c3.
Proof.
  intros (n1 & -> & H1) (n2 & -> & H2). exists (n2 ++ n1).
  split; [by rewrite app_assoc|]. by apply Forall_app.
Qed.

Lemma adds_no_delete_one c calls :
  match c with a_delete_ _ _ | a_delete_member _ _ => False | _ => True end →
  adds_no_delete calls (c :: calls).
Proof. intros Hc. exists [c]. split; [done|]. by constructor. Qed.

Lemma _create_adds zk path value flags calls :
  adds_no_delete calls (snd (_create zk path value flags calls)).
Proof.
  unfold _create. destruct path as [|a path]; [apply adds_no_delete_refl|].
  destruct a as [[] [] [] [] [] [] [] []]; try apply adds_no_delete_refl.
  unfold issue. destruct (_ && _); by apply adds_no_delete_one.
Qed.

Lemma _createPath_adds zk path value flags calls :
  adds_no_delete calls (snd (_createPath zk path value flags calls)).
Proof.
  unfold _createPath. destruct (_ =? 0)%nat; [apply adds_no_delete_refl|].
  generalize (ancestor_paths
    (filter (λ i : string, Js.truthy i = true)
       (Js.split slash (if (Js.indexOf "/" path =? 0)%Z then Js.slice_from 1 path else path)))).
  intros paths. revert calls. induction paths as [|p paths IH]; intros calls.
  - apply adds_no_delete_refl.
  - cbn [Async.forEachSeries]. pose proof (_create_adds zk p value flags calls) as Hc.
    destruct (_create zk p value flags calls) as [[[e|] st] calls1]; cbn [fst snd] in *; [done|].
    eapply adds_no_delete_trans; [exact Hc|apply IH].
Qed.

Lemma _getChildren_adds zk path watch calls :
  adds_no_delete calls (snd (_getChildren zk path watch calls)).
Proof. unfold _getChildren, issue. destruct (negb _); by apply adds_no_delete_one. Qed.

Lemma _exists_adds zk path watch calls :
  adds_no_delete calls (snd (_exists zk path watch calls)).
Proof.
  unfold _exists, issue. destruct (_ =? ZNONODE)%Z; [by apply adds_no_delete_one|].
  destruct (_ =? ZOK)%Z; by apply adds_no_delete_one.
Qed.

Lemma negotiate_iterator_adds zk name node callback s calls :
  adds_no_delete calls (snd (snd (negotiate_iterator zk name node callback (s, calls)))).
Proof.
  unfold negotiate_iterator.
  pose proof (_getChildren_adds zk (lockpath_of name) false calls) as H1.
  destruct (_getChildren _ _ _ _) as [[e [ch|]] calls1]; cbn [snd] in *; [|done].
  destruct (rank _ _ _ _) as [|p|]; [done| |done].
  pose proof (_exists_adds zk p true calls1) as H2.
  destruct (_exists zk p true calls1) as [[e1 ex] calls2]; cbn [snd] in *.
  assert (adds_no_delete calls calls2) as H12 by (by eapply adds_no_delete_trans).
  destruct ex as [[]|]; [|done|done].
  unfold _watch. pose proof (_exists_adds zk p true calls2) as H3.
  destruct (_exists zk p true calls2) as [[[e3|] ex3] calls3]; cbn [fst snd] in *;
    by eapply adds_no_delete_trans.
Qed.

Lemma negotiateLock_effects fuel zk name node callback : ∀ s calls,
  let res := negotiateLock fuel zk name node callback (s, calls) in
  adds_no_delete calls (snd (snd res)) ∧
  match fst res with
  | Called None _ => fst (snd res) = set_locks (<[name := node]> (_locks s)) s
  | Parked path =>
      fst (snd res) = set_watching (watching_push path (UntilNext name node callback)
                                      (_watching s)) s
  | _ => fst (snd res) = s
  end.
Proof.
  induction fuel as [|fuel IH]; intros s calls; cbn zeta.
  - split; [apply adds_no_delete_refl|done].
  - cbn [negotiateLock].
    pose proof (negotiate_iterator_session zk name node callback s calls) as Hs.
    pose proof (negotiate_iterator_adds zk name node callback s calls) as Ha.
    cbn zeta in Hs.
    destruct (negotiate_iterator zk name node callback (s, calls)) as [it [s1 calls1]].
    cbn [fst snd] in *. destruct it as [[e|] [|]| | |]; cbn [fst snd]; try done.
    subst s1. specialize (IH s calls1). cbn zeta in IH. destruct IH as [IHa IHs].
    split; [by eapply adds_no_delete_trans|done].
Qed.

End LoopFacts.

Module LockEffects.
Import LoopFacts.

Lemma lock_gated_unfold fuel zk name txnId callback s calls :
  let calls0 := snd (_createPath zk (lockpath_of name) txnId 0 calls) in
  let created := _create zk name txnId 3 calls0 in
  lock_gated fuel zk name txnId callback None (s, calls)
  = match fst (_createPath zk (lockpath_of name) txnId 0 calls) with
    | Some e => (Called (Some e) None, (s, calls0))
    | None =>
        match fst (fst created) with
        | Some e => (Called (Some e) None, (s, snd created))
        | None => negotiateLock fuel zk name (default "" (snd (fst created))) callback
                    (s, snd created)
        end
    end.
Proof.
  cbn zeta. unfold lock_gated. change (Z.lor ZOO_SEQUENCE ZOO_EPHEMERAL) with 3%Z.
  destruct (_createPath _ _ _ _ _) as [[e|] calls0]; cbn [fst snd]; [done|].
  by destruct (_create zk name txnId 3 calls0) as [[[e|] st] calls1].
Qed.

Lemma _create_stat zk path value flags calls :
  fst (fst (_create zk path value flags calls)) = None →
  snd (fst (_create zk path value flags calls))
  = Some (stat (zk (a_create path value flags :: calls))) ∧
  snd (_create zk path value flags calls) = a_create path value flags :: calls.
Proof.
  unfold _create. destruct path as [|a path]; [done|].
  destruct a as [[] [] [] [] [] [] [] []]; try done.
  unfold issue. by destruct (_ && _).
Qed.

(** The session after the function of [lock] has run behind an open
    gate. *)
Lemma lock_gated_session fuel zk name txnId callback s calls :
  let res := lock_gated fuel zk name txnId callback None (s, calls) in
  let calls0 := snd (_createPath zk (lockpath_of name) txnId 0 calls) in
  let node := stat (zk (a_create name txnId 3 :: calls0)) in
  match fst res with
  | Called None _ => fst (snd res) = set_locks (<[name := node]> (_locks s)) s
  | Parked path =>
      fst (snd res) = set_watching (watching_push path (UntilNext name node callback)
                                      (_watching s)) s
  | _ => fst (snd res) = s
  end.
Proof.
  cbn zeta. rewrite lock_gated_unfold. cbn zeta.
  destruct (fst (_createPath _ _ _ _ _)); [done|].
  destruct (fst (fst (_create zk name txnId 3 _))) eqn:Hc; [done|].
  destruct (_create_stat _ _ _ _ _ Hc) as [-> ->]. cbn [default from_option id].
  apply negotiateLock_effects.
Qed.

(** X5. The function [lock] hands to [onConnection] writes the session in
    at most one place. When it calls back without error, the node the
    store made for the sequential create is recorded under [name] in
    [_locks]; when it waits for a predecessor, the iterator's callback is
    appended under the watched path in [_watching]; in every other case (an
    error of the gate, of the parent path or of the create, a raise or a
    silent return in the loop) the session is what it was. *)
Theorem lock_gated_effects fuel zk name txnId callback err s calls :
  let res := lock_gated fuel zk name txnId callback err (s, calls) in
  let calls0 := snd (_createPath zk (lockpath_of name) txnId 0 calls) in
  let node := stat (zk (a_create name txnId 3 :: calls0)) in
  match fst res with
  | Called None _ => fst (snd res) = set_locks (<[name := node]> (_locks s)) s
  | Parked path =>
      fst (snd res) = set_watching (watching_push path (UntilNext name node callback)
                                      (_watching s)) s
  | _ => fst (snd res) = s
  end.
Proof. destruct err as [e|]; [done|]. apply lock_gated_session. Qed.

(** X6. [lock] never deletes: whatever the state of the session and the
    answers of the store, the calls issued on the handle by [lock(name)]
    are creates, listings and exists calls, added to the calls made
    before. *)
Theorem lock_never_deletes fuel zk name txnId callback s calls :
  adds_no_delete calls (snd (snd (lock fuel zk name txnId callback (s, calls)))).
Proof.
  unfold lock. destruct (_cxnState s); try apply adds_no_delete_refl.
  rewrite lock_gated_unfold. cbn zeta.
  pose proof (_createPath_adds zk (lockpath_of name) txnId 0 calls) as H0.
  destruct (fst (_createPath _ _ _ _ _)); [done|].
  pose proof (_create_adds zk name txnId 3
                (snd (_createPath zk (lockpath_of name) txnId 0 calls))) as H1.
  assert (adds_no_delete calls
            (snd (_create zk name txnId 3
                    (snd (_createPath zk (lockpath_of name) txnId 0 calls))))) as H01
    by (by eapply adds_no_delete_trans).
  destruct (fst (fst (_create zk name txnId 3 _))); [done|].
  eapply adds_no_delete_trans; [exact H01|]. apply negotiateLock_effects.
Qed.



End LockEffects.

Module PathFacts.
Import SiblingFacts SiblingRank.

Lemma split_nonempty c s : Js.split c s ≠ [].
Proof.
  destruct s as [|a s]; [done|]. cbn [Js.split].
  destruct (Ascii.eqb a c); [done|]. by destruct (Js.split c s).
Qed.

Lemma split_slash_free s : slash_free s → Js.split slash s = [s].
Proof.
  unfold slash_free. induction s as [|a s IH]; [done|].
  rewrite NameFacts.lastIndexOf_cons.
  destruct (Z.eqb_spec (Js.lastIndexOf slash s) (-1)) as [Heq|Hne].
  - destruct (Ascii.eqb a slash) eqn:Ha; [done|]. intros _.
    cbn [Js.split]. rewrite Ha, (IH Heq). done.
  - pose proof (NameFacts.lastIndexOf_range slash s). lia.
Qed.

Lemma split_app_slash x : ∀ y, slash_free x →
  Js.split slash (x +:+ "/" +:+ y) = x :: Js.split slash y.
Proof.
  unfold slash_free. induction x as [|a x IH]; intros y.
  - intros _. done.
  - rewrite NameFacts.lastIndexOf_cons.
    destruct (Z.eqb_spec (Js.lastIndexOf slash x) (-1)) as [Heq|Hne].
    + destruct (Ascii.eqb a slash) eqn:Ha; [done|]. intros _.
      rewrite string_app_cons. cbn [Js.split]. rewrite Ha, (IH y Heq). done.
    + pose proof (NameFacts.lastIndexOf_range slash x). lia.
Qed.

(** [split] undoes [join] on strings without the separator. *)
Lemma split_join l :
  l ≠ [] → Forall slash_free l → Js.split slash (Js.join "/" l) = l.
Proof.
  intros Hne Hall. induction Hall as [|x l Hx Hl IH]; [done|].
  destruct l as [|y l].
  - cbn [Js.join]. by apply split_slash_free.
  - change (Js.join "/" (x :: y :: l)) with (x +:+ "/" +:+ Js.join "/" (y :: l)).
    rewrite split_app_slash by done. by rewrite IH.
Qed.

(** [_createPath] runs [_create] over the ancestor paths of the non-empty
    segments, and the segments of a joined path are its non-empty parts. *)
Lemma createPath_by_segments zk path value flags calls :
  _createPath zk path value flags calls
  = Async.forEachSeries
      (λ path calls, let '(res, calls) := _create zk path value flags calls in
                     (fst res, calls))
      (ancestor_paths (segments path)) calls ∧
  (∀ l, l ≠ [] → Forall slash_free l → path = Js.join "/" l →
        segments path = filter (λ i, Js.truthy i = true) l).
Proof.
  split.
  - unfold _createPath. rewrite CreatePathFacts.indexOf_slash_zero.
    assert (segments path
            = segments (if match path with String "/" _ => true | _ => false end
                        then Js.slice_from 1 path else path)) as Hseg.
    { destruct path as [|a path]; [done|].
      destruct a as [[] [] [] [] [] [] [] []]; done. }
    rewrite Hseg. fold (segments (if match path with String "/" _ => true | _ => false end
                                  then Js.slice_from 1 path else path)).
    destruct (if match path with String "/" _ => true | _ => false end
              then Js.slice_from 1 path else path) as [|a rest]; done.
  - intros l Hne Hall ->. unfold segments. by rewrite split_join.
Qed.

End PathFacts.

Module ParentFacts.
Import SiblingFacts SiblingRank PathFacts.

(** X8. [_createPath] depends on its path through the non-empty segments
    only: two paths with the same non-empty segments (a leading separator
    or not, doubled or trailing separators) issue the same calls and give
    the callback the same argument. *)
Theorem createPath_same_segments zk path1 path2 value flags calls :
  segments path1 = segments path2 →
  _createPath zk path1 value flags calls = _createPath zk path2 value flags calls.
Proof.
  intros Hseg.
  destruct (createPath_by_segments zk path1 value flags calls) as [-> _].
  destruct (createPath_by_segments zk path2 value flags calls) as [-> _].
  by rewrite Hseg.
Qed.

Lemma createPath_same_segments_witness :
  _createPath refusing_store "/a//b/" "v" 0 [] = _createPath refusing_store "a/b" "v" 0 [].
Proof. apply createPath_same_segments. by vm_compute. Defined.

Lemma string_app_nil_r x : x +:+ "" = x.
Proof. induction x as [|a x IH]; [done|]. rewrite string_app_cons. by rewrite IH. Qed.

Lemma join_snoc l y : l ≠ [] → Js.join "/" (l ++ [y]) = Js.join "/" l +:+ "/" +:+ y.
Proof.
  induction l as [|x l IH]; [done|]. intros _. destruct l as [|x' l].
  - done.
  - change (Js.join "/" ((x :: x' :: l) ++ [y]))
      with (x +:+ "/" +:+ Js.join "/" ((x' :: l) ++ [y])).
    rewrite IH by done.
    change (Js.join "/" (x :: x' :: l)) with (x +:+ "/" +:+ Js.join "/" (x' :: l)).
    by rewrite !string_app_assoc.
Qed.

Lemma lastIndexOf_app_slash x : ∀ leaf, slash_free leaf →
  Js.lastIndexOf slash (x +:+ "/" +:+ leaf) = Z.of_nat (String.length x).
Proof.
  induction x as [|a x IH]; intros leaf Hleaf.
  - change ("" +:+ "/" +:+ leaf) with (String "/" leaf).
    rewrite NameFacts.lastIndexOf_cons, Hleaf. done.
  - rewrite string_app_cons, NameFacts.lastIndexOf_cons, (IH leaf Hleaf).
    cbn [String.length]. destruct (Z.eqb_spec (Z.of_nat (String.length x)) (-1)); lia.
Qed.

Lemma slice_to_app p : ∀ y, Js.slice_to (String.length p) (p +:+ y) = p.
Proof.
  induction p as [|a p IH]; intros y; [by destruct y|].
  rewrite string_app_cons. cbn. by rewrite IH.
Qed.

Lemma name_parts x leaf :
  slash_free leaf →
  lockpath_of (x +:+ "/" +:+ leaf) = x +:+ "/" ∧ lockname_of (x +:+ "/" +:+ leaf) = leaf.
Proof.
  intros Hleaf. unfold lockpath_of, lockname_of.
  rewrite (lastIndexOf_app_slash x leaf Hleaf).
  replace (Z.to_nat (Z.of_nat (String.length x) + 1)) with (String.length (x +:+ "/"))
    by (rewrite string_length_app; cbn; lia).
  rewrite <- string_app_assoc. by rewrite slice_to_app, slice_from_app.
Qed.

Lemma slice_last_snoc x : Js.slice_last (x +:+ "/") = "/" ∧ Js.slice_drop_last (x +:+ "/") = x.
Proof.
  unfold Js.slice_last, Js.slice_drop_last. rewrite string_length_app. cbn [String.length].
  replace (String.length x + 1 - 1) with (String.length x) by lia.
  by rewrite slice_from_app, slice_to_app.
Qed.

Lemma filter_segments parts :
  Forall (λ p, slash_free p ∧ Js.truthy p = true) parts →
  filter (λ i, Js.truthy i = true) parts = parts.
Proof.
  induction 1 as [|p l [_ Hp] Hl IH]; [done|]. by rewrite filter_cons_True, IH.
Qed.

Lemma last_ancestor parts :
  parts ≠ [] → last (ancestor_paths parts) = Some ("/" +:+ Js.join "/" parts).
Proof.
  intros Hne. unfold ancestor_paths.
  destruct (length parts) as [|n] eqn:Hlen; [by destruct parts|].
  replace (seq 1 (S n)) with (seq 1 n ++ [S n]) by (by rewrite <- seq_S).
  rewrite map_app. cbn [map]. rewrite last_snoc. f_equal. f_equal. f_equal.
  rewrite <- Hlen. apply firstn_all.
Qed.

(** X9. The parent [lock] creates is the node it lists. For a name made of
    the separator-free, non-empty segments [parts] and the separator-free
    [leaf], [lockpath] is the name without [leaf] and [lockname] is [leaf];
    [_createPath] works on the segments [parts], the last path it creates
    is ["/" + parts.join("/")], and the listing of the iterator, which cuts
    the trailing separator off [lockpath], asks for that same path. *)
Theorem lock_lists_created_parent parts leaf :
  Forall (λ p, slash_free p ∧ Js.truthy p = true) parts → slash_free leaf →
  let name := "/" +:+ Js.join "/" (parts ++ [leaf]) in
  lockpath_of name +:+ leaf = name ∧
  lockname_of name = leaf ∧
  segments (lockpath_of name) = parts ∧
  listing_call name = a_get_children ("/" +:+ Js.join "/" parts) false ∧
  (parts ≠ [] → last (ancestor_paths parts) = Some ("/" +:+ Js.join "/" parts)).
Proof.
  intros Hparts Hleaf name.
  assert (Forall slash_free ("" :: parts)) as Hfree.
  { constructor; [done|]. eapply Forall_impl; [exact Hparts|]. by intros p [Hp _]. }
  set (x := Js.join "/" ("" :: parts)).
  assert (name = x +:+ "/" +:+ leaf) as Hname.
  { subst name x. rewrite <- (join_snoc ("" :: parts) leaf) by done.
    cbn [app]. by destruct (parts ++ [leaf]) eqn:E; [destruct parts|]. }
  destruct (name_parts x leaf Hleaf) as [Hpath Hlock]. rewrite <- Hname in Hpath, Hlock.
  assert (x = match parts with [] => "" | _ => "/" +:+ Js.join "/" parts end) as Hx.
  { subst x. by destruct parts. }
  split; [rewrite Hpath, Hname; apply string_app_assoc|]. split; [done|]. split; [|split].
  - rewrite Hpath. unfold segments.
    replace (x +:+ "/") with (Js.join "/" (("" :: parts) ++ [""])).
    2: { by rewrite join_snoc. }
    rewrite split_join; [|done|].
    2: { apply Forall_app. split; [done|]. by repeat constructor. }
    cbn [app]. rewrite filter_cons_False by done. rewrite filter_app, filter_segments by done.
    rewrite filter_cons_False by done. by rewrite filter_nil, app_nil_r.
  - unfold listing_call. rewrite Hpath.
    destruct (slice_last_snoc x) as [-> ->]. rewrite string_length_app. cbn [String.length].
    rewrite Hx. destruct parts as [|p parts]; [done|].
    rewrite string_app_cons. cbn [String.length]. rewrite String.eqb_refl.
    destruct (Nat.ltb_spec 1 (S (String.length ("" +:+ Js.join "/" (p :: parts))) + 1));
      [done|lia].
  - apply last_ancestor.
Qed.

Lemma lock_lists_created_parent_witness :
  let name := "/" +:+ Js.join "/" (["plumber"; "tools"] ++ ["wrench"]) in
  lockpath_of name +:+ "wrench" = name ∧
  lockname_of name = "wrench" ∧
  segments (lockpath_of name) = ["plumber"; "tools"] ∧
  listing_call name = a_get_children ("/" +:+ Js.join "/" ["plumber"; "tools"]) false ∧
  (["plumber"; "tools"] ≠ [] →
   last (ancestor_paths ["plumber"; "tools"])
   = Some ("/" +:+ Js.join "/" ["plumber"; "tools"])).
Proof.
  apply (lock_lists_created_parent ["plumber"; "tools"] "wrench").
  - by repeat constructor.
  - reflexivity.
Defined.

End ParentFacts.

Module SessionFacts.

Lemma same_tables_refl s : same_tables s s.
Proof. by repeat split. Qed.

Lemma same_tables_trans s1 s2 s3 : same_tables s1 s2 → same_tables s2 s3 → same_tables s1 s3.
Proof. unfold same_tables. intros (-> & -> & -> & ->) (-> & -> & -> & ->). done. Qed.

Lemma same_tables_call_once g err s : same_tables s (call_once g err s).
Proof.
  unfold call_once. destruct (gates s !! g) as [gt|]; [|apply same_tables_refl].
  destruct (ran gt); by repeat split.
Qed.

Lemma same_tables_emit to data listeners : ∀ s, same_tables s (emit to data listeners s).
Proof.
  unfold emit. induction listeners as [|l listeners IH]; intros s; [apply same_tables_refl|].
  cbn [fold_left]. eapply same_tables_trans; [|apply IH].
  destruct (cxnStates_eqb (fst l) to); [apply same_tables_call_once|apply same_tables_refl].
Qed.

Lemma same_tables_changeState to data s : same_tables s (_changeState to data s).
Proof.
  unfold _changeState. cbn [set_cxnState _stateEmitter].
  destruct (_stateEmitter s); [|by repeat split].
  eapply same_tables_trans; [|apply same_tables_emit]. by repeat split.
Qed.

Lemma same_tables_onConnection callback s : same_tables s (onConnection callback s).
Proof.
  unfold onConnection. destruct (_cxnState s); try by repeat split.
  eapply same_tables_trans; [|apply same_tables_changeState]. by repeat split.
Qed.

Lemma same_tables_connect fresh callback s : same_tables s (_connect fresh callback s).
Proof.
  unfold _connect.
  assert (same_tables s (match _zk s with
                   | Some _ =>
                       _changeState ERROR (Some (JsError "Connection is closed!"))
                         (record_call None (OnceOf callback)
                            (Some (JsError "Connection is closed!")) s)
                   | None =>
                       match _stateEmitter (set_zk (Some fresh) (_changeState CONNECTING None s)) with
                       | None => set_stateEmitter (Some [])
                                   (set_zk (Some fresh) (_changeState CONNECTING None s))
                       | Some _ => set_zk (Some fresh) (_changeState CONNECTING None s)
                       end
                   end)) as Hrest.
  { destruct (_zk s).
    - eapply same_tables_trans; [|apply same_tables_changeState]. by repeat split.
    - eapply same_tables_trans; [apply (same_tables_changeState CONNECTING None s)|].
      destruct (_stateEmitter _); by repeat split. }
  destruct (_cxnState s); [exact Hrest|exact Hrest| |].
  - apply same_tables_onConnection.
  - by repeat split.
Qed.

Lemma same_tables_step s e : same_tables s (step s e).
Proof.
  destruct e; cbn [step].
  - unfold timer_expires. destruct (gates s !! g) as [gt|]; [|apply same_tables_refl].
    destruct (timer gt); [|apply same_tables_refl].
    eapply same_tables_trans; [|apply same_tables_call_once]. by repeat split.
  - unfold on_connected.
    eapply same_tables_trans; [|by repeat split].
    eapply same_tables_trans; [|apply same_tables_changeState]. by repeat split.
  - apply same_tables_changeState.
  - unfold on_closed.
    change (_cxnState (set_stateEmitter None (set_zk None s))) with (_cxnState s).
    destruct (_cxnState s); [|by repeat split| |];
      (eapply same_tables_trans; [|apply same_tables_connect]);
      (eapply same_tables_trans; [|apply same_tables_changeState]); by repeat split.
  - apply same_tables_onConnection.
  - apply same_tables_connect.
  - unfold close, _close. destruct (_cxnState s); cbn [snd];
      [| apply same_tables_onConnection | |];
      (destruct (_zk (_changeState CLOSED None s)); cbn [snd];
       [eapply same_tables_trans; [apply same_tables_changeState|by repeat split]
       |apply same_tables_changeState]).
Qed.

Lemma run_timeout evs : ∀ s, _timeout (run evs s) = _timeout s.
Proof.
  unfold run. induction evs as [|e evs IH]; intros s; [done|].
  cbn [fold_left]. rewrite IH. by destruct (same_tables_step s e) as (_ & -> & _).
Qed.

(** X10. No event of a session (the expiry of a timer, the connected,
    connecting and closed events of the handle, [onConnection], [_connect],
    [close]) writes the endpoint string, the timeout, the table of held
    locks or the table of watches: after any sequence of them the four are
    what they were. In particular a session that is closed, or that lost
    its handle and reconnected, still lists the locks it held. *)
Theorem events_keep_tables evs : ∀ s, same_tables s (run evs s).
Proof.
  unfold run. induction evs as [|e evs IH]; intros s; [apply same_tables_refl|].
  cbn [fold_left]. eapply same_tables_trans; [apply same_tables_step|apply IH].
Qed.

(** The closed event on a session that is not CLOSED: a new handle, a
    new emitter without listeners, and nothing called. *)
Lemma session_loss_reconnects fresh s :
  _cxnState s ≠ CLOSED →
  let s' := on_closed fresh s in
  _cxnState s' = CONNECTING ∧ _zk s' = Some fresh ∧ _stateEmitter s' = Some [] ∧
  invoked s' = invoked s ∧ gates s' = gates s.
Proof.
  intros Hst. unfold on_closed.
  change (_cxnState (set_stateEmitter None (set_zk None s))) with (_cxnState s).
  destruct (_cxnState s); try done.
Qed.

End SessionFacts.

Module OrphanFacts.

Lemma orphaned_ext g cb s s' :
  gates s' = gates s → invoked s' = invoked s → _stateEmitter s' = _stateEmitter s →
  orphaned g cb s → orphaned g cb s'.
Proof.
  intros Hg Hi He [[Hgt Hc] Hoff]. split; [split|].
  - by rewrite Hg.
  - unfold calls_via in *. by rewrite Hi.
  - unfold off_emitter. by rewrite He.
Qed.

Lemma orphaned_record_none g cb f err s :
  orphaned g cb s → orphaned g cb (record_call None f err s).
Proof.
  intros [[Hgt Hc] Hoff]. split; [split|]; [done| |done].
  by rewrite GateFacts.calls_via_record_call, decide_False, app_nil_r.
Qed.

Lemma orphaned_call_once g cb g' err s :
  g' ≠ g → orphaned g cb s → orphaned g cb (call_once g' err s).
Proof.
  intros Hne [Hp Hoff]. split; [by apply GateFacts.call_once_other_pending|].
  unfold off_emitter. by destruct (RegistryFacts.call_once_fields g' err s) as (_ & _ & ->).
Qed.

Lemma orphaned_emit g cb to data listeners : ∀ s,
  g ∉ listeners.*2 → orphaned g cb s → orphaned g cb (emit to data listeners s).
Proof.
  unfold emit. induction listeners as [|l listeners IH]; intros s Hno Ho; [done|].
  cbn [fold_left]. rewrite fmap_cons, not_elem_of_cons in Hno. destruct Hno as [Hl Hno].
  apply IH; [done|]. destruct (cxnStates_eqb (fst l) to); [|done].
  by apply orphaned_call_once.
Qed.

Lemma orphaned_changeState g cb to data s :
  orphaned g cb s → orphaned g cb (_changeState to data s).
Proof.
  intros Ho. unfold _changeState. cbn [set_cxnState _stateEmitter].
  assert (orphaned g cb (set_cxnState to s)) as Ho' by (by eapply orphaned_ext).
  destruct (_stateEmitter s) as [listeners|] eqn:He; [|done].
  apply orphaned_emit; [|done]. by apply (proj2 Ho).
Qed.

Lemma orphaned_onConnection g cb callback s :
  orphaned g cb s → orphaned g cb (onConnection callback s).
Proof.
  intros Ho.
  assert (orphaned g cb
            (set_stateEmitter (Some (default [] (_stateEmitter s)
                                     ++ [(CONNECTED, length (gates s));
                                         (ERROR, length (gates s))]))
               (set_gates (gates s ++ [Gate callback false true]) s))) as Hwait.
  { destruct Ho as [[Hgt Hc] Hoff]. pose proof (lookup_lt_Some _ _ _ Hgt) as Hlt.
    split; [split|].
    - cbn [set_stateEmitter set_gates gates]. by apply lookup_app_l_Some.
    - done.
    - intros listeners [= <-]. rewrite fmap_app, not_elem_of_app. split.
      + destruct (_stateEmitter s) as [l0|] eqn:He; [by apply Hoff|].
        cbn. apply not_elem_of_nil.
      + cbn. rewrite !not_elem_of_cons. repeat split; [lia|lia|apply not_elem_of_nil]. }
  unfold onConnection. destruct (_cxnState s); [|exact Hwait|exact Hwait|].
  - by apply orphaned_changeState, orphaned_record_none.
  - by apply orphaned_record_none.
Qed.

Lemma orphaned_connect g cb fresh callback s :
  orphaned g cb s → orphaned g cb (_connect fresh callback s).
Proof.
  intros Ho. unfold _connect.
  assert (orphaned g cb (match _zk s with
                   | Some _ =>
                       _changeState ERROR (Some (JsError "Connection is closed!"))
                         (record_call None (OnceOf callback)
                            (Some (JsError "Connection is closed!")) s)
                   | None =>
                       match _stateEmitter (set_zk (Some fresh) (_changeState CONNECTING None s)) with
                       | None => set_stateEmitter (Some [])
                                   (set_zk (Some fresh) (_changeState CONNECTING None s))
                       | Some _ => set_zk (Some fresh) (_changeState CONNECTING None s)
                       end
                   end)) as Hrest.
  { destruct (_zk s).
    - by apply orphaned_changeState, orphaned_record_none.
    - pose proof (orphaned_changeState g cb CONNECTING None s Ho) as [Hp Hoff].
      destruct (_stateEmitter (set_zk _ _)) eqn:He.
      + by eapply orphaned_ext.
      + split; [exact Hp|]. intros listeners [= <-]. apply not_elem_of_nil. }
  destruct (_cxnState s); [exact Hrest|exact Hrest| |].
  - by apply orphaned_onConnection.
  - by apply orphaned_record_none.
Qed.

Lemma orphaned_step g cb s e :
  e ≠ TimerExpires g → orphaned g cb s → orphaned g cb (step s e).
Proof.
  intros He Ho. destruct e; cbn [step].
  - assert (g0 ≠ g) as Hne by congruence.
    unfold timer_expires. destruct (gates s !! g0) as [gt|] eqn:Hg0; [|done].
    destruct (timer gt); [|done]. apply orphaned_call_once; [done|].
    destruct Ho as [[Hgt Hc] Hoff]. split; [split|]; [|done|done].
    cbn [set_gates gates]. by rewrite list_lookup_insert_ne.
  - unfold on_connected. apply orphaned_record_none, orphaned_changeState.
    by eapply orphaned_ext.
  - by apply orphaned_changeState.
  - unfold on_closed.
    assert (orphaned g cb (set_stateEmitter None (set_zk None s))) as Ho'.
    { destruct Ho as [Hp _]. split; [exact Hp|]. by intros l. }
    change (_cxnState (set_stateEmitter None (set_zk None s))) with (_cxnState s).
    destruct (_cxnState s); [|done| |]; by apply orphaned_connect, orphaned_changeState.
  - by apply orphaned_onConnection.
  - by apply orphaned_connect.
  - unfold close, _close.
    pose proof (orphaned_changeState g cb CLOSED None s Ho) as H1.
    destruct (_cxnState s); cbn [snd];
      [| by apply orphaned_onConnection | |];
      (destruct (_zk (_changeState CLOSED None s)); cbn [snd];
       [by apply orphaned_record_none|done]).
Qed.

Lemma orphaned_run g cb evs : ∀ s,
  Forall (λ e, e ≠ TimerExpires g) evs → orphaned g cb s → orphaned g cb (run evs s).
Proof.
  unfold run. induction evs as [|e evs IH]; intros s Hevs Ho; [done|].
  apply Forall_cons in Hevs as [He Hevs]. cbn [fold_left].
  apply IH; [done|]. by apply orphaned_step.
Qed.

Lemma on_closed_orphans g cb fresh s :
  gate_pending g cb s → orphaned g cb (on_closed fresh s).
Proof.
  intros Hp. unfold on_closed.
  assert (orphaned g cb (set_stateEmitter None (set_zk None s))) as Ho'.
  { split; [exact Hp|]. by intros l. }
  change (_cxnState (set_stateEmitter None (set_zk None s))) with (_cxnState s).
  destruct (_cxnState s); [|done| |]; by apply orphaned_connect, orphaned_changeState.
Qed.

(** X11. A caller waiting at the gate when the handle reports closed is
    not told of the reconnection. The handler drops the emitter with the
    registrations of the gate and, unless the session is CLOSED, makes a
    new handle and goes to CONNECTING. Whatever events follow, a later
    connected event included, the gate stays pending as long as its timer
    has not expired; the expiry then calls the callback, once, with the
    error ["Timed out after " + timeout]. *)
Theorem waiters_lost_on_session_loss g callback fresh s evs :
  gate_pending g callback s →
  Forall (λ e, e ≠ TimerExpires g) evs →
  (_cxnState s ≠ CLOSED →
   _cxnState (on_closed fresh s) = CONNECTING ∧ _zk (on_closed fresh s) = Some fresh) ∧
  gate_pending g callback (run evs (on_closed fresh s)) ∧
  calls_via g (timer_expires g (run evs (on_closed fresh s)))
  = [Invocation (Some g) callback (Some (JsError (timed_out_message (_timeout s))))].
Proof.
  intros Hp Hevs. split.
  { intros Hst. by destruct (SessionFacts.session_loss_reconnects fresh s Hst) as (? & ? & _). }
  pose proof (orphaned_run g callback evs _ Hevs (on_closed_orphans g callback fresh s Hp))
    as [Hp' _].
  split; [done|].
  destruct (GateFacts.timer_resolves g callback _ Hp') as [-> _].
  destruct (SessionFacts.same_tables_step s (OnClosed fresh)) as (_ & Ht & _).
  cbn [step] in Ht. by rewrite SessionFacts.run_timeout, Ht.
Qed.

Lemma waiters_lost_on_session_loss_witness :
  let s := onConnection (Caller 1) connecting_cxn in
  let evs := [OnConnected Noop 7; CallOnConnection (Caller 2)] in
  (_cxnState s ≠ CLOSED →
   _cxnState (on_closed 1 s) = CONNECTING ∧ _zk (on_closed 1 s) = Some 1) ∧
  gate_pending 0 (Caller 1) (run evs (on_closed 1 s)) ∧
  calls_via 0 (timer_expires 0 (run evs (on_closed 1 s)))
  = [Invocation (Some 0) (Caller 1) (Some (JsError (timed_out_message (_timeout s))))].
Proof.
  apply (waiters_lost_on_session_loss 0 (Caller 1) 1
           (onConnection (Caller 1) connecting_cxn)
           [OnConnected Noop 7; CallOnConnection (Caller 2)]).
  - by vm_compute.
  - by repeat constructor.
Defined.

End OrphanFacts.

Module CloseFacts.

Lemma listeners_ok_ext s s' :
  _stateEmitter s' = _stateEmitter s → listeners_ok s → listeners_ok s'.
Proof. unfold listeners_ok. by intros ->. Qed.

Lemma listeners_ok_onConnection callback s :
  listeners_ok s → listeners_ok (onConnection callback s).
Proof.
  intros Hok.
  assert (listeners_ok
            (set_stateEmitter (Some (default [] (_stateEmitter s)
                                     ++ [(CONNECTED, length (gates s));
                                         (ERROR, length (gates s))]))
               (set_gates (gates s ++ [Gate callback false true]) s))) as Hwait.
  { intros listeners [= <-]. apply Forall_app.
    split; [|constructor; [by left|constructor; [by right|constructor]]].
    destruct (_stateEmitter s) as [l0|] eqn:He; [by apply Hok|constructor]. }
  unfold onConnection. destruct (_cxnState s).
  - eapply listeners_ok_ext; [|exact Hok].
    by destruct (RegistryFacts._changeState_fields ERROR
                   (Some (JsError "ZooKeeper connection is in ERROR"))
                   (record_call None callback
                      (Some (JsError "ZooKeeper connection is in ERROR")) s)) as (_ & _ & ->).
  - exact Hwait.
  - exact Hwait.
  - by eapply listeners_ok_ext.
Qed.

Lemma listeners_ok_changeState to data s :
  listeners_ok s → listeners_ok (_changeState to data s).
Proof.
  intros Hok. eapply listeners_ok_ext; [|exact Hok].
  by destruct (RegistryFacts._changeState_fields to data s) as (_ & _ & ->).
Qed.

Lemma listeners_ok_connect fresh callback s :
  listeners_ok s → listeners_ok (_connect fresh callback s).
Proof.
  intros Hok. unfold _connect.
  assert (listeners_ok (match _zk s with
                   | Some _ =>
                       _changeState ERROR (Some (JsError "Connection is closed!"))
                         (record_call None (OnceOf callback)
                            (Some (JsError "Connection is closed!")) s)
                   | None =>
                       match _stateEmitter (set_zk (Some fresh) (_changeState CONNECTING None s)) with
                       | None => set_stateEmitter (Some [])
                                   (set_zk (Some fresh) (_changeState CONNECTING None s))
                       | Some _ => set_zk (Some fresh) (_changeState CONNECTING None s)
                       end
                   end)) as Hrest.
  { destruct (_zk s).
    - apply listeners_ok_changeState. by eapply listeners_ok_ext.
    - pose proof (listeners_ok_changeState CONNECTING None s Hok) as H1.
      destruct (_stateEmitter (set_zk _ _)) eqn:He.
      + by eapply listeners_ok_ext.
      + intros listeners [= <-]. constructor. }
  destruct (_cxnState s); [exact Hrest|exact Hrest| |].
  - by apply listeners_ok_onConnection.
  - by eapply listeners_ok_ext.
Qed.

Lemma listeners_ok_step s e : listeners_ok s → listeners_ok (step s e).
Proof.
  intros Hok. destruct e; cbn [step].
  - eapply listeners_ok_ext; [|exact Hok]. unfold timer_expires.
    destruct (gates s !! g) as [gt|]; [|done]. destruct (timer gt); [|done].
    by destruct (RegistryFacts.call_once_fields g
                   (Some (JsError (timed_out_message (_timeout s))))
                   (set_gates (<[g:=Gate (originalCallback gt) (ran gt) false]> (gates s)) s))
      as (_ & _ & ->).
  - unfold on_connected. eapply listeners_ok_ext; [|apply listeners_ok_changeState]; [done|].
    by eapply listeners_ok_ext.
  - by apply listeners_ok_changeState.
  - unfold on_closed.
    assert (listeners_ok (set_stateEmitter None (set_zk None s))) as H0 by (by intros l).
    change (_cxnState (set_stateEmitter None (set_zk None s))) with (_cxnState s).
    destruct (_cxnState s); [|done| |]; by apply listeners_ok_connect, listeners_ok_changeState.
  - by apply listeners_ok_onConnection.
  - by apply listeners_ok_connect.
  - unfold close, _close.
    pose proof (listeners_ok_changeState CLOSED None s Hok) as H1.
    destruct (_cxnState s); cbn [snd];
      [| by apply listeners_ok_onConnection | |];
      (destruct (_zk (_changeState CLOSED None s)); cbn [snd];
       [by eapply listeners_ok_ext|done]).
Qed.

Lemma listeners_ok_run evs : ∀ s, listeners_ok s → listeners_ok (run evs s).
Proof.
  unfold run. induction evs as [|e evs IH]; intros s Hok; [done|].
  cbn [fold_left]. by apply IH, listeners_ok_step.
Qed.

Lemma emit_unheard to data listeners : ∀ s,
  Forall (λ l, fst l ≠ to) listeners → emit to data listeners s = s.
Proof.
  unfold emit. induction listeners as [|l listeners IH]; intros s Hall; [done|].
  apply Forall_cons in Hall as [Hl Hall]. cbn [fold_left].
  destruct (cxnStates_eqb (fst l) to) eqn:Heq; [|by apply IH].
  by apply GateFacts.cxnStates_eqb_eq in Heq.
Qed.

(** X12. [close] on a session that is not CLOSED and has its handle, in
    any state the events of the file lead to: nothing is raised, the state
    becomes CLOSED and the callback of [close] is called once, without
    error. No other function is called: the listeners on the emitter are
    registered for CONNECTED and ERROR only, so the callers waiting at the
    gate are not notified of the close and keep waiting for their
    timers. *)
Theorem close_calls_back_alone urls timeout before callback :
  let s := run before (new_ZkCxn urls timeout) in
  _cxnState s ≠ CLOSED → is_Some (_zk s) →
  fst (close callback s) = None ∧
  _cxnState (snd (close callback s)) = CLOSED ∧
  invoked (snd (close callback s)) = invoked s ++ [Invocation None callback None] ∧
  gates (snd (close callback s)) = gates s ∧
  _stateEmitter (snd (close callback s)) = _stateEmitter s.
Proof.
  intros s Hst [h Hzk].
  assert (listeners_ok s) as Hok by (apply listeners_ok_run; by intros l).
  assert (_changeState CLOSED None s = set_cxnState CLOSED s) as Hquiet.
  { unfold _changeState. cbn [set_cxnState _stateEmitter].
    destruct (_stateEmitter s) as [listeners|] eqn:He; [|done].
    apply emit_unheard. eapply Forall_impl; [by apply Hok|].
    intros l [-> | ->]; done. }
  unfold close, _close. rewrite Hquiet. cbn [set_cxnState _zk]. rewrite Hzk.
  destruct (_cxnState s); done.
Qed.

Lemma close_calls_back_alone_witness :
  let s := run [CallConnect 0 Noop; CallOnConnection (Caller 1)]
               (new_ZkCxn "127.0.0.1:2181" 8000) in
  fst (close (Caller 2) s) = None ∧
  _cxnState (snd (close (Caller 2) s)) = CLOSED ∧
  invoked (snd (close (Caller 2) s)) = invoked s ++ [Invocation None (Caller 2) None] ∧
  gates (snd (close (Caller 2) s)) = gates s ∧
  _stateEmitter (snd (close (Caller 2) s)) = _stateEmitter s.
Proof.
  apply (close_calls_back_alone "127.0.0.1:2181" 8000
           [CallConnect 0 Noop; CallOnConnection (Caller 1)] (Caller 2)).
  - by vm_compute.
  - vm_compute. by eexists.
Defined.

(** X13. [close] on a session that is CLOSED and has no handle (one that
    was never connected, or one closed before, after the closed event of
    its handle). The call raises nothing and calls nothing: [_close], bound
    to the callback, is parked at the gate. When the timer of the gate
    expires the bound function is called, and [_close] then raises the
    TypeError of [this._zk.close()] on the missing handle; the callback of
    [close] is not called. *)
Theorem close_without_handle_raises urls timeout before callback :
  let s := run before (new_ZkCxn urls timeout) in
  _cxnState s = CLOSED → _zk s = None →
  let g := length (gates s) in
  let waiting := snd (close callback s) in
  let expired := timer_expires g waiting in
  fst (close callback s) = None ∧
  invoked waiting = invoked s ∧
  gate_pending g (CloseBound callback) waiting ∧
  calls_via g expired
  = [Invocation (Some g) (CloseBound callback) (Some (JsError (timed_out_message timeout)))] ∧
  fst (_close callback expired) = Some (TypeError "Cannot call method 'close' of null") ∧
  invoked (snd (_close callback expired)) = invoked expired.
Proof.
  intros s Hst Hzk g waiting expired.
  assert (log_wf s) as Hwf by (apply (GateFacts.good_run None), GateFacts.good_new).
  assert (waiting = onConnection (CloseBound callback) s) as Hw.
  { subst waiting. unfold close. by rewrite Hst. }
  destruct (GateFacts.onConnection_registers (CloseBound callback) s Hwf) as (_ & Hp & _);
    [congruence|congruence|]. fold g in Hp. rewrite <- Hw in Hp.
  assert (listeners_ok expired) as Hok.
  { apply (listeners_ok_step _ (TimerExpires g)). rewrite Hw.
    apply listeners_ok_onConnection, listeners_ok_run. by intros l. }
  assert (_zk expired = None ∧ invoked waiting = invoked s) as [Hzk' Hinv].
  { split; [|rewrite Hw; unfold onConnection; by rewrite Hst].
    subst expired. unfold timer_expires.
    destruct Hp as [Hgt _]. rewrite Hgt. cbn [timer originalCallback ran].
    destruct (RegistryFacts.call_once_fields g
                (Some (JsError (timed_out_message (_timeout waiting))))
                (set_gates (<[g:=Gate (CloseBound callback) false false]> (gates waiting))
                   waiting)) as (-> & _ & _).
    cbn [set_gates _zk]. rewrite Hw.
    by destruct (RegistryFacts.onConnection_fields (CloseBound callback) s) as (-> & _). }
  assert (_timeout waiting = timeout) as Ht.
  { change (_timeout (run [CallClose callback] (run before (new_ZkCxn urls timeout)))
            = timeout).
    by rewrite !SessionFacts.run_timeout. }
  assert (_changeState CLOSED None expired = set_cxnState CLOSED expired) as Hquiet.
  { unfold _changeState. cbn [set_cxnState _stateEmitter].
    destruct (_stateEmitter expired) as [listeners|] eqn:He; [|done].
    apply emit_unheard. eapply Forall_impl; [by apply Hok|].
    intros l [-> | ->]; done. }
  split; [unfold close; by rewrite Hst|]. split; [done|]. split; [done|].
  destruct (GateFacts.timer_resolves g (CloseBound callback) waiting Hp) as [Hc _].
  fold expired in Hc. rewrite Ht in Hc. split; [done|].
  unfold _close. rewrite Hquiet. cbn [set_cxnState _zk]. by rewrite Hzk'.
Qed.

Lemma close_without_handle_raises_witness :
  let s := run [CallConnect 0 Noop; OnConnected Noop 7; CallClose (Caller 1); OnClosed 1]
               (new_ZkCxn "127.0.0.1:2181" 8000) in
  let g := length (gates s) in
  let waiting := snd (close (Caller 2) s) in
  let expired := timer_expires g waiting in
  fst (close (Caller 2) s) = None ∧
  invoked waiting = invoked s ∧
  gate_pending g (CloseBound (Caller 2)) waiting ∧
  calls_via g expired
  = [Invocation (Some g) (CloseBound (Caller 2))
       (Some (JsError (timed_out_message 8000)))] ∧
  fst (_close (Caller 2) expired) = Some (TypeError "Cannot call method 'close' of null") ∧
  invoked (snd (_close (Caller 2) expired)) = invoked expired.
Proof.
  apply (close_without_handle_raises "127.0.0.1:2181" 8000
           [CallConnect 0 Noop; OnConnected Noop 7; CallClose (Caller 1); OnClosed 1]
           (Caller 2)); by vm_compute.
Defined.

(** X14. [shutdown] called again. The first [shutdown] empties the table
    of connections before it closes them, so a second [shutdown] finds
    nothing to close: it calls [close] on no session, changes nothing, and
    its callback is called at once, without error, whatever became of the
    callbacks of the first. *)
Theorem shutdown_twice p :
  shutdown (snd (shutdown p))
  = (ShutdownReport [] (Async.ForEachState 0 0 false [None]) None, snd (shutdown p)).
Proof.
  assert (∀ q, cxns q = [] → shutdown q
            = (ShutdownReport [] (Async.ForEachState 0 0 false [None]) None, q)) as Hempty.
  { intros [c o h] Hc. cbn in Hc. by subst c. }
  apply Hempty. unfold shutdown. by destruct (shutdown_each _ _ _ _).
Qed.

(** X15. [getCxn] keys the table by the joined endpoint strings. For
    endpoints whose joined string is not the name of a member of
    [Object.prototype], a second [getCxn] whose endpoints join to the same
    string hands back the object of the first, whatever timeout it asks
    for: no session is constructed, the table is unchanged, and the one
    thing done is another [_connect] on that object, which keeps the
    endpoint string and the timeout the object was constructed with. *)
Theorem getCxn_reuses zkUrls1 cxnTimeout1 zkUrls2 cxnTimeout2 p :
  registry_ok p → Js.join "," zkUrls1 = Js.join "," zkUrls2 →
  Js.inherited (Js.join "," zkUrls1) = false →
  let first := getCxn zkUrls1 cxnTimeout1 p in
  let second := getCxn zkUrls2 cxnTimeout2 (snd first) in
  ∃ cxn s,
    fst first = inr cxn ∧ fst second = inr cxn ∧
    cxns (snd second) = cxns (snd first) ∧
    length (objects (snd second)) = length (objects (snd first)) ∧
    objects (snd first) !! cxn = Some s ∧
    objects (snd second) !! cxn = Some (_connect (handles (snd first)) Noop s) ∧
    _timeout (_connect (handles (snd first)) Noop s) = _timeout s ∧
    _urls (_connect (handles (snd first)) Noop s) = _urls s.
Proof.
  intros Hok Hjoin Hown first second.
  pose proof (RegistryFacts.getCxn_registry_ok zkUrls1 cxnTimeout1 p Hok) as [Hreg _].
  fold first in Hreg.
  assert (∃ cxn, fst first = inr cxn ∧
                 Js.own_get (cxns (snd first)) (Js.join "," zkUrls2) = Some cxn)
    as (cxn & Hfirst & Hl).
  { subst first. rewrite <- Hjoin.
    pose proof (RegistryFacts.getCxn_cases zkUrls1 cxnTimeout1 p) as Hcases.
    cbn zeta in Hcases.
    destruct (Js.own_get (cxns p) (Js.join "," zkUrls1)) as [c|] eqn:Hc.
    - rewrite Hcases. cbn [fst snd cxns]. eauto.
    - rewrite Hown in Hcases. rewrite Hcases. cbn [fst snd cxns]. eexists. split; [done|].
      by rewrite RegistryFacts.own_get_app, Hc, String.eqb_refl. }
  destruct (lookup_lt_is_Some_2 _ _ (Hreg _ _ Hl)) as [s Hs].
  exists cxn, s. split; [done|].
  pose proof (RegistryFacts.getCxn_cases zkUrls2 cxnTimeout2 (snd first)) as Hsecond.
  cbn zeta in Hsecond. rewrite Hl in Hsecond. subst second. rewrite Hsecond.
  cbn [fst snd cxns objects].
  split; [done|]. split; [done|]. split; [by rewrite length_alter|].
  split; [done|]. split; [by rewrite list_lookup_alter_eq, Hs|].
  by destruct (SessionFacts.same_tables_connect (handles (snd first)) Noop s) as (-> & -> & _).
Qed.

Lemma getCxn_reuses_witness :
  let first := getCxn ["10.0.0.1:2181"; "10.0.0.2:2181"] None (Process [] [] 0) in
  let second := getCxn ["10.0.0.1:2181,10.0.0.2:2181"] (Some 500%Z) (snd first) in
  ∃ cxn s,
    fst first = inr cxn ∧ fst second = inr cxn ∧
    cxns (snd second) = cxns (snd first) ∧
    length (objects (snd second)) = length (objects (snd first)) ∧
    objects (snd first) !! cxn = Some s ∧
    objects (snd second) !! cxn = Some (_connect (handles (snd first)) Noop s) ∧
    _timeout (_connect (handles (snd first)) Noop s) = _timeout s ∧
    _urls (_connect (handles (snd first)) Noop s) = _urls s.
Proof.
  apply (getCxn_reuses ["10.0.0.1:2181"; "10.0.0.2:2181"] None
           ["10.0.0.1:2181,10.0.0.2:2181"] (Some 500%Z) (Process [] [] 0)).
  - split; [|constructor]. intros urls c Hl. discriminate Hl.
  - reflexivity.
  - reflexivity.
Defined.

(** For endpoints that name a member of [Object.prototype] there is no
    object to reuse: every [getCxn] reads the inherited member, raises,
    and leaves the process as it was. *)
Example getCxn_inherited_raises :
  getCxn ["toString"] (Some 500%Z) two_cxns
  = (inl (TypeError "Object function toString() { [native code] } has no method '_connect'"),
     two_cxns).
Proof. by vm_compute. Qed.



End CloseFacts.

Module GatedFacts.

(** X17. What [unlock] touches, in every state of the session and for
    every answer of the store. The watch table is never written. At most
    one call is issued, and only on a connected session: the deletion
    with version 0 of the node recorded under [name] or, when there is no
    entry and [name] names a member of [Object.prototype], a deletion
    that is handed that member. The entry of [name] is removed exactly
    when the callback receives [(null, name)], which takes a ZOK answer to
    the deletion; after any other outcome (a gate that waits or reports an
    error, no entry, a refused deletion) the lock table is what it was, so
    the lock is still recorded as held. *)
Theorem unlock_effects zk name callback s calls :
  let res := unlock zk name callback (s, calls) in
  _watching (fst (snd res)) = _watching s ∧
  (snd (snd res) = calls ∨
   _cxnState s = CONNECTED ∧
   ∃ deletion, snd (snd res) = deletion :: calls ∧
               match _locks s !! name with
               | Some node => deletion = a_delete_ node 0
               | None => Js.inherited name = true ∧ deletion = a_delete_member name 0
               end) ∧
  (fst res = Called None (Some name) →
   ∃ deletion, snd (snd res) = deletion :: calls ∧
               rc (zk (deletion :: calls)) = ZOK ∧
               _locks (fst (snd res)) = delete name (_locks s)) ∧
  (fst res ≠ Called None (Some name) → _locks (fst (snd res)) = _locks s).
Proof.
  cbn zeta.
  assert (_cxnState s = CONNECTED ∨ _cxnState s ≠ CONNECTED) as [Hst|Hst]
    by (destruct (_cxnState s); auto).
  - rewrite (UnlockFacts.unlock_connected zk name callback s calls Hst).
    set (s0 := record_call None (UnlockGate name callback) None s).
    assert (∀ deletion,
              match _locks s !! name with
              | Some node => deletion = a_delete_ node 0
              | None => Js.inherited name = true ∧ deletion = a_delete_member name 0
              end →
              let res := (let '(r, calls0) := issue zk deletion calls in
                          if negb (rc r =? ZOK)%Z
                          then (Called (Some (StoreError (error r))) None, (s0, calls0))
                          else (Called None (Some name),
                                (set_locks (delete name (_locks s0)) s0, calls0))) in
              _watching (fst (snd res)) = _watching s ∧
              (snd (snd res) = calls ∨
               _cxnState s = CONNECTED ∧
               ∃ deletion, snd (snd res) = deletion :: calls ∧
                 match _locks s !! name with
                 | Some node => deletion = a_delete_ node 0
                 | None => Js.inherited name = true ∧ deletion = a_delete_member name 0
                 end) ∧
              (fst res = Called None (Some name) →
               ∃ deletion, snd (snd res) = deletion :: calls ∧
                 rc (zk (deletion :: calls)) = ZOK ∧
                 _locks (fst (snd res)) = delete name (_locks s)) ∧
              (fst res ≠ Called None (Some name) → _locks (fst (snd res)) = _locks s))
      as Hdeleting.
    { intros deletion Hdel. cbn zeta. unfold issue.
      destruct (Z.eqb_spec (rc (zk (deletion :: calls))) ZOK) as [Hok|Hno];
        cbn [negb fst snd set_locks record_call _locks _watching s0].
      - split; [done|]. split; [right; split; [done|]; by exists deletion|].
        split; [|done]. intros _. by exists deletion.
      - split; [done|]. split; [right; split; [done|]; by exists deletion|].
        split; [done|done]. }
    unfold unlock_gated, Js.read. fold s0.
    change (_locks s0) with (_locks s).
    destruct (_locks s !! name) as [node|] eqn:Hn.
    + destruct (Js.truthy node); [by apply Hdeleting|].
      cbn [fst snd]. split; [done|]. split; [by left|]. split; [done|done].
    + destruct (Js.inherited name) eqn:Hin; [by apply Hdeleting|].
      cbn [fst snd]. split; [done|]. split; [by left|]. split; [done|done].
  - destruct (SessionFacts.same_tables_onConnection (UnlockGate name callback) s)
      as (_ & _ & Hl & Hw).
    unfold unlock. destruct (_cxnState s) eqn:E; cbn [fst snd unlock_gated]; [| | |done];
      (split; [done|]; split; [by left|]; split; [done|done]).
Qed.

Lemma unlock_effects_witness :
  let res := unlock refusing_store "/plumber/wrench" (Caller 1) (holding_cxn, []) in
  fst res ≠ Called None (Some "/plumber/wrench") ∧
  snd (snd res) = [a_delete_ "/plumber/wrench0000000002" 0] ∧
  _locks (fst (snd res)) = _locks holding_cxn.
Proof.
  intros res.
  assert (fst res ≠ Called None (Some "/plumber/wrench")) as Hres by (by vm_compute).
  destruct (unlock_effects refusing_store "/plumber/wrench" (Caller 1) holding_cxn [])
    as (_ & _ & _ & Hkept).
  split; [exact Hres|]. split; [reflexivity|exact (Hkept Hres)].
Defined.

(** X18. [lock] before the connection is up. On a session that is neither
    CONNECTED nor in ERROR, in any state the events of the file lead to,
    [lock] returns with its function parked at the gate: no call is issued
    on the store, nothing is called, and the tables of locks and watches
    are as before. The next connected event of the handle calls the parked
    function, once and without error, and the function then does what
    [lock] does on a connected session: the parent path, the sequential
    ephemeral create and the negotiation. *)
Theorem lock_deferred_until_connected fuel zk name txnId callback urls timeout before
    connected client_id calls :
  let s := run before (new_ZkCxn urls timeout) in
  _cxnState s ≠ CONNECTED → _cxnState s ≠ ERROR →
  let g := length (gates s) in
  let res := lock fuel zk name txnId callback (s, calls) in
  let i := Invocation (Some g) (LockGate name txnId callback) None in
  fst res = AtGate g ∧ snd (snd res) = calls ∧
  invoked (fst (snd res)) = invoked s ∧
  _locks (fst (snd res)) = _locks s ∧ _watching (fst (snd res)) = _watching s ∧
  calls_via g (on_connected connected client_id (fst (snd res))) = [i] ∧
  ∀ w, run_gated fuel zk i w = Some (lock_gated fuel zk name txnId callback None w).
Proof.
  intros s Hc He g res i.
  assert (log_wf s) as Hwf by (apply (GateFacts.good_run None), GateFacts.good_new).
  destruct (GateFacts.onConnection_registers (LockGate name txnId callback) s Hwf Hc He)
    as (Hgood & Hp & listeners & Hem & Hin & _).
  destruct (SessionFacts.same_tables_onConnection (LockGate name txnId callback) s)
    as (_ & _ & Hl & Hw).
  set (s' := onConnection (LockGate name txnId callback) s) in *.
  assert (res = (AtGate g, (s', calls))) as ->.
  { subst res. unfold lock. fold s'. by destruct (_cxnState s). }
  cbn [fst snd]. split; [done|]. split; [done|]. split.
  { subst s'. unfold onConnection. by destruct (_cxnState s). }
  split; [done|]. split; [done|]. split; [|done].
  unfold on_connected.
  rewrite GateFacts.calls_via_record_call, decide_False, app_nil_r by done.
  apply (GateFacts.changeState_resolves g (LockGate name txnId callback) CONNECTED None
           listeners (set_sessionId (Some client_id) s')); [|done|done|done].
  by eapply GateFacts.good_ext.
Qed.

Lemma lock_deferred_until_connected_witness :
  let zk := listing_store ["wrench0000000002"] in
  let s := run [CallConnect 0 Noop] (new_ZkCxn "127.0.0.1:2181" 8000) in
  let g := length (gates s) in
  let res := lock 2 zk "/plumber/wrench" "txn" (Caller 1) (s, []) in
  let i := Invocation (Some g) (LockGate "/plumber/wrench" "txn" (Caller 1)) None in
  fst res = AtGate g ∧ snd (snd res) = [] ∧
  invoked (fst (snd res)) = invoked s ∧
  _locks (fst (snd res)) = _locks s ∧ _watching (fst (snd res)) = _watching s ∧
  calls_via g (on_connected Noop 7 (fst (snd res))) = [i] ∧
  ∀ w, run_gated 2 zk i w
       = Some (lock_gated 2 zk "/plumber/wrench" "txn" (Caller 1) None w).
Proof.
  apply (lock_deferred_until_connected 2 (listing_store ["wrench0000000002"])
           "/plumber/wrench" "txn" (Caller 1) "127.0.0.1:2181" 8000 [CallConnect 0 Noop]
           Noop 7 []); by vm_compute.
Defined.

End GatedFacts.

Module ProtocolFacts.
Import SiblingRank.

(** [lock] on a connected session, up to the first listing. *)
Lemma lock_first_listing fuel zk name txnId callback s calls :
  _cxnState s = CONNECTED → rooted name →
  let calls0 := snd (_createPath zk (lockpath_of name) txnId 0 calls) in
  let created := zk (a_create name txnId 3 :: calls0) in
  let calls1 := a_create name txnId 3 :: calls0 in
  let listing := zk (listing_call name :: calls1) in
  fst (_createPath zk (lockpath_of name) txnId 0 calls) = None →
  create_ok created = true → rc listing = ZOK →
  lock (S fuel) zk name txnId callback (s, calls)
  = let s0 := record_call None (LockGate name txnId callback) None s in
    match rank (lockpath_of name) (lockname_of name) (stat created) (children listing) with
    | Lowest =>
        (Called None None,
         (set_locks (<[name := stat created]> (_locks s0)) s0, listing_call name :: calls1))
    | After nextLowest =>
        match negotiate_iterator zk name (stat created) callback (s0, calls1) with
        | (Callback (Some err) _, w) => (Called (Some err) None, w)
        | (Callback None true, w) => (Called None None, w)
        | (Callback None false, w) => negotiateLock fuel zk name (stat created) callback w
        | (Queued path, w) => (Parked path, w)
        | (Returned, w) => (Silent, w)
        | (Raised e, w) => (Threw e, w)
        end
    | Neither => (Silent, (s0, listing_call name :: calls1))
    end.
Proof.
  intros Hst Hroot calls0 created calls1 listing Hpath Hcreate Hrc.
  unfold lock, onConnection. rewrite Hst. rewrite LockEffects.lock_gated_unfold. cbn zeta.
  rewrite Hpath. fold calls0.
  rewrite (CreatePathFacts._create_rooted zk name txnId 3 calls0 Hroot). cbn zeta.
  fold created. rewrite Hcreate. cbn [fst snd default from_option id]. fold calls1.
  cbn [negotiateLock].
  destruct (rank (lockpath_of name) (lockname_of name) (stat created) (children listing))
    eqn:Hrank; [| done |];
    unfold negotiate_iterator, _getChildren, issue; fold (listing_call name);
    fold listing; rewrite Hrc; cbn [negb Z.eqb ZOK snd]; by rewrite Hrank.
Qed.

(** X19. The lock goes to the lowest sequence number. Take a connected
    session and a name that begins with the separator; let the parent path
    be created without error, let the store make the node [name] followed
    by the suffix [p], and let the first listing succeed with siblings of
    one suffix width, mixed with nodes that do not contain [lockname]. If
    no sibling has a smaller sequence number than [p], [lock] calls back
    without error after that one listing: the node is recorded under
    [name] in [_locks], nothing is put in [_watching], and no exists call
    is made. *)
Theorem lock_acquires_when_lowest fuel zk name txnId callback s calls
    suffixes others width p :
  _cxnState s = CONNECTED → rooted name →
  let calls0 := snd (_createPath zk (lockpath_of name) txnId 0 calls) in
  let calls1 := a_create name txnId 3 :: calls0 in
  let created := zk calls1 in
  let listing := zk (listing_call name :: calls1) in
  fst (_createPath zk (lockpath_of name) txnId 0 calls) = None →
  create_ok created = true → stat created = name +:+ p →
  rc listing = ZOK →
  Permutation (children listing) (map (λ x, lockname_of name +:+ x) suffixes ++ others) →
  Forall (λ n, Js.indexOf (lockname_of name) n = (-1)%Z) others →
  Forall (fixed_width width) suffixes → p ∈ suffixes →
  (∀ x, x ∈ suffixes → (seqnum p ≤ seqnum x)%N) →
  let res := lock (S fuel) zk name txnId callback (s, calls) in
  fst res = Called None None ∧
  _locks (fst (snd res)) = <[name := name +:+ p]> (_locks s) ∧
  _watching (fst (snd res)) = _watching s ∧
  snd (snd res) = listing_call name :: calls1.
Proof.
  intros Hst Hroot calls0 calls1 created listing Hpath Hcreate Hstat Hrc Hperm Hothers
    Hw Hp Hmin res.
  subst res. rewrite (lock_first_listing fuel zk name txnId callback s calls Hst Hroot Hpath
                        Hcreate Hrc).
  cbn zeta. fold calls0 calls1 created listing. rewrite Hstat.
  by rewrite (rank_lowest name (children listing) suffixes others width p Hperm Hothers
                Hw Hp Hmin).
Qed.

Lemma lock_acquires_when_lowest_witness :
  let zk := listing_store ["wrench0000000002"; "wrench0000000005"; "pliers0000000001"] in
  let res := lock 1 zk "/plumber/wrench" "txn" (Caller 1) (connected_cxn, []) in
  fst res = Called None None ∧
  _locks (fst (snd res))
  = <["/plumber/wrench" := "/plumber/wrench" +:+ "0000000002"]> (_locks connected_cxn) ∧
  _watching (fst (snd res)) = _watching connected_cxn ∧
  snd (snd res)
  = listing_call "/plumber/wrench"
      :: a_create "/plumber/wrench" "txn" 3
      :: snd (_createPath zk (lockpath_of "/plumber/wrench") "txn" 0 []).
Proof.
  apply (lock_acquires_when_lowest 0
           (listing_store ["wrench0000000002"; "wrench0000000005"; "pliers0000000001"])
           "/plumber/wrench" "txn" (Caller 1) connected_cxn []
           ["0000000002"; "0000000005"] ["pliers0000000001"] 10 "0000000002").
  - reflexivity.
  - exact I.
  - reflexivity.
  - reflexivity.
  - reflexivity.
  - reflexivity.
  - reflexivity.
  - by repeat constructor.
  - by repeat constructor.
  - left.
  - intros x Hx. repeat (apply elem_of_cons in Hx as [->|Hx]); [by vm_compute..|].
    by apply elem_of_nil in Hx.
Defined.

(** X20. Behind a smaller sequence number, [lock] waits for its immediate
    predecessor. With the session, the name, the created node and the
    first listing as in X19, let some sibling have a smaller sequence
    number than [p], and let the exists calls on the siblings answer ZOK.
    Then [lock] does not call back: after the listing it asks twice whether
    the sibling with the greatest sequence number below [p] exists (once in
    the iterator, once in [_watch]) and queues the iterator's callback
    under that one node in [_watching]; [_locks] is unchanged. *)
Theorem lock_waits_behind_predecessor fuel zk name txnId callback s calls
    suffixes others width p s0 :
  _cxnState s = CONNECTED → rooted name →
  let calls0 := snd (_createPath zk (lockpath_of name) txnId 0 calls) in
  let calls1 := a_create name txnId 3 :: calls0 in
  let created := zk calls1 in
  let listing := zk (listing_call name :: calls1) in
  fst (_createPath zk (lockpath_of name) txnId 0 calls) = None →
  create_ok created = true → stat created = name +:+ p →
  rc listing = ZOK →
  Permutation (children listing) (map (λ x, lockname_of name +:+ x) suffixes ++ others) →
  Forall (λ n, Js.indexOf (lockname_of name) n = (-1)%Z) others →
  Forall (fixed_width width) suffixes → p ∈ suffixes →
  s0 ∈ suffixes → (seqnum s0 < seqnum p)%N →
  (∀ x more, x ∈ suffixes → rc (zk (a_exists (name +:+ x) true :: more)) = ZOK) →
  let res := lock (S fuel) zk name txnId callback (s, calls) in
  ∃ pred, pred ∈ suffixes ∧ (seqnum pred < seqnum p)%N ∧
    (∀ x, x ∈ suffixes → (seqnum x < seqnum p)%N → (seqnum x ≤ seqnum pred)%N) ∧
    fst res = Parked (name +:+ pred) ∧
    _locks (fst (snd res)) = _locks s ∧
    _watching (fst (snd res))
    = watching_push (name +:+ pred) (UntilNext name (name +:+ p) callback) (_watching s) ∧
    snd (snd res) = a_exists (name +:+ pred) true :: a_exists (name +:+ pred) true
                      :: listing_call name :: calls1.
Proof.
  intros Hst Hroot calls0 calls1 created listing Hpath Hcreate Hstat Hrc Hperm Hothers
    Hw Hp Hs0 Hlt Hexists res.
  destruct (rank_predecessor name (children listing) suffixes others width p s0 Hperm
              Hothers Hw Hp Hs0 Hlt) as (pred & Hpin & Hrank & Hpl & Hmax).
  exists pred. split; [done|]. split; [done|]. split; [done|].
  subst res. rewrite (lock_first_listing fuel zk name txnId callback s calls Hst Hroot Hpath
                        Hcreate Hrc).
  cbn zeta. fold calls0 calls1 created listing. rewrite Hstat, Hrank.
  set (s1 := record_call None (LockGate name txnId callback) None s).
  assert (negotiate_iterator zk name (name +:+ p) callback (s1, calls1)
          = (Queued (name +:+ pred),
             (set_watching (watching_push (name +:+ pred)
                              (UntilNext name (name +:+ p) callback) (_watching s1)) s1,
              a_exists (name +:+ pred) true :: a_exists (name +:+ pred) true
                :: listing_call name :: calls1))) as ->.
  { unfold negotiate_iterator, _getChildren, issue. fold (listing_call name). fold listing.
    rewrite Hrc. cbn [negb Z.eqb ZOK snd]. rewrite Hrank.
    unfold _exists, issue. rewrite (Hexists pred _ Hpin). cbn [Z.eqb ZNONODE ZOK snd].
    rewrite WatchFacts._watch_queues. cbn zeta. by rewrite (Hexists pred _ Hpin). }
  done.
Qed.

Lemma lock_waits_behind_predecessor_witness :
  let suffixes := ["0000000002"; "0000000001"] in
  let calls1 := a_create "/orchard/tree" "txn" 3
                  :: snd (_createPath released_store (lockpath_of "/orchard/tree")
                            "txn" 0 []) in
  let res := lock 1 released_store "/orchard/tree" "txn" (Caller 1) (connected_cxn, []) in
  ∃ pred, pred ∈ suffixes ∧ (seqnum pred < seqnum "0000000002")%N ∧
    (∀ x, x ∈ suffixes → (seqnum x < seqnum "0000000002")%N →
          (seqnum x ≤ seqnum pred)%N) ∧
    fst res = Parked ("/orchard/tree" +:+ pred) ∧
    _locks (fst (snd res)) = _locks connected_cxn ∧
    _watching (fst (snd res))
    = watching_push ("/orchard/tree" +:+ pred)
        (UntilNext "/orchard/tree" ("/orchard/tree" +:+ "0000000002") (Caller 1))
        (_watching connected_cxn) ∧
    snd (snd res)
    = a_exists ("/orchard/tree" +:+ pred) true :: a_exists ("/orchard/tree" +:+ pred) true
        :: listing_call "/orchard/tree" :: calls1.
Proof.
  apply (lock_waits_behind_predecessor 0 released_store "/orchard/tree" "txn" (Caller 1)
           connected_cxn [] ["0000000002"; "0000000001"] [] 10 "0000000002" "0000000001").
  - reflexivity.
  - exact I.
  - reflexivity.
  - reflexivity.
  - reflexivity.
  - reflexivity.
  - reflexivity.
  - constructor.
  - by repeat constructor.
  - left.
  - right. left.
  - by vm_compute.
  - intros x more _. reflexivity.
Defined.

End ProtocolFacts.
